(** * Selective search: region bookkeeping and greedy hierarchical merging

    A shallow embedding of [selectivesearch/selectivesearch.py].

    Conventions of the embedding.
    - Python integers are [Z].  Region ids are [Z] as well: the ids that the
      merge loop allocates are the floats [max(R.keys()) + 1.0], which are
      integer valued and hash and compare like the corresponding ints.
    - numpy float arrays (histograms) and float scalars (similarity scores)
      are lists of, and elements of, [Q]: exact rational arithmetic stands in
      for binary64.
    - A Python [dict] is an association list in insertion order, which is the
      iteration order of [items()] and [keys()].
    - Exceptions are the [inl] side of a sum.
    - A division by zero, which raises or gives nan or inf in Python, is the
      [x / 0 = 0] of [Q]; it arises for an empty image or an empty sample
      only, and nothing below depends on it. *)

From Stdlib Require Import ZArith QArith Qround Qminmax List Lia Permutation Sorted.
From stdpp Require Import base tactics option list gmap.

Import ListNotations.
Local Open Scope Z_scope.

(** ** Exceptions *)

Inductive exn : Type :=
| AssertionError
| IndexError
| KeyError
| ValueError.

Definition result (A : Type) : Type := (exn + A)%type.

Definition ret {A} (a : A) : result A := inr a.
Definition raise {A} (e : exn) : result A := inl e.
Definition bind {A B} (m : result A) (k : A -> result B) : result B :=
  match m with
  | inl e => inl e
  | inr a => k a
  end.

Notation "'let*' x ':=' m 'in' k" := (bind m (fun x => k))
  (at level 10, x pattern, m at level 100, k at level 200).

Definition of_option {A} (e : exn) (o : option A) : result A :=
  match o with
  | Some a => inr a
  | None => inl e
  end.

(** ** Python dictionaries, in insertion order *)

Section Dict.
Context {K V : Type} `{EqDecision K}.

Definition dict : Type := list (K * V).

(** [d[k]] as an r-value *)
Fixpoint dict_get (d : dict) (k : K) : option V :=
  match d with
  | [] => None
  | (k', v) :: d' => if decide (k' = k) then Some v else dict_get d' k
  end.

(** [d[k] = v]: an existing key keeps its position, a new one goes last *)
Fixpoint dict_set (d : dict) (k : K) (v : V) : dict :=
  match d with
  | [] => [(k, v)]
  | (k', v') :: d' =>
      if decide (k' = k) then (k', v) :: d' else (k', v') :: dict_set d' k v
  end.

(** [del d[k]] *)
Definition dict_del (d : dict) (k : K) : dict :=
  List.filter (fun kv => negb (bool_decide (kv.1 = k))) d.

Definition dict_keys (d : dict) : list K := map fst d.

(** [k in d] *)
Definition dict_mem (d : dict) (k : K) : bool :=
  bool_decide (k ∈ dict_keys d).
End Dict.

Arguments dict : clear implicits.

(** ** Histogram builder *)

Definition pixel3 : Type := (Q * Q * Q)%type.

(** [p[c]] for the channel numbers the source uses, [(0, 1, 2)] *)
Definition channel (c : nat) (p : pixel3) : Q :=
  match c with
  | O => p.1.1
  | S O => p.1.2
  | _ => p.2
  end.

(** The bin of [numpy.histogram(_, bins, (lo, hi))] that a value falls in:
    values outside [lo, hi] are dropped, the last bin is closed on the right. *)
Definition bin_of (bins : nat) (lo hi v : Q) : option nat :=
  if Qle_bool lo v && Qle_bool v hi then
    Some (Nat.min (bins - 1)
            (Z.to_nat (Qfloor ((v - lo) * inject_Z (Z.of_nat bins) / (hi - lo)))))
  else None.

Definition count_bin (bins : nat) (lo hi : Q) (c : list Q) (b : nat) : nat :=
  length (List.filter (fun v => bool_decide (bin_of bins lo hi v = Some b)) c).

(** [numpy.histogram(c, bins, (lo, hi))[0]] *)
Definition np_histogram (c : list Q) (bins : nat) (lo hi : Q) : list Q :=
  map (fun b => inject_Z (Z.of_nat (count_bin bins lo hi c b))) (seq 0 bins).

Definition Qsum (l : list Q) : Q := fold_left Qplus l 0%Q.

Definition _calc_colour_hist (img : list pixel3) : list Q :=
  let BINS := 25%nat in
  let hist :=
    fold_left
      (fun hist colour_channel =>
         let c := map (channel colour_channel) img in
         hist ++ np_histogram c BINS 0%Q 255%Q)
      [0%nat; 1%nat; 2%nat] [] in
  map (fun h => (h / inject_Z (Z.of_nat (length img)))%Q) hist.

Definition _calc_texture_hist (img : list pixel3) : list Q :=
  let BINS := 10%nat in
  let hist :=
    fold_left
      (fun hist colour_channel =>
         let fd := map (channel colour_channel) img in
         hist ++ np_histogram fd BINS 0%Q 1%Q)
      [0%nat; 1%nat; 2%nat] [] in
  map (fun h => (h / inject_Z (Z.of_nat (length img)))%Q) hist.

(** ** Regions *)

(** A region as [_extract_regions] leaves it: no [og_*] fields yet. *)
Record raw_region : Type := RawRegion {
  raw_min_x : Z;
  raw_min_y : Z;
  raw_max_x : Z;
  raw_max_y : Z;
  raw_labels : list Z;
  raw_bbox_size : Z;
  raw_size : Z;
  raw_hist_c : list Q;
  raw_hist_t : list Q
}.

(** A region of the table the merge engine works on. *)
Record region : Type := Region {
  min_x : Z;
  min_y : Z;
  max_x : Z;
  max_y : Z;
  og_min_x : Z;
  og_min_y : Z;
  og_max_x : Z;
  og_max_y : Z;
  size : Z;
  hist_c : list Q;
  hist_t : list Q;
  labels : list Z;
  bbox_size : Z
}.

(** ** Similarity model *)

Definition hist_intersection (h1 h2 : list Q) : Q :=
  Qsum (map (fun ab => Qmin ab.1 ab.2) (combine h1 h2)).

Definition _sim_colour (r1 r2 : region) : Q :=
  hist_intersection (hist_c r1) (hist_c r2).

Definition _sim_texture (r1 r2 : region) : Q :=
  hist_intersection (hist_t r1) (hist_t r2).

Definition _sim_size (r1 r2 : region) (imsize : Z) : Q :=
  (1 - inject_Z (size r1 + size r2) / inject_Z imsize)%Q.

Definition _sim_fill (r1 r2 : region) (imsize : Z) : Q :=
  let bbsize :=
    (Z.max (max_x r1) (max_x r2) - Z.min (min_x r1) (min_x r2))
    * (Z.max (max_y r1) (max_y r2) - Z.min (min_y r1) (min_y r2)) in
  (1 - inject_Z (bbsize - size r1 - size r2) / inject_Z imsize)%Q.

Definition _calc_sim (r1 r2 : region) (imsize : Z) : Q :=
  (_sim_colour r1 r2 + _sim_texture r1 r2
   + _sim_size r1 r2 imsize + _sim_fill r1 r2 imsize)%Q.

(** ** Merging and expanding regions *)

(** [(h1 * s1 + h2 * s2) / new_size] on arrays *)
Definition weighted_hist (h1 : list Q) (s1 : Z) (h2 : list Q) (s2 : Z)
    (new_size : Z) : list Q :=
  map (fun ab => ((ab.1 * inject_Z s1 + ab.2 * inject_Z s2)
                  / inject_Z new_size)%Q)
      (combine h1 h2).

Definition _merge_regions (r1 r2 : region) : region :=
  let new_size := size r1 + size r2 in
  let rt_min_x := Z.min (min_x r1) (min_x r2) in
  let rt_min_y := Z.min (min_y r1) (min_y r2) in
  let rt_max_x := Z.max (max_x r1) (max_x r2) in
  let rt_max_y := Z.max (max_y r1) (max_y r2) in
  {| min_x := rt_min_x;
     min_y := rt_min_y;
     max_x := rt_max_x;
     max_y := rt_max_y;
     og_min_x := Z.min (og_min_x r1) (og_min_x r2);
     og_min_y := Z.min (og_min_y r1) (og_min_y r2);
     og_max_x := Z.max (og_max_x r1) (og_max_x r2);
     og_max_y := Z.max (og_max_y r1) (og_max_y r2);
     size := new_size;
     hist_c := weighted_hist (hist_c r1) (size r1) (hist_c r2) (size r2) new_size;
     hist_t := weighted_hist (hist_t r1) (size r1) (hist_t r2) (size r2) new_size;
     labels := labels r1 ++ labels r2;
     bbox_size := (rt_max_x - rt_min_x) * (rt_max_y - rt_min_y) |}.

(** One entry of [_expand_regions]: the bbox grows by [border] and is clipped
    to the image, while [bbox_size] is computed from the bbox of [r], the
    region before the expansion. *)
Definition expand_region (r : raw_region) (border x_lim y_lim : Z) : region :=
  {| min_x := Z.max 0 (raw_min_x r - border);
     min_y := Z.max 0 (raw_min_y r - border);
     max_x := Z.min x_lim (raw_max_x r + border);
     max_y := Z.min y_lim (raw_max_y r + border);
     og_min_x := raw_min_x r;
     og_min_y := raw_min_y r;
     og_max_x := raw_max_x r;
     og_max_y := raw_max_y r;
     size := raw_size r;
     hist_c := raw_hist_c r;
     hist_t := raw_hist_t r;
     labels := raw_labels r;
     bbox_size := (raw_max_x r - raw_min_x r) * (raw_max_y r - raw_min_y r) |}.

(** The new table is keyed by the position of each entry, [R_new[i]]. *)
Definition _expand_regions (regions : dict Z raw_region)
    (border x_lim y_lim : Z) : dict Z region :=
  fold_left
    (fun R_new ir =>
       dict_set R_new (Z.of_nat ir.1) (expand_region ir.2.2 border x_lim y_lim))
    (combine (seq 0 (length regions)) regions) [].

(** ** Neighbour graph *)

(** Python's chained comparison [lo < v < hi] *)
Definition between (lo v hi : Z) : bool := (lo <? v) && (v <? hi).

(** The local function [intersect] of [_extract_neighbours]: the four
    disjuncts test the corners (min_x, min_y), (max_x, max_y), (min_x, max_y)
    and (max_x, min_y) of [b] against the open box of [a]. *)
Definition intersect (a b : region) : bool :=
  (between (min_x a) (min_x b) (max_x a) && between (min_y a) (min_y b) (max_y a))
  || (between (min_x a) (max_x b) (max_x a) && between (min_y a) (max_y b) (max_y a))
  || (between (min_x a) (min_x b) (max_x a) && between (min_y a) (max_y b) (max_y a))
  || (between (min_x a) (max_x b) (max_x a) && between (min_y a) (min_y b) (max_y a)).

(** [enumerate(l)] *)
Definition enumerate {A} (l : list A) : list (nat * A) :=
  combine (seq 0 (length l)) l.

Definition item : Type := (Z * region)%type.

(** [_extract_neighbours]: the pairs in the order they are appended, and the
    mask of the positions that got a neighbour.  The loop that follows in
    the source only asserts over the mask and changes nothing. *)
Definition _extract_neighbours (regions : dict Z region)
    : list (item * item) * list bool :=
  let R := regions in
  fold_left
    (fun acc ca =>
       let cur := ca.1 in
       let a := ca.2 in
       fold_left
         (fun nm cb =>
            let cur2 := cb.1 in
            let b := cb.2 in
            if intersect a.2 b.2 then
              (nm.1 ++ [(a, b)],
               <[(cur + cur2 + 1)%nat := true]> (<[cur := true]> nm.2))
            else nm)
         (enumerate (drop (cur + 1) R)) acc)
    (enumerate (removelast R))
    ([], replicate (length R) false).

(** ** Merge engine *)

Definition edge : Type := (Z * Z)%type.

Record state : Type := State {
  st_R : dict Z region;       (* the region table [R] *)
  st_S : dict edge Q          (* the similarity set [S] *)
}.

(** [i in k] for a pair [k] *)
Definition touches (i : Z) (k : edge) : bool :=
  bool_decide (i = k.1) || bool_decide (i = k.2).

(** [sorted(_, key=lambda i: i[1])]: the sort is stable, so an entry goes in
    front of the entries of the same score that followed it in the input. *)
Fixpoint insert_by_score (x : edge * Q) (l : list (edge * Q)) : list (edge * Q) :=
  match l with
  | [] => [x]
  | y :: l' => if Qle_bool x.2 y.2 then x :: y :: l' else y :: insert_by_score x l'
  end.

Definition sorted_by_score (items : list (edge * Q)) : list (edge * Q) :=
  fold_right insert_by_score [] items.

(** [sorted(S.items(), key=lambda i: i[1])[-1][0]] *)
Definition select_edge (S : dict edge Q) : result edge :=
  let* kv := of_option IndexError (last (sorted_by_score S)) in
  ret kv.1.

(** [max(R.keys())] *)
Definition max_key {V} (R : dict Z V) : result Z :=
  match dict_keys R with
  | [] => raise ValueError
  | k :: ks => ret (fold_left Z.max ks k)
  end.

(** Left fold of a step that may raise. *)
Fixpoint foldM {A B} (f : A -> B -> result A) (l : list B) (a : A) : result A :=
  match l with
  | [] => ret a
  | b :: l' => let* a' := f a b in foldM f l' a'
  end.

Section MergeEngine.
Variable max_region_size : Z.
Variable imsize : Z.

(** The keys of the similarities that one iteration removes. *)
Definition stale_keys (i j : Z) (S : dict edge Q) : list edge :=
  List.filter (fun k => touches i k || touches j k) (dict_keys S).

(** The keys that give rise to a new similarity, [a != (i, j)]. *)
Definition carried_keys (i j : Z) (key_to_delete : list edge) : list edge :=
  List.filter (fun a => negb (bool_decide (a = (i, j)))) key_to_delete.

(** [n = k[1] if k[0] in (i, j) else k[0]] *)
Definition other_end (i j : Z) (k : edge) : Z :=
  if bool_decide (k.1 = i) || bool_decide (k.1 = j) then k.2 else k.1.

(** [S[(t, n)] = _calc_sim(R[t], R[n], imsize)] *)
Definition add_similarity (R : dict Z region) (t i j : Z)
    (S : dict edge Q) (k : edge) : result (dict edge Q) :=
  let n := other_end i j k in
  let* rt := of_option KeyError (dict_get R t) in
  let* rn := of_option KeyError (dict_get R n) in
  ret (dict_set S (t, n) (_calc_sim rt rn imsize)).

(** The body of the loop once [(i, j)] is selected. *)
Definition merge_at (i j : Z) (st : state) : result state :=
  let* m := max_key (st_R st) in
  let t := m + 1 in
  let* ri := of_option KeyError (dict_get (st_R st) i) in
  let* rj := of_option KeyError (dict_get (st_R st) j) in
  let R := dict_set (st_R st) t (_merge_regions ri rj) in
  let key_to_delete := stale_keys i j (st_S st) in
  let S := fold_left dict_del key_to_delete (st_S st) in
  let* rt := of_option KeyError (dict_get R t) in
  if max_region_size <? bbox_size rt then
    ret {| st_R := R; st_S := S |}
  else
    let* S' := foldM (add_similarity R t i j) (carried_keys i j key_to_delete) S in
    ret {| st_R := R; st_S := S' |}.

(** One iteration of the [while S != {}] loop, run on a non-empty [S]. *)
Definition merge_step (st : state) : result state :=
  let* ij := select_edge (st_S st) in
  merge_at ij.1 ij.2 st.

(** The loop; [None] is running out of fuel. *)
Fixpoint merge_loop (fuel : nat) (st : state) : option (result state) :=
  match st_S st with
  | [] => Some (ret st)
  | _ :: _ =>
      match fuel with
      | O => None
      | Datatypes.S fuel' =>
          match merge_step st with
          | inl e => Some (inl e)
          | inr st' => merge_loop fuel' st'
          end
      end
  end.

(** The loop with the fuel it needs, one unit per similarity. *)
Definition hierarchical_search (st : state) : option (result state) :=
  merge_loop (length (st_S st)) st.

(** The states the loop goes through. *)
Definition steps_to (st st' : state) : Prop :=
  st_S st <> [] /\ merge_step st = inr st'.

Definition reaches : state -> state -> Prop :=
  rtc steps_to.
End MergeEngine.

(** ** Initial similarities and the [region_pop] pass *)

(** [S[(ai, bi)] = _calc_sim(ar, br, imsize)] over the neighbours *)
Definition initial_similarities (neighbours : list (item * item))
    (imsize : Z) : dict edge Q :=
  fold_left
    (fun S ab => dict_set S (ab.1.1, ab.2.1) (_calc_sim ab.1.2 ab.2.2 imsize))
    neighbours [].

(** The body of [if region_pop:], returning [key_to_delete] and
    [first_region_to_pop]. *)
Definition pop_scan (R : dict Z region) (S : dict edge Q)
    (max_region_size : Z) : list edge * list Z :=
  fold_left
    (fun acc tr =>
       let t := tr.1 in
       if max_region_size <? bbox_size tr.2 then
         (fold_left
            (fun key_to_delete k =>
               if touches t k then
                 if bool_decide (k ∈ key_to_delete) then key_to_delete
                 else key_to_delete ++ [k]
               else key_to_delete)
            (dict_keys S) acc.1,
          acc.2 ++ [t])
       else acc)
    R ([], []).

Definition apply_region_pop (region_pop : bool) (R : dict Z region)
    (S : dict edge Q) (max_region_size : Z) : dict edge Q * list Z :=
  if region_pop then
    let kp := pop_scan R S max_region_size in
    (fold_left dict_del kp.1 S, kp.2)
  else (S, []).

(** ** Proposal assembler *)

Record proposal : Type := Proposal {
  rect : Z * Z * Z * Z;
  prop_bbox_size : Z;
  prop_size : Z;
  prop_labels : list Z
}.

Definition proposal_of (r : region) : proposal :=
  {| rect := (min_x r, min_y r, max_x r - min_x r, max_y r - min_y r);
     prop_bbox_size := bbox_size r;
     prop_size := size r;
     prop_labels := labels r |}.

(** The entries of [R] that the final loop emits a record for. *)
Definition emitted (R : dict Z region) (first_region_to_pop : list Z)
    : list item :=
  List.filter (fun kr => negb (bool_decide (kr.1 ∈ first_region_to_pop))) R.

Definition assemble (R : dict Z region) (first_region_to_pop : list Z)
    : list proposal :=
  map (fun kr => proposal_of kr.2) (emitted R first_region_to_pop).

(** ** Images and the external collaborators *)

(** An ndarray of pixels: its [shape] and its rows of pixels of channels. *)
Record image : Type := Image {
  shape : list Z;
  data : list (list (list Q))
}.

(** The image with the label channel that [_generate_segments] returns:
    the original channels, the mask as the channel of index 3, and the shape
    with one more channel. *)
Record labelled : Type := Labelled {
  lab_shape : list Z;
  lab_orig : image;
  lab_mask : list (list Z)
}.

Record config : Type := Config {
  scale : Q;
  sigma : Q;
  min_size : Z;
  region_pop : bool;
  max_region_size : Z;
  border : Z
}.

(** [selective_search(im_orig)] with the defaults of its signature *)
Definition default_config : config :=
  {| scale := 1; sigma := 8 # 10; min_size := 50; region_pop := false;
     max_region_size := 3000; border := 10 |}.

(** Calls into skimage, in the order they are made. *)
Inductive call : Type :=
| Call_felzenszwalb
| Call_rgb2hsv
| Call_local_binary_pattern (colour_channel : nat).

(** Computations that call collaborators and may raise: the calls made so
    far are threaded through. *)
Definition io (A : Type) : Type := list call -> list call * result A.

Definition io_ret {A} (a : A) : io A := fun tr => (tr, inr a).
Definition io_raise {A} (e : exn) : io A := fun tr => (tr, inl e).
Definition io_lift {A} (r : result A) : io A := fun tr => (tr, r).
Definition io_call {A} (c : call) (a : A) : io A := fun tr => (tr ++ [c], inr a).
Definition io_bind {A B} (m : io A) (k : A -> io B) : io B :=
  fun tr =>
    match m tr with
    | (tr', inl e) => (tr', inl e)
    | (tr', inr a) => k a tr'
    end.

Notation "'do*' x ':=' m 'in' k" := (io_bind m (fun x => k))
  (at level 10, x pattern, m at level 100, k at level 200).

(** ** Region extraction *)

(** A region during the first pass of [_extract_regions]. *)
Record bbox_rec : Type := BboxRec {
  b_min_x : Z;
  b_min_y : Z;
  b_max_x : Z;
  b_max_y : Z;
  b_labels : list Z;
  b_bbox_size : Z
}.

(** The body of the first pass for the pixel at [(x, y)] of label [l]. *)
Definition visit_pixel (R : dict Z bbox_rec) (x y l : Z) : dict Z bbox_rec :=
  let R1 :=
    if dict_mem R l then R
    else dict_set R l {| b_min_x := 65535; b_min_y := 65535;
                         b_max_x := 0; b_max_y := 0;
                         b_labels := [l]; b_bbox_size := 0 |} in
  match dict_get R1 l with
  | None => R1
  | Some r =>
      let mnx := if x <? b_min_x r then x else b_min_x r in
      let mny := if y <? b_min_y r then y else b_min_y r in
      let mxx := if b_max_x r <? x then x else b_max_x r in
      let mxy := if b_max_y r <? y then y else b_max_y r in
      dict_set R1 l {| b_min_x := mnx; b_min_y := mny;
                       b_max_x := mxx; b_max_y := mxy;
                       b_labels := b_labels r;
                       b_bbox_size := (mxx - mnx) * (mxy - mny) |}
  end.

Definition count_pixel_positions (mask : list (list Z)) : dict Z bbox_rec :=
  fold_left
    (fun R yi =>
       fold_left
         (fun R xl => visit_pixel R (Z.of_nat xl.1) (Z.of_nat yi.1) xl.2)
         (enumerate yi.2) R)
    (enumerate mask) [].

(** [arr[img[:, :, 3] == k]]: the entries under the label [k], row by row;
    the two arrays are aligned with the image grid. *)
Definition masked {A} (arr : list (list A)) (mask : list (list Z)) (k : Z)
    : list A :=
  concat
    (map (fun rm =>
            map fst (List.filter (fun al => bool_decide (al.2 = k))
                                 (combine rm.1 rm.2)))
         (combine arr mask)).

(** The three per-channel arrays as one array of triples. *)
Definition stack_channels (c0 c1 c2 : list (list Q)) : list (list pixel3) :=
  map (fun rows =>
         map (fun v => (v.1.1, v.1.2, v.2))
             (combine (combine rows.1.1 rows.1.2) rows.2))
      (combine (combine c0 c1) c2).

(** What [selective_search] returns: [img, regions, og_regions]. *)
Definition output : Type := (labelled * list proposal * list proposal)%type.

(** The state the merge loop starts from, and [first_region_to_pop]. *)
Definition initial_state (R : dict Z region) (imsize : Z) (cfg : config)
    : state * list Z :=
  let nb := _extract_neighbours R in
  let S := initial_similarities nb.1 imsize in
  let sp := apply_region_pop (region_pop cfg) R S (max_region_size cfg) in
  ({| st_R := R; st_S := sp.1 |}, sp.2).

(** The loop of [selective_search], with fuel that never runs out. *)
Definition run_merge_loop (max_region_size imsize : Z) (st : state)
    : result state :=
  match hierarchical_search max_region_size imsize st with
  | Some r => r
  | None => ret st
  end.

(** What [selective_search] holds when it enters the [while] loop. *)
Record prepared : Type := Prepared {
  pr_img : labelled;
  pr_imsize : Z;
  pr_state : state;
  pr_pop : list Z
}.

(** [selective_search] after the loop: [regions], and the [og_regions] that
    stay empty. *)
Definition finish (p : prepared) (st : state) : output :=
  let regions := assemble (st_R st) (pr_pop p) in
  let og_regions := [] in
  (pr_img p, regions, og_regions).

Section Collaborators.
(** [skimage.segmentation.felzenszwalb] on the image as floats *)
Variable felzenszwalb : image -> Q -> Q -> Z -> list (list Z).
(** [skimage.color.rgb2hsv] on the first three channels *)
Variable rgb2hsv : image -> list (list pixel3).
(** [skimage.feature.local_binary_pattern(_, 8, 1.0)] on one channel *)
Variable local_binary_pattern : image -> nat -> list (list Q).

(** [numpy.append(im_orig, zeros(im_orig.shape[:2])[:, :, newaxis], axis=2)]
    joins the image and an array of three dimensions along the third axis:
    it raises [ValueError] unless the image has three dimensions as well,
    and gives one more channel when it has. *)
Definition _generate_segments (im_orig : image) (scale sigma : Q)
    (min_size : Z) : io labelled :=
  do* im_mask := io_call Call_felzenszwalb
                   (felzenszwalb im_orig scale sigma min_size) in
  match shape im_orig with
  | [h; w; c] =>
      io_ret {| lab_shape := [h; w; c + 1];
                lab_orig := im_orig;
                lab_mask := im_mask |}
  | _ => io_raise ValueError
  end.

Definition _calc_texture_gradient (img : labelled) : io (list (list pixel3)) :=
  do* c0 := io_call (Call_local_binary_pattern 0)
              (local_binary_pattern (lab_orig img) 0) in
  do* c1 := io_call (Call_local_binary_pattern 1)
              (local_binary_pattern (lab_orig img) 1) in
  do* c2 := io_call (Call_local_binary_pattern 2)
              (local_binary_pattern (lab_orig img) 2) in
  io_ret (stack_channels c0 c1 c2).

Definition _extract_regions (img : labelled) : io (dict Z raw_region) :=
  do* hsv := io_call Call_rgb2hsv (rgb2hsv (lab_orig img)) in
  let R := count_pixel_positions (lab_mask img) in
  do* tex_grad := _calc_texture_gradient img in
  io_ret
    (map (fun kv =>
            let k := kv.1 in
            let masked_pixels := masked hsv (lab_mask img) k in
            (k, {| raw_min_x := b_min_x kv.2;
                   raw_min_y := b_min_y kv.2;
                   raw_max_x := b_max_x kv.2;
                   raw_max_y := b_max_y kv.2;
                   raw_labels := b_labels kv.2;
                   raw_bbox_size := b_bbox_size kv.2;
                   raw_size := Z.of_nat (length masked_pixels);
                   raw_hist_c := _calc_colour_hist masked_pixels;
                   raw_hist_t :=
                     _calc_texture_hist (masked tex_grad (lab_mask img) k) |}))
         R).

(** [selective_search] up to the [while] loop: the labelled image, the
    image size, the state of the loop and [first_region_to_pop].
    [_generate_segments] returns an array or raises, so the branch
    [if img is None] is never taken. *)
Definition prepare (im_orig : image) (cfg : config) : io prepared :=
  do* channels := io_lift (of_option IndexError (shape im_orig !! 2%nat)) in
  if bool_decide (channels = 3) then
    do* img := _generate_segments im_orig (scale cfg) (sigma cfg) (min_size cfg) in
    do* height := io_lift (of_option IndexError (lab_shape img !! 0%nat)) in
    do* width := io_lift (of_option IndexError (lab_shape img !! 1%nat)) in
    let imsize := height * width in
    do* R := _extract_regions img in
    let R := _expand_regions R (border cfg) width height in
    let sp := initial_state R imsize cfg in
    io_ret {| pr_img := img; pr_imsize := imsize;
              pr_state := sp.1; pr_pop := sp.2 |}
  else io_raise AssertionError.

Definition selective_search (im_orig : image) (cfg : config) : io output :=
  do* p := prepare im_orig cfg in
  do* st := io_lift (run_merge_loop (max_region_size cfg) (pr_imsize p)
                       (pr_state p)) in
  io_ret (finish p st).
End Collaborators.

(** ** Merge trees *)

(** How a region of the table was built: from a region of the initial table,
    or by [_merge_regions] from two regions built before it. *)
Inductive merge_tree : Type :=
| Leaf (r : region)
| Merged (a b : merge_tree).

Fixpoint region_of (t : merge_tree) : region :=
  match t with
  | Leaf r => r
  | Merged a b => _merge_regions (region_of a) (region_of b)
  end.

Fixpoint leaves (t : merge_tree) : list region :=
  match t with
  | Leaf r => [r]
  | Merged a b => leaves a ++ leaves b
  end.

(** A frontier cuts every branch of the tree exactly once. *)
Inductive frontier : merge_tree -> list merge_tree -> Prop :=
| frontier_here t : frontier t [t]
| frontier_below a b fa fb :
    frontier a fa -> frontier b fb -> frontier (Merged a b) (fa ++ fb).

(** [s] is [t] or lies below it. *)
Inductive subtree (s : merge_tree) : merge_tree -> Prop :=
| subtree_refl : subtree s s
| subtree_left a b : subtree s a -> subtree s (Merged a b)
| subtree_right a b : subtree s b -> subtree s (Merged a b).

Definition total_size (l : list region) : Z :=
  fold_right Z.add 0 (map size l).

Definition label_set (r : region) : gset Z := list_to_set (labels r).

(** The area of the current bbox of a region. *)
Definition bbox_area (r : region) : Z :=
  (max_x r - min_x r) * (max_y r - min_y r).

Definition well_formed_bbox (r : region) : Prop :=
  min_x r <= max_x r /\ min_y r <= max_y r.

(** Neither interval contains the other. *)
Definition not_nested (lo1 hi1 lo2 hi2 : Z) : Prop :=
  ~ (lo1 <= lo2 /\ hi2 <= hi1) /\ ~ (lo2 <= lo1 /\ hi1 <= hi2).

(** ** Invariants and runs *)

(** What a successful iteration did. *)
Inductive step_data (max_region_size imsize : Z) (st st' : state) : Prop :=
| StepData (i j m : Z) (ri rj : region) :
    select_edge (st_S st) = inr (i, j) ->
    max_key (st_R st) = inr m ->
    dict_get (st_R st) i = Some ri ->
    dict_get (st_R st) j = Some rj ->
    st_R st' = st_R st ++ [(m + 1, _merge_regions ri rj)] ->
    (if max_region_size <? bbox_size (_merge_regions ri rj) then
       st_S st' = fold_left dict_del (stale_keys i j (st_S st)) (st_S st)
     else
       foldM (add_similarity imsize (st_R st') (m + 1) i j)
         (carried_keys i j (stale_keys i j (st_S st)))
         (fold_left dict_del (stale_keys i j (st_S st)) (st_S st))
       = inr (st_S st')) ->
    step_data max_region_size imsize st st'.

(** Every similarity is between two regions of the table. *)
Definition edges_in_table (st : state) : Prop :=
  forall k, k ∈ dict_keys (st_S st) ->
    k.1 ∈ dict_keys (st_R st) /\ k.2 ∈ dict_keys (st_R st).

(** No similarity has the region of id [t] at one of its ends. *)
Definition untouched (t : Z) (S : dict edge Q) : Prop :=
  forall k, k ∈ dict_keys S -> touches t k = false.

(** The values that [numpy.histogram] counts. *)
Definition in_range (lo hi v : Q) : bool := Qle_bool lo v && Qle_bool v hi.

Definition collaborator_calls : list call :=
  [Call_felzenszwalb; Call_rgb2hsv; Call_local_binary_pattern 0;
   Call_local_binary_pattern 1; Call_local_binary_pattern 2].

Definition score_is (c : Q) (x : edge * Q) : bool := Qeq_bool x.2 c.

Definition score_le (x y : edge * Q) : Prop := (x.2 <= y.2)%Q.

(** What Python promises of [sorted(items, key=lambda i: i[1])]: the items
    in ascending order of score, those of equal score in the order they had
    in [items]. *)
Record stable_sorted (items out : list (edge * Q)) : Prop := StableSorted {
  ss_perm : Permutation out items;
  ss_sorted : StronglySorted score_le out;
  ss_stable :
    forall c, List.filter (score_is c) out = List.filter (score_is c) items
}.

(** [sorted(S.items(), key=lambda i: i[1])[-1][0]], for any result of
    [sorted] that keeps its promise. *)
Inductive selects (S : dict edge Q) (e : edge) : Prop :=
| selects_last out kv :
    stable_sorted S out -> last out = Some kv -> kv.1 = e -> selects S e.

(** The runs of the loop: the pairs merged, in order, and how it ends. *)
Inductive runs (max_region_size imsize : Z)
  : state -> list edge -> result state -> Prop :=
| runs_done st :
    st_S st = [] -> runs max_region_size imsize st [] (inr st)
| runs_raise st i j e :
    st_S st <> [] -> selects (st_S st) (i, j) ->
    merge_at max_region_size imsize i j st = inl e ->
    runs max_region_size imsize st [(i, j)] (inl e)
| runs_step st i j st' merges r :
    st_S st <> [] -> selects (st_S st) (i, j) ->
    merge_at max_region_size imsize i j st = inr st' ->
    runs max_region_size imsize st' merges r ->
    runs max_region_size imsize st ((i, j) :: merges) r.

(** The final table and the value returned, or the exception. *)
Definition conclude (p : prepared) (r : result state)
    : result (dict Z region * output) :=
  let* st := r in ret (st_R st, finish p st).

(** The runs of [selective_search] for given collaborators: the calls made,
    the pairs merged, and the outcome. *)
Inductive search_runs
    (felzenszwalb : image -> Q -> Q -> Z -> list (list Z))
    (rgb2hsv : image -> list (list pixel3))
    (local_binary_pattern : image -> nat -> list (list Q))
    (im_orig : image) (cfg : config) (tr : list call)
  : list call -> list edge -> result (dict Z region * output) -> Prop :=
| search_rejected tr' e :
    prepare felzenszwalb rgb2hsv local_binary_pattern im_orig cfg tr
    = (tr', inl e) ->
    search_runs felzenszwalb rgb2hsv local_binary_pattern im_orig cfg tr
      tr' [] (inl e)
| search_merged tr' p merges r :
    prepare felzenszwalb rgb2hsv local_binary_pattern im_orig cfg tr
    = (tr', inr p) ->
    runs (max_region_size cfg) (pr_imsize p) (pr_state p) merges r ->
    search_runs felzenszwalb rgb2hsv local_binary_pattern im_orig cfg tr
      tr' merges (conclude p r).

(** ** Sample inputs *)

Definition sample_region (x0 y0 x1 y1 sz l : Z) : region :=
  {| min_x := x0; min_y := y0; max_x := x1; max_y := y1;
     og_min_x := x0; og_min_y := y0; og_max_x := x1; og_max_y := y1;
     size := sz; hist_c := [1%Q]; hist_t := [1%Q]; labels := [l];
     bbox_size := (x1 - x0) * (y1 - y0) |}.

Definition sample_tree : merge_tree :=
  Merged (Merged (Leaf (sample_region 0 0 10 10 50 7))
                 (Leaf (sample_region 5 5 15 15 40 8)))
         (Leaf (sample_region 8 8 20 20 30 9)).

Definition sample_cut : list merge_tree :=
  [Merged (Leaf (sample_region 0 0 10 10 50 7))
          (Leaf (sample_region 5 5 15 15 40 8));
   Leaf (sample_region 8 8 20 20 30 9)].

Definition sample_raw : raw_region :=
  {| raw_min_x := 5; raw_min_y := 5; raw_max_x := 10; raw_max_y := 10;
     raw_labels := [7]; raw_bbox_size := 25; raw_size := 36;
     raw_hist_c := []; raw_hist_t := [] |}.

Definition sample_table : dict Z region :=
  [(0, sample_region 0 0 10 10 50 7);
   (1, sample_region 5 5 15 15 40 8);
   (2, sample_region 8 8 20 20 30 9)].

(** The similarities of the three pairs, all of them neighbours. *)
Definition sample_state : state :=
  (initial_state sample_table 400 default_config).1.

Definition state_after (max_region_size : Z) (st : state) : state :=
  match merge_step max_region_size 400 st with
  | inr st' => st'
  | inl _ => st
  end.

Definition sample_state_1 : state := state_after 3000 sample_state.
Definition sample_state_2 : state := state_after 3000 sample_state_1.

(** Six regions of a 64 x 64 image.  The regions 0 to 3 overlap in a chain
    and the regions 4 and 5 overlap each other, which gives the
    similarities (0, 1), (1, 2), (2, 3) and (4, 5); the histograms make
    (2, 3) the pair of the highest score, then (4, 5), then (0, 1). *)
Definition chain_region (x0 y0 x1 y1 sz l : Z) (hc ht : list Q) : region :=
  {| min_x := x0; min_y := y0; max_x := x1; max_y := y1;
     og_min_x := x0; og_min_y := y0; og_max_x := x1; og_max_y := y1;
     size := sz; hist_c := hc; hist_t := ht; labels := [l];
     bbox_size := (x1 - x0) * (y1 - y0) |}.

Definition chain_table : dict Z region :=
  [(0, chain_region 0 0 10 10 50 10 [1%Q; 0%Q] [1%Q; 0%Q]);
   (1, chain_region 5 5 15 15 40 11 [0%Q; 1%Q] [1%Q; 0%Q]);
   (2, chain_region 12 12 30 30 30 12 [0%Q; 1%Q] [0%Q; 1%Q]);
   (3, chain_region 20 20 40 40 30 13 [0%Q; 1%Q] [0%Q; 1%Q]);
   (4, chain_region 50 0 60 10 20 14 [1%Q; 0%Q] [0%Q; 1%Q]);
   (5, chain_region 55 5 63 12 20 15 [0%Q; 1%Q] [0%Q; 1%Q])].

Definition chain_state : state :=
  (initial_state chain_table 4096 default_config).1.

(** The states after one and after two iterations under a cap of 500. *)
Definition chain_after (st : state) : state :=
  match merge_step 500 4096 st with
  | inr st' => st'
  | inl _ => st
  end.

Definition chain_state_1 : state := chain_after chain_state.
Definition chain_state_2 : state := chain_after chain_state_1.

(** A 4 x 4 image of three segments: the labels 0 and 1 on two pixels
    each, of bboxes (0, 0, 2, 2) and (1, 1, 3, 3), and the label 2 on the
    rest. *)
Definition sample_mask : list (list Z) :=
  [[0; 2; 2; 2]; [2; 1; 2; 2]; [2; 2; 0; 2]; [2; 2; 2; 1]].

Definition sample_image : image :=
  {| shape := [4; 4; 3];
     data := replicate 4 (replicate 4 [0%Q; 0%Q; 0%Q]) |}.

Definition grey_image : image :=
  {| shape := [4; 4; 1]; data := replicate 4 (replicate 4 [0%Q]) |}.

(** An array of four dimensions whose third is 3, as a stack of two
    frames gives. *)
Definition stacked_image : image :=
  {| shape := [4; 4; 3; 2];
     data := replicate 4 (replicate 4 [0%Q; 0%Q; 0%Q]) |}.

Definition sample_felzenszwalb (im : image) (scale sigma : Q) (min_size : Z)
    : list (list Z) := sample_mask.

Definition sample_rgb2hsv (im : image) : list (list pixel3) :=
  replicate 4 (replicate 4 (0, 0, 0)%Q).

Definition sample_local_binary_pattern (im : image) (c : nat)
    : list (list Q) := replicate 4 (replicate 4 0%Q).

Definition sample_config : config :=
  {| scale := 1; sigma := 8 # 10; min_size := 50; region_pop := false;
     max_region_size := 3000; border := 0 |}.

(** ** The self-check of the neighbour graph *)

(** The loop that ends [_extract_neighbours]: for every position without a
    neighbour, [assert R[i] not in [b for (a, b) in neighbours]].  The items
    are pairs of a key and a region object; pairs of different keys are
    unequal, and the pairs of one key are one and the same object of a
    dictionary, so an item is found when its key is. *)
Definition check_neighbours_mask (R : list item)
    (neighbours : list (item * item)) (neighbours_mask : list bool)
    : result unit :=
  foldM
    (fun (_ : unit) (im : nat * bool) =>
       if im.2 then ret tt
       else
         let* x := of_option IndexError (R !! im.1) in
         if bool_decide (x.1 ∈ map (fun ab => ab.2.1) neighbours)
         then raise AssertionError
         else ret tt)
    (enumerate neighbours_mask) tt.

Definition neighbours_self_check (regions : dict Z region) : result unit :=
  let nm := _extract_neighbours regions in
  check_neighbours_mask regions nm.1 nm.2.

(** No similarity joins a region to itself, and none is the reverse of
    another. *)
Definition no_reverse (S : dict edge Q) : Prop :=
  forall k, k ∈ dict_keys S -> k.1 <> k.2 /\ (k.2, k.1) ∉ dict_keys S.

(** A state whose one similarity names the region 5, which the table does
    not hold. *)
Definition dangling_state : state :=
  {| st_R := [(0, sample_region 0 0 10 10 50 7)];
     st_S := [((0, 5), 1%Q)] |}.

(** ** Regions within the image, and the pixels of a mask *)

Definition within_image (x_lim y_lim : Z) (r : region) : Prop :=
  0 <= min_x r /\ 0 <= min_y r /\ max_x r <= x_lim /\ max_y r <= y_lim.

(** The pixels of a mask as [(x, y, l)], in the order the first pass of
    [_extract_regions] visits them. *)
Definition mask_pixels (mask : list (list Z)) : list (Z * Z * Z) :=
  flat_map
    (fun yi => map (fun xl => (Z.of_nat xl.1, Z.of_nat yi.1, xl.2))
                   (enumerate yi.2))
    (enumerate mask).

(** The coordinates of the pixels of label [l]. *)
Definition xs_of (l : Z) (ps : list (Z * Z * Z)) : list Z :=
  map (fun p => p.1.1) (List.filter (fun p => bool_decide (p.2 = l)) ps).

Definition ys_of (l : Z) (ps : list (Z * Z * Z)) : list Z :=
  map (fun p => p.1.2) (List.filter (fun p => bool_decide (p.2 = l)) ps).

(** The entry that the first pass holds for the label [l] once it has
    visited the pixels [ps], some of them of label [l]. *)
Definition label_bbox (l : Z) (ps : list (Z * Z * Z)) : bbox_rec :=
  let mnx := foldr Z.min 65535 (xs_of l ps) in
  let mny := foldr Z.min 65535 (ys_of l ps) in
  let mxx := foldr Z.max 0 (xs_of l ps) in
  let mxy := foldr Z.max 0 (ys_of l ps) in
  {| b_min_x := mnx; b_min_y := mny; b_max_x := mxx; b_max_y := mxy;
     b_labels := [l]; b_bbox_size := (mxx - mnx) * (mxy - mny) |}.

(** The sample configuration with [region_pop] and a cap of 120. *)
Definition pop_config : config :=
  {| scale := 1; sigma := 8 # 10; min_size := 50; region_pop := true;
     max_region_size := 120; border := 10 |}.

(** What [selective_search] returns on the sample image. *)
Definition sample_output : output :=
  match (selective_search sample_felzenszwalb sample_rgb2hsv
           sample_local_binary_pattern sample_image sample_config []).2 with
  | inr out => out
  | inl _ => ({| lab_shape := []; lab_orig := sample_image; lab_mask := [] |},
              [], [])
  end.

(** * Properties *)

(** ** Dictionaries *)

Section DictFacts.
Context {K V : Type} `{EqDecision K}.
Implicit Types (d : dict K V) (k : K) (v : V).

Lemma dict_get_Some_elem d k v : dict_get d k = Some v -> (k, v) ∈ d.
Proof.
  induction d as [|[k' v'] d IH]; simpl; [done|].
  case_decide; intros ?; simplify_eq; [left | right; auto].
Qed.

Lemma dict_get_is_Some d k : is_Some (dict_get d k) <-> k ∈ dict_keys d.
Proof.
  induction d as [|[k' v'] d IH]; simpl.
  - split; [intros [? ?]; done | intros ?%elem_of_nil; done].
  - case_decide; subst.
    + split; [intros _; left | eauto].
    + rewrite IH, elem_of_cons. split; [by right | by intros [?|?]].
Qed.

Lemma dict_get_None d k : dict_get d k = None <-> k ∉ dict_keys d.
Proof. rewrite <- dict_get_is_Some, eq_None_not_Some. done. Qed.

Lemma dict_set_fresh d k v : k ∉ dict_keys d -> dict_set d k v = d ++ [(k, v)].
Proof.
  induction d as [|[k' v'] d IH]; simpl; [done|].
  rewrite not_elem_of_cons. intros [? ?].
  case_decide; [congruence|]. by rewrite IH.
Qed.

Lemma dict_keys_set d k v :
  dict_keys (dict_set d k v)
  = if decide (k ∈ dict_keys d) then dict_keys d else dict_keys d ++ [k].
Proof.
  induction d as [|[k' v'] d IH]; simpl.
  { destruct (decide (k ∈ [])) as [?%elem_of_nil|]; done. }
  destruct (decide (k' = k)) as [->|Hne]; simpl.
  - rewrite decide_True; [done | left].
  - rewrite IH. destruct (decide (k ∈ dict_keys d)).
    + rewrite decide_True; [done | by right].
    + rewrite decide_False; [done|].
      rewrite elem_of_cons. by intros [?|?].
Qed.

Lemma elem_of_dict_keys_set d k v k' :
  k' ∈ dict_keys (dict_set d k v) <-> k' = k \/ k' ∈ dict_keys d.
Proof.
  rewrite dict_keys_set.
  destruct (decide (k ∈ dict_keys d)) as [Hin|Hout].
  - split; [by right | by intros [->|?]].
  - rewrite elem_of_app, list_elem_of_singleton. tauto.
Qed.

Lemma dict_get_set_eq d k v : dict_get (dict_set d k v) k = Some v.
Proof.
  induction d as [|[k' v'] d IH]; simpl.
  - by rewrite decide_True.
  - destruct (decide (k' = k)) as [->|Hne]; simpl.
    + by rewrite decide_True.
    + by rewrite decide_False.
Qed.

Lemma dict_get_set_ne d k v k' :
  k <> k' -> dict_get (dict_set d k v) k' = dict_get d k'.
Proof.
  intros Hne. induction d as [|[k0 v0] d IH]; simpl.
  - by rewrite decide_False.
  - destruct (decide (k0 = k)) as [->|Hne0]; simpl.
    + by rewrite !decide_False.
    + by rewrite IH.
Qed.

Lemma length_dict_set d k v : (length (dict_set d k v) <= S (length d))%nat.
Proof.
  induction d as [|[k' v'] d IH]; simpl; [lia|].
  case_decide; simpl; lia.
Qed.

Lemma dict_keys_del d k :
  dict_keys (dict_del d k)
  = List.filter (fun k' => negb (bool_decide (k' = k))) (dict_keys d).
Proof.
  unfold dict_del, dict_keys.
  induction d as [|[k' v'] d IH]; simpl; [done|].
  destruct (bool_decide (k' = k)); simpl; by rewrite IH.
Qed.

Lemma elem_of_dict_keys_del d k k' :
  k' ∈ dict_keys (dict_del d k) <-> k' <> k /\ k' ∈ dict_keys d.
Proof.
  rewrite dict_keys_del, !list_elem_of_In, filter_In, negb_true_iff,
    bool_decide_eq_false.
  tauto.
Qed.

Lemma elem_of_dict_keys_fold_del (ks : list K) d k' :
  k' ∈ dict_keys (fold_left dict_del ks d) <-> (k' ∉ ks) /\ (k' ∈ dict_keys d).
Proof.
  revert d. induction ks as [|k ks IH]; intros d; simpl.
  - rewrite elem_of_nil. tauto.
  - rewrite IH, elem_of_dict_keys_del, not_elem_of_cons. tauto.
Qed.
End DictFacts.

(** ** Size and labels of merged regions *)

Lemma total_size_app l1 l2 :
  total_size (l1 ++ l2) = total_size l1 + total_size l2.
Proof.
  unfold total_size. induction l1 as [|r l1 IH]; simpl; [done|].
  rewrite IH. lia.
Qed.

Lemma frontier_total_size t f :
  frontier t f -> total_size (map region_of f) = total_size (leaves t).
Proof.
  induction 1 as [t|a b fa fb _ IHa _ IHb].
  - induction t as [r|a IHa b IHb]; simpl.
    + done.
    + rewrite total_size_app, <- IHa, <- IHb. unfold total_size. simpl. lia.
  - simpl. rewrite map_app, !total_size_app. congruence.
Qed.

(** C3. The size of a merged region is the sum of the sizes of its two
    parents; hence over every frontier of a merge tree, and of a forest of
    merge trees, the sizes add up to the sizes of the leaves. *)
Theorem merge_size_conservation :
  (forall r1 r2, size (_merge_regions r1 r2) = size r1 + size r2)
  /\ (forall t f,
        frontier t f -> total_size (map region_of f) = total_size (leaves t))
  /\ (forall ts fs,
        Forall2 frontier ts fs ->
        total_size (map region_of (concat fs))
        = total_size (concat (map leaves ts))).
Proof.
  split; [done|]. split; [apply frontier_total_size|].
  induction 1 as [|t f ts fs Hf _ IH]; simpl; [done|].
  rewrite map_app, !total_size_app, IH.
  by rewrite (frontier_total_size t f).
Qed.

Lemma merge_size_conservation_witness :
  frontier sample_tree sample_cut
  /\ total_size (map region_of sample_cut) = total_size (leaves sample_tree).
Proof.
  assert (Hf : frontier sample_tree sample_cut).
  { apply (frontier_below _ _ [_] [_]); apply frontier_here. }
  split; [exact Hf|].
  exact (proj1 (proj2 merge_size_conservation) sample_tree sample_cut Hf).
Defined.

(** C4. The labels of a merged region, as a set, are the union of the label
    sets of its parents, so the label set of a region contains the label set
    of every region below it in the merge tree. *)
Theorem merge_labels_union :
  (forall r1 r2,
     label_set (_merge_regions r1 r2) = label_set r1 ∪ label_set r2)
  /\ (forall s t,
        subtree s t -> label_set (region_of s) ⊆ label_set (region_of t)).
Proof.
  assert (Hu : forall r1 r2,
             label_set (_merge_regions r1 r2) = label_set r1 ∪ label_set r2).
  { intros r1 r2. unfold label_set. simpl. apply list_to_set_app_L. }
  split; [exact Hu|].
  induction 1 as [|a b _ IH|a b _ IH]; simpl.
  - done.
  - rewrite Hu. etrans; [exact IH | apply union_subseteq_l].
  - rewrite Hu. etrans; [exact IH | apply union_subseteq_r].
Qed.

Lemma merge_labels_union_witness :
  subtree (Leaf (sample_region 5 5 15 15 40 8)) sample_tree
  /\ label_set (region_of (Leaf (sample_region 5 5 15 15 40 8)))
     ⊆ label_set (region_of sample_tree).
Proof.
  assert (Hs : subtree (Leaf (sample_region 5 5 15 15 40 8)) sample_tree).
  { apply subtree_left, subtree_right, subtree_refl. }
  split; [exact Hs|].
  exact (proj2 merge_labels_union _ _ Hs).
Defined.

(** ** The bbox area field *)

Lemma merge_regions_bbox_size r1 r2 :
  bbox_size (_merge_regions r1 r2) = bbox_area (_merge_regions r1 r2).
Proof. reflexivity. Qed.

Lemma expand_region_bbox_size r border x_lim y_lim :
  bbox_size (expand_region r border x_lim y_lim)
  = (raw_max_x r - raw_min_x r) * (raw_max_y r - raw_min_y r).
Proof. reflexivity. Qed.

(** C2, at an input where it fails.  The table made of the one region of
    bbox (5, 5, 10, 10) is expanded with a border of 10 inside a 100 x 100
    image: the expanded bbox is (0, 0, 20, 20), of area 400, and the
    [bbox_size] field is 25, the area before the expansion. *)
Theorem expand_regions_bbox_size_stale :
  exists r,
    dict_get (_expand_regions [(7, sample_raw)] 10 100 100) 0 = Some r
    /\ (min_x r, min_y r, max_x r, max_y r) = (0, 0, 20, 20)
    /\ bbox_area r = 400
    /\ bbox_size r = 25.
Proof. eexists. repeat split. Qed.

(** ** The corner test of the neighbour graph *)

Lemma between_spec lo v hi : between lo v hi = true <-> lo < v < hi.
Proof. unfold between. rewrite andb_true_iff, !Z.ltb_lt. tauto. Qed.

(** A corner of [b] is inside [a] when an x edge of [b] is inside the x
    extent of [a] and a y edge of [b] is inside the y extent of [a]. *)
Lemma intersect_spec a b :
  intersect a b = true
  <-> (min_x a < min_x b < max_x a \/ min_x a < max_x b < max_x a)
      /\ (min_y a < min_y b < max_y a \/ min_y a < max_y b < max_y a).
Proof.
  unfold intersect.
  rewrite !orb_true_iff, !andb_true_iff, !between_spec. tauto.
Qed.

(** C7, as stated, fails: a box that lies inside another one has a corner
    inside it, and the outer box has no corner inside the inner one. *)
Lemma intersect_not_symmetric :
  ~ (forall a b,
       well_formed_bbox a -> well_formed_bbox b ->
       intersect a b = intersect b a).
Proof.
  intros H.
  specialize (H (sample_region 0 0 10 10 50 7) (sample_region 2 2 3 3 1 8)).
  discriminate H; unfold well_formed_bbox; simpl; lia.
Qed.

(** C7, amended.  The test is symmetric on the pairs of well-formed boxes of
    which neither x extent contains the other and neither y extent contains
    the other. *)
Theorem intersect_symmetric_not_nested a b :
  well_formed_bbox a -> well_formed_bbox b ->
  not_nested (min_x a) (max_x a) (min_x b) (max_x b) ->
  not_nested (min_y a) (max_y a) (min_y b) (max_y b) ->
  intersect a b = intersect b a.
Proof.
  unfold well_formed_bbox, not_nested. intros Ha Hb Hx Hy.
  apply eq_true_iff_eq. rewrite !intersect_spec. lia.
Qed.

Lemma intersect_symmetric_not_nested_witness :
  intersect (sample_region 0 0 10 10 50 7) (sample_region 5 5 15 15 40 8)
  = intersect (sample_region 5 5 15 15 40 8) (sample_region 0 0 10 10 50 7).
Proof.
  apply intersect_symmetric_not_nested;
    unfold well_formed_bbox, not_nested; simpl; lia.
Defined.

(** ** Selecting the highest similarity *)

Lemma insert_by_score_perm x l : Permutation (insert_by_score x l) (x :: l).
Proof.
  induction l as [|y l IH]; simpl; [done|].
  destruct (Qle_bool x.2 y.2); [done|].
  rewrite IH. apply perm_swap.
Qed.

Lemma sorted_by_score_perm l : Permutation (sorted_by_score l) l.
Proof.
  induction l as [|x l IH]; simpl; [done|].
  by rewrite insert_by_score_perm, IH.
Qed.

Lemma select_edge_elem S e : select_edge S = inr e -> e ∈ dict_keys S.
Proof.
  unfold select_edge.
  destruct (last (sorted_by_score S)) as [kv|] eqn:Hl; simpl; [|done].
  intros [= <-]. apply last_Some_elem_of in Hl.
  rewrite (sorted_by_score_perm S) in Hl.
  unfold dict_keys. by apply list_elem_of_fmap_2.
Qed.

Lemma select_edge_nonempty S : S <> [] -> exists e, select_edge S = inr e.
Proof.
  intros HS. unfold select_edge.
  destruct (last (sorted_by_score S)) as [kv|] eqn:Hl; simpl; [eauto|].
  apply last_None in Hl. destruct HS.
  apply Permutation_nil. by rewrite <- Hl, sorted_by_score_perm.
Qed.

Lemma select_edge_inv S e : select_edge S = inr e -> S <> [].
Proof. intros He%select_edge_elem ->. by apply elem_of_nil in He. Qed.

(** ** Fresh ids *)

Lemma fold_left_max_le (ks : list Z) k0 :
  k0 <= fold_left Z.max ks k0
  /\ forall k, k ∈ ks -> k <= fold_left Z.max ks k0.
Proof.
  revert k0. induction ks as [|k1 ks IH]; intros k0; simpl.
  - split; [lia | by intros ? ?%elem_of_nil].
  - destruct (IH (Z.max k0 k1)) as [H0 H1]. split; [lia|].
    intros k [->|Hk]%elem_of_cons; [lia | auto].
Qed.

Lemma max_key_bound {V} (R : dict Z V) m k :
  max_key R = inr m -> k ∈ dict_keys R -> k <= m.
Proof.
  unfold max_key. destruct (dict_keys R) as [|k0 ks]; [done|].
  destruct (fold_left_max_le ks k0) as [H0 H1].
  intros [= <-] [->|Hk]%elem_of_cons; [exact H0 | by apply H1].
Qed.

Lemma max_key_fresh {V} (R : dict Z V) m :
  max_key R = inr m -> m + 1 ∉ dict_keys R.
Proof. intros Hm Hin. pose proof (max_key_bound R m _ Hm Hin). lia. Qed.

Lemma max_key_nonempty {V} (R : dict Z V) :
  R <> [] -> exists m, max_key R = inr m.
Proof. unfold max_key. destruct R as [|[k v] R]; [done | simpl; eauto]. Qed.

(** ** One iteration of the merge loop *)

Section MergeFacts.
Variable max_region_size : Z.
Variable imsize : Z.

Abbreviation merge_step := (merge_step max_region_size imsize).
Abbreviation merge_loop := (merge_loop max_region_size imsize).
Abbreviation reaches := (reaches max_region_size imsize).

Lemma merge_step_inv st st' :
  merge_step st = inr st' -> step_data max_region_size imsize st st'.
Proof.
  unfold merge_step.
  destruct (select_edge (st_S st)) as [|[i j]] eqn:Hsel; cbn [bind]; [done|].
  cbn [fst snd]. unfold merge_at.
  destruct (max_key (st_R st)) as [|m] eqn:Hmax; cbn [bind]; [done|].
  destruct (dict_get (st_R st) i) as [ri|] eqn:Hi; cbn [bind of_option]; [|done].
  destruct (dict_get (st_R st) j) as [rj|] eqn:Hj; cbn [bind of_option]; [|done].
  rewrite dict_get_set_eq. cbn [bind of_option].
  pose proof (dict_set_fresh (st_R st) (m + 1) (_merge_regions ri rj)
                (max_key_fresh _ _ Hmax)) as Hfresh.
  destruct (max_region_size <? bbox_size (_merge_regions ri rj)) eqn:Hcap.
  - intros [= <-].
    apply (StepData _ _ _ _ i j m ri rj); cbn [st_R st_S]; [done..|].
    by rewrite Hcap.
  - destruct (foldM _ _ _) as [|S'] eqn:Hfold; cbn [bind]; [done|].
    intros [= <-].
    apply (StepData _ _ _ _ i j m ri rj); cbn [st_R st_S]; [done..|].
    rewrite Hcap. exact Hfold.
Qed.
End MergeFacts.

(** ** Removing and inserting similarities *)

Lemma fold_del_cons {V} (ks : list edge) (kv : edge * V) (S : dict edge V) :
  fold_left dict_del ks (kv :: S)
  = if bool_decide (kv.1 ∈ ks) then fold_left dict_del ks S
    else kv :: fold_left dict_del ks S.
Proof.
  revert kv S. induction ks as [|k ks IH]; intros kv S; [done|].
  cbn [fold_left].
  assert (dict_del (kv :: S) k
          = if bool_decide (kv.1 = k) then dict_del S k
            else kv :: dict_del S k) as ->.
  { unfold dict_del. simpl. by destruct (bool_decide (kv.1 = k)). }
  destruct (decide (kv.1 = k)) as [Heq|Hne].
  - rewrite (bool_decide_eq_true_2 _ Heq).
    rewrite bool_decide_eq_true_2; [done | rewrite Heq; left].
  - rewrite (bool_decide_eq_false_2 _ Hne), IH.
    rewrite (bool_decide_ext (kv.1 ∈ k :: ks) (kv.1 ∈ ks)); [done|].
    rewrite elem_of_cons. tauto.
Qed.

Lemma fold_del_filter {V} (ks : list edge) (S : dict edge V) :
  fold_left dict_del ks S
  = List.filter (fun kv => negb (bool_decide (kv.1 ∈ ks))) S.
Proof.
  induction S as [|kv S IH]; simpl.
  - induction ks as [|k ks IHk]; simpl; [done | exact IHk].
  - rewrite fold_del_cons, IH. by destruct (bool_decide (kv.1 ∈ ks)).
Qed.

Lemma elem_of_stale_keys i j (S : dict edge Q) k :
  k ∈ stale_keys i j S <-> (touches i k || touches j k = true) /\ k ∈ dict_keys S.
Proof. unfold stale_keys. rewrite !list_elem_of_In, filter_In. tauto. Qed.

(** The similarities that survive are those that touch neither [i] nor
    [j]. *)
Lemma fold_del_stale i j (S : dict edge Q) :
  fold_left dict_del (stale_keys i j S) S
  = List.filter (fun kv => negb (touches i kv.1 || touches j kv.1)) S.
Proof.
  rewrite fold_del_filter. apply List.filter_ext_in. intros kv Hkv.
  f_equal. destruct (touches i kv.1 || touches j kv.1) eqn:Ht.
  - apply bool_decide_eq_true_2, elem_of_stale_keys. split; [done|].
    unfold dict_keys. apply list_elem_of_In in Hkv.
    by apply list_elem_of_fmap_2.
  - apply bool_decide_eq_false_2. rewrite elem_of_stale_keys, Ht.
    by intros [? _].
Qed.

Lemma length_stale_keys i j (S : dict edge Q) :
  (length (fold_left dict_del (stale_keys i j S) S)
   + length (stale_keys i j S) = length S)%nat.
Proof.
  rewrite fold_del_stale. unfold stale_keys, dict_keys.
  induction S as [|kv S IH]; simpl; [done|].
  destruct (touches i kv.1 || touches j kv.1); simpl; lia.
Qed.

Lemma length_carried_keys i j (ks : list edge) :
  (i, j) ∈ ks -> (length (carried_keys i j ks) < length ks)%nat.
Proof.
  unfold carried_keys. induction ks as [|k ks IH]; simpl.
  - by intros ?%elem_of_nil.
  - intros Hin. destruct (decide (k = (i, j))) as [->|Hne].
    + rewrite bool_decide_eq_true_2 by done. simpl.
      apply Nat.lt_succ_r, List.filter_length_le.
    + rewrite bool_decide_eq_false_2 by done. simpl.
      apply elem_of_cons in Hin as [?|Hin]; [done|].
      apply -> Nat.succ_lt_mono. by apply IH.
Qed.

Lemma selected_is_stale i j (S : dict edge Q) :
  select_edge S = inr (i, j) -> (i, j) ∈ stale_keys i j S.
Proof.
  intros Hsel%select_edge_elem. apply elem_of_stale_keys. split; [|done].
  unfold touches. simpl. by rewrite bool_decide_eq_true_2.
Qed.

Section InsertFacts.
Variable imsize : Z.
Variables (R : dict Z region) (t i j : Z).

Lemma foldM_add_similarity_length ks S S' :
  foldM (add_similarity imsize R t i j) ks S = inr S' ->
  (length S' <= length S + length ks)%nat.
Proof.
  revert S. induction ks as [|k ks IH]; intros S; simpl.
  - intros [= <-]. lia.
  - unfold add_similarity at 1.
    destruct (dict_get R t) as [rt|]; cbn [bind of_option]; [|done].
    destruct (dict_get R (other_end i j k)) as [rn|];
      cbn [bind of_option ret]; [|done].
    intros HS'%IH.
    pose proof (length_dict_set S (t, other_end i j k)
                  (_calc_sim rt rn imsize)).
    lia.
Qed.

(** The keys after the insertions: the old ones, and [(t, n)] for the
    other end [n] of a carried key. *)
Lemma foldM_add_similarity_keys ks S S' e :
  foldM (add_similarity imsize R t i j) ks S = inr S' ->
  e ∈ dict_keys S' ->
  e ∈ dict_keys S \/ exists k, k ∈ ks /\ e = (t, other_end i j k).
Proof.
  revert S. induction ks as [|k ks IH]; intros S; simpl.
  - intros [= <-]. by left.
  - unfold add_similarity at 1.
    destruct (dict_get R t) as [rt|]; cbn [bind of_option]; [|done].
    destruct (dict_get R (other_end i j k)) as [rn|];
      cbn [bind of_option ret]; [|done].
    intros HS' He. destruct (IH _ HS' He) as [Hin|(k' & Hk' & ->)].
    + apply elem_of_dict_keys_set in Hin as [->|Hin]; [|by left].
      right. exists k. split; [left | done].
    + right. exists k'. split; [by right | done].
Qed.

Lemma foldM_add_similarity_ok ks S :
  t ∈ dict_keys R ->
  (forall k, k ∈ ks -> other_end i j k ∈ dict_keys R) ->
  exists S', foldM (add_similarity imsize R t i j) ks S = inr S'.
Proof.
  intros Ht. revert S. induction ks as [|k ks IH]; intros S Hks; simpl.
  - by eexists.
  - unfold add_similarity at 1.
    apply dict_get_is_Some in Ht as [rt Hrt]. rewrite Hrt.
    destruct (proj2 (dict_get_is_Some R (other_end i j k))) as [rn Hrn].
    { apply Hks. left. }
    rewrite Hrn. cbn [bind of_option ret].
    apply IH. intros k' Hk'. apply Hks. by right.
Qed.
End InsertFacts.

(** ** Termination of the merge loop *)

Section Termination.
Variable max_region_size : Z.
Variable imsize : Z.

Lemma merge_step_length st st' :
  merge_step max_region_size imsize st = inr st' ->
  (length (st_S st') < length (st_S st))%nat.
Proof.
  intros [i j m ri rj Hsel _ _ _ _ HS]%merge_step_inv.
  pose proof (length_stale_keys i j (st_S st)) as Hdel.
  pose proof (length_carried_keys i j _ (selected_is_stale _ _ _ Hsel)) as Hc.
  destruct (max_region_size <? bbox_size (_merge_regions ri rj)).
  - rewrite HS. lia.
  - apply foldM_add_similarity_length in HS. lia.
Qed.

Lemma merge_loop_enough_fuel fuel st :
  (length (st_S st) <= fuel)%nat ->
  exists r, merge_loop max_region_size imsize fuel st = Some r.
Proof.
  revert st. induction fuel as [|fuel IH]; intros st Hlen.
  - destruct st as [R [|kv S]]; simpl in *; [eauto | lia].
  - destruct st as [R [|kv S]] eqn:Hst; simpl; [eauto|].
    rewrite <- Hst.
    destruct (merge_step max_region_size imsize st) as [e|st'] eqn:Hstep;
      [eauto|].
    apply IH. apply merge_step_length in Hstep.
    subst st. simpl in *. lia.
Qed.

(** C5. An iteration of the merge loop removes more similarities than it
    inserts and leaves fewer similarities than it found, so the loop, run
    from any table and any set of similarities, comes to an end: with one
    unit of fuel per similarity it returns. *)
Theorem merge_loop_terminates :
  (forall S i j,
     select_edge S = inr (i, j) ->
     (length (carried_keys i j (stale_keys i j S))
      < length (stale_keys i j S))%nat)
  /\ (forall st st',
        merge_step max_region_size imsize st = inr st' ->
        (length (st_S st') < length (st_S st))%nat)
  /\ (forall st,
        exists r, hierarchical_search max_region_size imsize st = Some r).
Proof.
  split; [|split].
  - intros S i j Hsel.
    apply length_carried_keys, selected_is_stale, Hsel.
  - apply merge_step_length.
  - intros st. by apply merge_loop_enough_fuel.
Qed.
End Termination.

(** ** Invariants of the merge loop *)

Lemma touches_false t k : touches t k = false <-> t <> k.1 /\ t <> k.2.
Proof.
  unfold touches. rewrite orb_false_iff, !bool_decide_eq_false. tauto.
Qed.

Lemma other_end_cases i j k : other_end i j k = k.1 \/ other_end i j k = k.2.
Proof. unfold other_end. destruct (_ || _); auto. Qed.

Lemma elem_of_carried_keys i j ks k : k ∈ carried_keys i j ks -> k ∈ ks.
Proof. unfold carried_keys. rewrite !list_elem_of_In, filter_In. tauto. Qed.

Lemma dict_keys_app {K V} (d1 d2 : dict K V) :
  dict_keys (d1 ++ d2) = dict_keys d1 ++ dict_keys d2.
Proof. unfold dict_keys. apply map_app. Qed.

Lemma dict_get_app_l {K V} `{EqDecision K} (d1 d2 : dict K V) k v :
  dict_get d1 k = Some v -> dict_get (d1 ++ d2) k = Some v.
Proof.
  induction d1 as [|[k' v'] d1 IH]; simpl; [done|].
  case_decide; auto.
Qed.

Lemma dict_get_app_r {K V} `{EqDecision K} (d1 d2 : dict K V) k :
  k ∉ dict_keys d1 -> dict_get (d1 ++ d2) k = dict_get d2 k.
Proof.
  induction d1 as [|[k' v'] d1 IH]; simpl; [done|].
  rewrite not_elem_of_cons. intros [? ?]. case_decide; [congruence | auto].
Qed.

Lemma dict_keys_filter_subseteq {K V} (f : K * V -> bool) (d : dict K V) k :
  k ∈ dict_keys (List.filter f d) -> k ∈ dict_keys d.
Proof.
  unfold dict_keys. rewrite !list_elem_of_fmap.
  intros (kv & -> & Hkv). exists kv. split; [done|].
  apply list_elem_of_In in Hkv. apply filter_In in Hkv as [Hkv _].
  by apply list_elem_of_In.
Qed.

Section Invariants.
Variable max_region_size : Z.
Variable imsize : Z.

Abbreviation step := (merge_step max_region_size imsize).
Abbreviation reach := (reaches max_region_size imsize).

(** The keys of the similarities after an iteration that selected
    [(i, j)] and made the region [t]. *)
Lemma step_keys st st' k :
  step st = inr st' -> k ∈ dict_keys (st_S st') ->
  (k ∈ dict_keys (st_S st))
  \/ exists m k0,
       max_key (st_R st) = inr m /\ k0 ∈ dict_keys (st_S st)
       /\ k.1 = m + 1 /\ (k.2 = k0.1 \/ k.2 = k0.2).
Proof.
  intros [i j m ri rj Hsel Hmax _ _ _ HS]%merge_step_inv Hk.
  destruct (max_region_size <? bbox_size (_merge_regions ri rj)).
  - rewrite HS, fold_del_stale in Hk.
    left. by eapply dict_keys_filter_subseteq.
  - destruct (foldM_add_similarity_keys _ _ _ _ _ _ _ _ _ HS Hk)
      as [Hin|(k0 & Hk0 & ->)].
    + rewrite fold_del_stale in Hin.
      left. by eapply dict_keys_filter_subseteq.
    + right. exists m, k0.
      apply elem_of_carried_keys, elem_of_stale_keys in Hk0 as [_ Hk0].
      split; [done|]. split; [done|]. split; [done|].
      apply other_end_cases.
Qed.

Lemma step_table st st' :
  step st = inr st' ->
  exists m r, max_key (st_R st) = inr m /\ st_R st' = st_R st ++ [(m + 1, r)].
Proof. intros [i j m ri rj _ Hmax _ _ HR _]%merge_step_inv. eauto. Qed.

Lemma step_edges_in_table st st' :
  edges_in_table st -> step st = inr st' -> edges_in_table st'.
Proof.
  intros Hinv Hstep k Hk.
  destruct (step_table _ _ Hstep) as (m & r & Hmax & HR).
  rewrite HR, dict_keys_app, !elem_of_app. simpl.
  destruct (step_keys _ _ _ Hstep Hk) as [Hin|(m' & k0 & Hm' & Hk0 & H1 & H2)].
  - destruct (Hinv _ Hin). auto.
  - assert (m' = m) as -> by congruence.
    destruct (Hinv _ Hk0) as [? ?]. split.
    + right. rewrite H1. left.
    + left. by destruct H2 as [-> | ->].
Qed.

Lemma step_ok st :
  edges_in_table st -> st_S st <> [] -> exists st', step st = inr st'.
Proof.
  intros Hinv HS. unfold merge_step.
  destruct (select_edge_nonempty _ HS) as [[i j] Hsel]. rewrite Hsel.
  cbn [bind fst snd]. unfold merge_at.
  destruct (Hinv _ (select_edge_elem _ _ Hsel)) as [Hi Hj]. simpl in Hi, Hj.
  destruct (max_key_nonempty (st_R st)) as [m Hmax].
  { intros HR. rewrite HR in Hi. by apply elem_of_nil in Hi. }
  rewrite Hmax. cbn [bind].
  apply dict_get_is_Some in Hi as [ri Hri].
  apply dict_get_is_Some in Hj as [rj Hrj].
  rewrite Hri, Hrj. cbn [bind of_option].
  rewrite dict_get_set_eq. cbn [bind of_option].
  destruct (max_region_size <? bbox_size (_merge_regions ri rj)); [eauto|].
  destruct (foldM_add_similarity_ok imsize
              (dict_set (st_R st) (m + 1) (_merge_regions ri rj)) (m + 1) i j
              (carried_keys i j (stale_keys i j (st_S st)))
              (fold_left dict_del (stale_keys i j (st_S st)) (st_S st)))
    as [S' HS'].
  - apply elem_of_dict_keys_set. by left.
  - intros k Hk. apply elem_of_dict_keys_set. right.
    apply elem_of_carried_keys, elem_of_stale_keys in Hk as [_ Hk].
    destruct (Hinv _ Hk) as [? ?].
    by destruct (other_end_cases i j k) as [-> | ->].
  - rewrite HS'. cbn [bind]. eauto.
Qed.

Lemma reach_edges_in_table st st' :
  edges_in_table st -> reach st st' -> edges_in_table st'.
Proof.
  intros Hinv Hreach. induction Hreach as [|st st1 st2 [_ Hstep] _ IH]; [done|].
  apply IH. by eapply step_edges_in_table.
Qed.

(** The table only grows, at its end. *)
Lemma reach_table st st' :
  reach st st' -> exists ext, st_R st' = st_R st ++ ext.
Proof.
  induction 1 as [st|st st1 st2 [_ Hstep] _ [ext IH]].
  - exists []. by rewrite app_nil_r.
  - destruct (step_table _ _ Hstep) as (m & r & _ & HR).
    exists ((m + 1, r) :: ext). rewrite IH, HR. by rewrite <- app_assoc.
Qed.

Lemma reach_dict_get st st' k r :
  reach st st' -> dict_get (st_R st) k = Some r ->
  dict_get (st_R st') k = Some r.
Proof.
  intros [ext ->]%reach_table Hk. by apply dict_get_app_l.
Qed.

Lemma step_untouched st st' t :
  t ∈ dict_keys (st_R st) -> untouched t (st_S st) ->
  step st = inr st' -> untouched t (st_S st').
Proof.
  intros Ht Hun Hstep k Hk.
  destruct (step_keys _ _ _ Hstep Hk) as [Hin|(m & k0 & Hm & Hk0 & H1 & H2)].
  - by apply Hun.
  - apply touches_false. specialize (Hun _ Hk0).
    apply touches_false in Hun as [? ?]. split.
    + rewrite H1. intros ->. by apply (max_key_fresh _ _ Hm).
    + by destruct H2 as [-> | ->].
Qed.

Lemma reach_untouched st st' t :
  t ∈ dict_keys (st_R st) -> untouched t (st_S st) ->
  reach st st' -> untouched t (st_S st').
Proof.
  intros Ht Hun Hreach.
  induction Hreach as [|st st1 st2 [_ Hstep] _ IH]; [done|].
  apply IH.
  - destruct (step_table _ _ Hstep) as (m & r & _ & ->).
    rewrite dict_keys_app, elem_of_app. by left.
  - by eapply step_untouched.
Qed.

(** The loop run from a state with the invariant ends in a state without
    similarities, and raises nothing. *)
Lemma merge_loop_ok fuel st :
  edges_in_table st -> (length (st_S st) <= fuel)%nat ->
  exists st',
    merge_loop max_region_size imsize fuel st = Some (inr st')
    /\ reach st st' /\ st_S st' = [].
Proof.
  revert st. induction fuel as [|fuel IH]; intros st Hinv Hlen.
  - destruct st as [R [|kv S]]; simpl in *; [|lia].
    eexists. split; [done|]. split; [apply rtc_refl | done].
  - destruct (st_S st) as [|kv S] eqn:HS.
    + exists st. simpl. rewrite HS. split; [done|].
      split; [apply rtc_refl | done].
    + destruct (step_ok st Hinv) as [st' Hstep]; [by rewrite HS|].
      pose proof (merge_step_length _ _ _ _ Hstep) as Hlt.
      destruct (IH st') as (st'' & Hloop & Hreach & Hnil).
      { by eapply step_edges_in_table. }
      { rewrite HS in Hlt. simpl in Hlt, Hlen. lia. }
      exists st''. simpl. rewrite HS, Hstep. split; [done|]. split; [|done].
      eapply rtc_l; [|exact Hreach]. split; [by rewrite HS | done].
Qed.
End Invariants.

(** ** The state the loop starts from *)

Lemma fold_left_invariant {A B} (P : A -> Prop) (f : A -> B -> A) l a :
  (forall acc x, x ∈ l -> P acc -> P (f acc x)) -> P a -> P (fold_left f l a).
Proof.
  revert a. induction l as [|x l IH]; intros a Hf Ha; simpl; [done|].
  apply IH.
  - intros acc y Hy. apply Hf. by right.
  - apply Hf; [left | done].
Qed.

Lemma elem_of_enumerate {A} (l : list A) (i : nat) (x : A) :
  (i, x) ∈ enumerate l -> x ∈ l.
Proof.
  unfold enumerate. intros Hin%list_elem_of_In.
  apply in_combine_r in Hin. by apply list_elem_of_In.
Qed.

Lemma elem_of_removelast {A} (l : list A) (x : A) : x ∈ removelast l -> x ∈ l.
Proof.
  induction l as [|y [|z l] IH]; simpl.
  - done.
  - by intros ?%elem_of_nil.
  - intros [->|Hin]%elem_of_cons; [left | right; auto].
Qed.

Lemma elem_of_drop {A} (n : nat) (l : list A) (x : A) : x ∈ drop n l -> x ∈ l.
Proof. rewrite <- (take_drop n l) at 2. rewrite elem_of_app. auto. Qed.

(** The neighbours are pairs of entries of the table. *)
Lemma extract_neighbours_elem (R : dict Z region) (a b : item) :
  (a, b) ∈ (_extract_neighbours R).1 -> a ∈ R /\ b ∈ R.
Proof.
  unfold _extract_neighbours.
  set (P := fun nm : list (item * item) * list bool =>
              forall a b, (a, b) ∈ nm.1 -> a ∈ R /\ b ∈ R).
  revert a b. change (P (fold_left
    (fun acc ca =>
       fold_left
         (fun nm cb =>
            if intersect ca.2.2 cb.2.2 then
              (nm.1 ++ [(ca.2, cb.2)],
               <[(ca.1 + cb.1 + 1)%nat := true]> (<[ca.1 := true]> nm.2))
            else nm)
         (enumerate (drop (ca.1 + 1) R)) acc)
    (enumerate (removelast R)) ([], replicate (length R) false))).
  apply fold_left_invariant.
  - intros acc [cur a] Ha%elem_of_enumerate%elem_of_removelast Hacc.
    apply fold_left_invariant; [|done].
    intros nm [cur2 b] Hb%elem_of_enumerate%elem_of_drop Hnm. simpl.
    destruct (intersect a.2 b.2); [|done].
    intros a' b'. simpl. rewrite elem_of_app, list_elem_of_singleton.
    intros [Hin|[= -> ->]]; [by apply Hnm | done].
  - intros a b. simpl. by intros ?%elem_of_nil.
Qed.

Lemma initial_similarities_keys (neighbours : list (item * item)) imsize k :
  k ∈ dict_keys (initial_similarities neighbours imsize) ->
  exists ab, ab ∈ neighbours /\ k = (ab.1.1, ab.2.1).
Proof.
  unfold initial_similarities.
  set (P := fun S : dict edge Q =>
              k ∈ dict_keys S -> exists ab, ab ∈ neighbours /\ k = (ab.1.1, ab.2.1)).
  change (P (fold_left
    (fun S ab => dict_set S (ab.1.1, ab.2.1) (_calc_sim ab.1.2 ab.2.2 imsize))
    neighbours [])).
  apply fold_left_invariant.
  - intros S ab Hab HS [->|Hin]%elem_of_dict_keys_set; [eauto | auto].
  - by intros ?%elem_of_nil.
Qed.

Lemma apply_region_pop_keys region_pop R S max_region_size k :
  k ∈ dict_keys (apply_region_pop region_pop R S max_region_size).1 ->
  k ∈ dict_keys S.
Proof.
  unfold apply_region_pop. destruct region_pop; simpl; [|done].
  rewrite fold_del_filter. apply dict_keys_filter_subseteq.
Qed.

(** Only regions of the table are flagged by [region_pop]. *)
Lemma apply_region_pop_flagged region_pop R S max_region_size t :
  t ∈ (apply_region_pop region_pop R S max_region_size).2 ->
  t ∈ dict_keys R /\ region_pop = true.
Proof.
  unfold apply_region_pop. destruct region_pop; simpl;
    [|by intros ?%elem_of_nil].
  intros Ht. split; [|done]. revert Ht. unfold pop_scan.
  set (P := fun acc : list edge * list Z => t ∈ acc.2 -> t ∈ dict_keys R).
  match goal with |- ?t ∈ (fold_left ?f ?l ?a).2 -> _ =>
    change (P (fold_left f l a)) end.
  apply fold_left_invariant.
  - intros acc [t' r'] Hin Hacc. simpl.
    destruct (max_region_size <? bbox_size r'); [|done].
    intros Ht. simpl in Ht. apply elem_of_app in Ht as [Ht|Ht]; [auto|].
    apply list_elem_of_singleton in Ht as ->.
    unfold dict_keys. by apply (list_elem_of_fmap_2 fst _ (t', r')).
  - by intros ?%elem_of_nil.
Qed.

Lemma initial_state_edges_in_table R imsize cfg :
  edges_in_table (initial_state R imsize cfg).1.
Proof.
  unfold initial_state, edges_in_table. simpl.
  intros k Hk%apply_region_pop_keys.
  apply initial_similarities_keys in Hk as ([a b] & Hab & ->).
  apply extract_neighbours_elem in Hab as [Ha Hb]. simpl.
  unfold dict_keys. split; by apply list_elem_of_fmap_2.
Qed.

(** ** Frozen regions and the proposals *)

Lemma elem_of_emitted (R : dict Z region) pop k r :
  (k, r) ∈ emitted R pop <-> (k, r) ∈ R /\ k ∉ pop.
Proof.
  unfold emitted.
  rewrite !list_elem_of_In, filter_In, <- !list_elem_of_In, negb_true_iff,
    bool_decide_eq_false.
  done.
Qed.

Lemma assemble_elem (R : dict Z region) pop k r :
  dict_get R k = Some r -> k ∉ pop -> proposal_of r ∈ assemble R pop.
Proof.
  intros Hk%dict_get_Some_elem Hpop. unfold assemble.
  apply (list_elem_of_fmap_2 (fun kr : item => proposal_of kr.2) _ (k, r)).
  by apply elem_of_emitted.
Qed.

Section Frozen.
Variable max_region_size : Z.
Variable imsize : Z.

(** C8. When the merge of [R[i]] and [R[j]] gives a region [t] whose
    [bbox_size] exceeds [max_region_size], the iteration inserts no
    similarity: it only removes the stale ones.  No similarity of any later
    state has [t] at an end, so [t] is never selected for a merge again.
    [t] stays in the table, and the proposals assembled from any later
    table, those that [selective_search] returns, hold its record with the
    merged geometry: the rect of the bbox that encloses the bboxes of
    [R[i]] and [R[j]], the [bbox_size] of that bbox, which is over the cap,
    the sum of the sizes and the labels of both. *)
Theorem frozen_region_stays_out st st1 st2 pop i j m ri rj :
  edges_in_table st ->
  (forall t, t ∈ pop -> t ∈ dict_keys (st_R st)) ->
  select_edge (st_S st) = inr (i, j) ->
  max_key (st_R st) = inr m ->
  dict_get (st_R st) i = Some ri ->
  dict_get (st_R st) j = Some rj ->
  merge_step max_region_size imsize st = inr st1 ->
  max_region_size < bbox_size (_merge_regions ri rj) ->
  reaches max_region_size imsize st1 st2 ->
  st_S st1 = fold_left dict_del (stale_keys i j (st_S st)) (st_S st)
  /\ untouched (m + 1) (st_S st2)
  /\ (forall e, select_edge (st_S st2) = inr e -> touches (m + 1) e = false)
  /\ dict_get (st_R st2) (m + 1) = Some (_merge_regions ri rj)
  /\ proposal_of (_merge_regions ri rj) ∈ assemble (st_R st2) pop
  /\ (exists p,
        p ∈ assemble (st_R st2) pop
        /\ (forall pr, pr_pop pr = pop -> p ∈ (finish pr st2).1.2)
        /\ rect p
           = (Z.min (min_x ri) (min_x rj), Z.min (min_y ri) (min_y rj),
              Z.max (max_x ri) (max_x rj) - Z.min (min_x ri) (min_x rj),
              Z.max (max_y ri) (max_y rj) - Z.min (min_y ri) (min_y rj))
        /\ prop_bbox_size p
           = (Z.max (max_x ri) (max_x rj) - Z.min (min_x ri) (min_x rj))
             * (Z.max (max_y ri) (max_y rj) - Z.min (min_y ri) (min_y rj))
        /\ max_region_size < prop_bbox_size p
        /\ prop_size p = size ri + size rj
        /\ prop_labels p = labels ri ++ labels rj).
Proof.
  intros Hinv Hpop Hsel Hmax Hi Hj Hstep Hcap Hreach.
  pose proof (max_key_fresh _ _ Hmax) as Hfresh.
  destruct (merge_step_inv _ _ _ _ Hstep)
    as [i' j' m' ri' rj' Hsel' Hmax' Hi' Hj' HR HS].
  assert (i' = i /\ j' = j) as [-> ->] by (split; congruence).
  assert (m' = m) as -> by congruence.
  assert (ri' = ri) as -> by congruence.
  assert (rj' = rj) as -> by congruence.
  pose proof Hcap as Hcap'.
  apply Z.ltb_lt in Hcap. rewrite Hcap in HS.
  assert (Hun1 : untouched (m + 1) (st_S st1)).
  { intros k Hk. rewrite HS, fold_del_stale in Hk.
    apply dict_keys_filter_subseteq in Hk.
    destruct (Hinv _ Hk) as [H1 H2].
    apply touches_false. split; intros Heq; rewrite <- Heq in *; done. }
  assert (Ht1 : m + 1 ∈ dict_keys (st_R st1)).
  { rewrite HR, dict_keys_app, elem_of_app. right. left. }
  assert (Hun2 : untouched (m + 1) (st_S st2)).
  { by eapply reach_untouched. }
  assert (Hget : dict_get (st_R st2) (m + 1) = Some (_merge_regions ri rj)).
  { eapply reach_dict_get; [exact Hreach|].
    rewrite HR, dict_get_app_r by done. simpl. by rewrite decide_True. }
  assert (Hrec : proposal_of (_merge_regions ri rj) ∈ assemble (st_R st2) pop).
  { apply (assemble_elem _ _ (m + 1)); [done|].
    intros Hin. by apply Hfresh, Hpop. }
  split; [done|]. split; [done|]. split; [|split; [done|split; [done|]]].
  - intros e He. by apply Hun2, select_edge_elem.
  - exists (proposal_of (_merge_regions ri rj)).
    split; [done|]. split.
    + intros pr Hpr. unfold finish. cbn [fst snd]. by rewrite Hpr.
    + repeat split; done.
Qed.

(** The proposals are the records of all the regions of the table that
    [region_pop] has not flagged, the regions that a merge has consumed
    among them. *)
Lemma consumed_region_emitted st1 st2 stF pop i j :
  select_edge (st_S st1) = inr (i, j) ->
  merge_step max_region_size imsize st1 = inr st2 ->
  reaches max_region_size imsize st2 stF ->
  (i ∉ pop -> i ∈ (emitted (st_R stF) pop).*1)
  /\ (j ∉ pop -> j ∈ (emitted (st_R stF) pop).*1).
Proof.
  intros Hsel Hstep Hreach.
  destruct (merge_step_inv _ _ _ _ Hstep)
    as [i' j' m ri rj Hsel' _ Hi Hj HR _].
  assert (i' = i /\ j' = j) as [-> ->] by (split; congruence).
  assert (Hr : reaches max_region_size imsize st1 stF).
  { eapply rtc_l; [|exact Hreach]. split; [|done].
    by eapply select_edge_inv. }
  split; intros Hpop.
  - apply (list_elem_of_fmap_2 fst _ (i, ri)), elem_of_emitted.
    split; [|done]. eapply dict_get_Some_elem, reach_dict_get; eauto.
  - apply (list_elem_of_fmap_2 fst _ (j, rj)), elem_of_emitted.
    split; [|done]. eapply dict_get_Some_elem, reach_dict_get; eauto.
Qed.
End Frozen.

Lemma dict_get_elem_NoDup {K V} `{EqDecision K} (d : dict K V) k v :
  NoDup (dict_keys d) -> (k, v) ∈ d -> dict_get d k = Some v.
Proof.
  induction d as [|[k' v'] d IH]; simpl.
  - by intros _ ?%elem_of_nil.
  - intros [Hk' Hnd]%NoDup_cons [[= -> ->]|Hin]%elem_of_cons.
    + by rewrite decide_True.
    + rewrite decide_False; [auto|].
      intros ->. apply Hk'. unfold dict_keys.
      by apply (list_elem_of_fmap_2 fst _ (k, v)).
Qed.

Lemma emitted_keys (R : dict Z region) pop :
  (emitted R pop).*1
  = List.filter (fun k => negb (bool_decide (k ∈ pop))) (dict_keys R).
Proof.
  unfold emitted, dict_keys. induction R as [|[k r] R IH]; simpl; [done|].
  destruct (bool_decide (k ∈ pop)); simpl; [exact IH | f_equal; exact IH].
Qed.

Lemma NoDup_list_filter {A} (f : A -> bool) (l : list A) :
  NoDup l -> NoDup (List.filter f l).
Proof.
  induction 1 as [|x l Hx _ IH]; simpl; [constructor|].
  destruct (f x); [|done]. constructor; [|done].
  rewrite list_elem_of_In, filter_In, <- list_elem_of_In. tauto.
Qed.

Section Proposals.
Variable max_region_size : Z.
Variable imsize : Z.

Lemma reach_NoDup st st' :
  NoDup (dict_keys (st_R st)) ->
  reaches max_region_size imsize st st' -> NoDup (dict_keys (st_R st')).
Proof.
  intros Hnd Hreach.
  induction Hreach as [|st st1 st2 [_ Hstep] _ IH]; [done|].
  apply IH. destruct (step_table _ _ _ _ Hstep) as (m & r & Hmax & ->).
  rewrite dict_keys_app. apply NoDup_app. split; [done|]. split.
  - intros k Hk ->%list_elem_of_singleton. by apply (max_key_fresh _ _ Hmax).
  - apply NoDup_singleton.
Qed.

(** C1, amended.  The proposals assembled from the table at the end of a
    run are the records of the regions of that table that [region_pop] has
    not flagged, one for each of them, whether or not a merge has consumed
    the region: the regions [i] and [j] that an iteration merges keep their
    entries and get their records like the others.  A record holds the
    rect [(min_x, min_y, max_x - min_x, max_y - min_y)] of the bbox of the
    region, and its [bbox_size], [size] and [labels]. *)
Theorem proposals_cover_unflagged_table st0 stF pop :
  NoDup (dict_keys (st_R st0)) ->
  reaches max_region_size imsize st0 stF ->
  (forall p,
     p ∈ assemble (st_R stF) pop
     <-> exists k r,
           dict_get (st_R stF) k = Some r /\ (k ∉ pop)
           /\ rect p = (min_x r, min_y r, max_x r - min_x r, max_y r - min_y r)
           /\ prop_bbox_size p = bbox_size r
           /\ prop_size p = size r
           /\ prop_labels p = labels r)
  /\ length (assemble (st_R stF) pop) = length (emitted (st_R stF) pop)
  /\ NoDup (emitted (st_R stF) pop).*1
  /\ (forall k, k ∈ (emitted (st_R stF) pop).*1
                <-> k ∈ dict_keys (st_R stF) /\ k ∉ pop)
  /\ (forall st1 st2 i j,
        reaches max_region_size imsize st0 st1 ->
        select_edge (st_S st1) = inr (i, j) ->
        merge_step max_region_size imsize st1 = inr st2 ->
        reaches max_region_size imsize st2 stF ->
        (i ∉ pop -> i ∈ (emitted (st_R stF) pop).*1)
        /\ (j ∉ pop -> j ∈ (emitted (st_R stF) pop).*1)).
Proof.
  intros Hnd H0F.
  pose proof (reach_NoDup _ _ Hnd H0F) as HndF.
  split; [|split; [|split; [|split]]].
  - intros p. unfold assemble. rewrite list_elem_of_fmap. split.
    + intros ([k r] & -> & [Hin Hpop]%elem_of_emitted).
      exists k, r. split; [by apply dict_get_elem_NoDup|]. by repeat split.
    + intros (k & r & Hget & Hpop & Hrect & Hb & Hs & Hl).
      exists (k, r). split.
      * destruct p as [pr pb ps pl]. simpl in *. unfold proposal_of.
        by rewrite Hrect, Hb, Hs, Hl.
      * apply elem_of_emitted. split; [by apply dict_get_Some_elem | done].
  - unfold assemble. apply length_map.
  - rewrite emitted_keys. by apply NoDup_list_filter.
  - intros k. rewrite emitted_keys, list_elem_of_In, filter_In,
      <- list_elem_of_In, negb_true_iff, bool_decide_eq_false. done.
  - intros st1 st2 i j _ Hsel Hstep H2F.
    by eapply consumed_region_emitted.
Qed.
End Proposals.

(** ** A run on three overlapping regions *)

Lemma merge_loop_reaches max_region_size imsize fuel st st' :
  merge_loop max_region_size imsize fuel st = Some (inr st') ->
  reaches max_region_size imsize st st' /\ st_S st' = [].
Proof.
  revert st. induction fuel as [|fuel IH]; intros st; simpl.
  - destruct (st_S st) eqn:HS; [|done].
    intros [= <-]. split; [apply rtc_refl | done].
  - destruct (st_S st) eqn:HS.
    + intros [= <-]. split; [apply rtc_refl | done].
    + destruct (merge_step max_region_size imsize st) as [e|st1] eqn:Hstep;
        [done|].
      intros [Hreach Hnil]%IH. split; [|done].
      eapply rtc_l; [|exact Hreach]. split; [by rewrite HS | done].
Qed.

Lemma sample_select : select_edge (st_S sample_state) = inr (1, 2).
Proof. vm_compute. reflexivity. Qed.

Lemma sample_step : merge_step 3000 400 sample_state = inr sample_state_1.
Proof. vm_compute. reflexivity. Qed.

Lemma sample_reaches : reaches 3000 400 sample_state_1 sample_state_2.
Proof.
  apply (merge_loop_reaches 3000 400 1). vm_compute. reflexivity.
Qed.

Lemma sample_NoDup : NoDup (dict_keys (st_R sample_state)).
Proof. apply (bool_decide_unpack _). vm_compute. exact I. Qed.

Lemma merge_loop_terminates_witness :
  merge_step 3000 400 sample_state = inr sample_state_1
  /\ (length (st_S sample_state_1) < length (st_S sample_state))%nat.
Proof.
  split; [exact sample_step|].
  exact (proj1 (proj2 (merge_loop_terminates 3000 400))
           sample_state sample_state_1 sample_step).
Defined.

Lemma frozen_region_stays_out_witness :
  merge_step 500 4096 chain_state = inr chain_state_1
  /\ merge_step 500 4096 chain_state_1 = inr chain_state_2
  /\ dict_keys (st_S chain_state) = [(0, 1); (1, 2); (2, 3); (4, 5)]
  /\ dict_keys (st_S chain_state_1) = [(0, 1); (4, 5)]
  /\ dict_keys (st_S chain_state_2) = [(0, 1)]
  /\ untouched 6 (st_S chain_state_2)
  /\ (forall e, select_edge (st_S chain_state_2) = inr e ->
                touches 6 e = false)
  /\ (exists p,
        p ∈ assemble (st_R chain_state_2) []
        /\ rect p = (12, 12, 28, 28)
        /\ prop_bbox_size p = 784
        /\ prop_size p = 60
        /\ prop_labels p = [12; 13]).
Proof.
  assert (H1 : merge_step 500 4096 chain_state = inr chain_state_1)
    by (vm_compute; reflexivity).
  assert (H2 : merge_step 500 4096 chain_state_1 = inr chain_state_2)
    by (vm_compute; reflexivity).
  split; [exact H1|]. split; [exact H2|].
  split; [reflexivity|]. split; [reflexivity|]. split; [reflexivity|].
  destruct (frozen_region_stays_out 500 4096
              chain_state chain_state_1 chain_state_2 [] 2 3 5
              (chain_region 12 12 30 30 30 12 [0%Q; 1%Q] [0%Q; 1%Q])
              (chain_region 20 20 40 40 30 13 [0%Q; 1%Q] [0%Q; 1%Q]))
    as (_ & Hun & Hsel & _ & _ & p & Hp & _ & Hrect & Hbb & _ & Hsz & Hlab).
  - apply initial_state_edges_in_table.
  - by intros t ?%elem_of_nil.
  - vm_compute. reflexivity.
  - reflexivity.
  - reflexivity.
  - reflexivity.
  - exact H1.
  - simpl. lia.
  - eapply rtc_l; [|apply rtc_refl]. split; [discriminate | exact H2].
  - split; [exact Hun|]. split; [exact Hsel|].
    exists p. split; [exact Hp|]. split; [exact Hrect|].
    split; [exact Hbb|]. split; [exact Hsz | exact Hlab].
Defined.

Lemma proposals_cover_unflagged_table_witness :
  NoDup (dict_keys (st_R sample_state))
  /\ reaches 3000 400 sample_state sample_state_2
  /\ length (assemble (st_R sample_state_2) []) = 5%nat
  /\ 1 ∈ (emitted (st_R sample_state_2) []).*1
  /\ 2 ∈ (emitted (st_R sample_state_2) []).*1.
Proof.
  assert (Hr : reaches 3000 400 sample_state sample_state_2).
  { eapply rtc_l; [|exact sample_reaches].
    split; [discriminate | exact sample_step]. }
  split; [exact sample_NoDup|]. split; [exact Hr|].
  destruct (proposals_cover_unflagged_table 3000 400
              sample_state sample_state_2 [] sample_NoDup Hr)
    as (_ & Hlen & _ & _ & Hmerged).
  split; [rewrite Hlen; reflexivity|].
  destruct (Hmerged sample_state sample_state_1 1 2) as [H1 H2].
  - apply rtc_refl.
  - exact sample_select.
  - exact sample_step.
  - exact sample_reaches.
  - split; [apply H1 | apply H2]; by intros ?%elem_of_nil.
Defined.

(** C1, as stated, fails.  In the run from the three sample regions the
    first iteration merges the regions 1 and 2; the loop ends two iterations
    later, and the proposals assembled from the final table hold the records
    of the regions 1 and 2, next to the record of their merge. *)
Lemma consumed_regions_have_records :
  select_edge (st_S sample_state) = inr (1, 2)
  /\ merge_step 3000 400 sample_state = inr sample_state_1
  /\ hierarchical_search 3000 400 sample_state = Some (inr sample_state_2)
  /\ st_S sample_state_2 = []
  /\ proposal_of (sample_region 5 5 15 15 40 8)
     ∈ assemble (st_R sample_state_2) []
  /\ proposal_of (sample_region 8 8 20 20 30 9)
     ∈ assemble (st_R sample_state_2) []
  /\ ~ (forall k, k ∈ [1; 2] -> k ∉ (emitted (st_R sample_state_2) []).*1).
Proof.
  split; [exact sample_select|]. split; [exact sample_step|].
  split; [vm_compute; reflexivity|]. split; [vm_compute; reflexivity|].
  split; [|split].
  - apply (assemble_elem _ _ 1); [reflexivity | by intros ?%elem_of_nil].
  - apply (assemble_elem _ _ 2); [reflexivity | by intros ?%elem_of_nil].
  - intros H. apply (H 1); [left|].
    apply (list_elem_of_fmap_2 fst _ (1, sample_region 5 5 15 15 40 8)).
    apply elem_of_emitted. split; [|by intros ?%elem_of_nil].
    apply dict_get_Some_elem. reflexivity.
Qed.

(** ** Histograms *)

Lemma length_np_histogram c bins lo hi : length (np_histogram c bins lo hi) = bins.
Proof. unfold np_histogram. by rewrite length_map, length_seq. Qed.

Lemma length_calc_colour_hist img : length (_calc_colour_hist img) = 75%nat.
Proof.
  unfold _calc_colour_hist. cbn [fold_left].
  by rewrite length_map, !length_app, !length_np_histogram.
Qed.

Lemma length_calc_texture_hist img : length (_calc_texture_hist img) = 30%nat.
Proof.
  unfold _calc_texture_hist. cbn [fold_left].
  by rewrite length_map, !length_app, !length_np_histogram.
Qed.

Lemma fold_left_Qplus l a : (fold_left Qplus l a == a + Qsum l)%Q.
Proof.
  unfold Qsum. revert a. induction l as [|x l IH]; intros a; simpl.
  - ring.
  - rewrite (IH (a + x)%Q), (IH (0 + x)%Q). ring.
Qed.

Lemma Qsum_cons x l : (Qsum (x :: l) == x + Qsum l)%Q.
Proof. unfold Qsum at 1. simpl. rewrite fold_left_Qplus. ring. Qed.

Lemma Qsum_app l1 l2 : (Qsum (l1 ++ l2) == Qsum l1 + Qsum l2)%Q.
Proof.
  induction l1 as [|x l1 IH]; simpl.
  - unfold Qsum at 2. simpl. ring.
  - rewrite !Qsum_cons, IH. ring.
Qed.

Lemma Qsum_map_div l n :
  (Qsum (map (fun h => h / n) l) == Qsum l / n)%Q.
Proof.
  induction l as [|x l IH]; simpl.
  - unfold Qsum. simpl. unfold Qdiv. ring.
  - rewrite !Qsum_cons, IH. unfold Qdiv. ring.
Qed.

Lemma Qsum_map_inject (l : list nat) :
  (Qsum (map (fun n => inject_Z (Z.of_nat n)) l)
   == inject_Z (Z.of_nat (foldr Nat.add 0%nat l)))%Q.
Proof.
  induction l as [|x l IH]; simpl.
  - reflexivity.
  - rewrite Qsum_cons, IH, Nat2Z.inj_add, inject_Z_plus. reflexivity.
Qed.

Lemma sum_indicator (b n : nat) :
  foldr Nat.add 0%nat
    (map (fun b' => if bool_decide (Some b = Some b') then 1%nat else 0%nat)
         (seq 0 n))
  = if bool_decide (b < n)%nat then 1%nat else 0%nat.
Proof.
  induction n as [|n IH]; [done|].
  rewrite seq_S, map_app, foldr_app. simpl.
  assert (Hshift : forall (l : list nat) a,
             foldr Nat.add a l = (foldr Nat.add 0 l + a)%nat).
  { induction l as [|x l IHl]; intros a; simpl; [done|]. rewrite (IHl a). lia. }
  rewrite Hshift, IH.
  destruct (decide (b = n)) as [->|Hne].
  - rewrite (bool_decide_eq_true_2 (Some n = Some n)) by done.
    rewrite bool_decide_eq_false_2, bool_decide_eq_true_2; lia.
  - rewrite (bool_decide_eq_false_2 (Some b = Some n)) by congruence.
    rewrite Nat.add_0_r. apply (f_equal (fun c : bool => if c then _ else _)).
    apply bool_decide_ext. lia.
Qed.

Lemma count_bin_cons bins lo hi v c b :
  count_bin bins lo hi (v :: c) b
  = ((if bool_decide (bin_of bins lo hi v = Some b) then 1 else 0)
     + count_bin bins lo hi c b)%nat.
Proof.
  unfold count_bin. simpl.
  by destruct (bool_decide (bin_of bins lo hi v = Some b)).
Qed.

Lemma sum_map_plus (f g : nat -> nat) (l : list nat) :
  foldr Nat.add 0%nat (map (fun b => (f b + g b)%nat) l)
  = (foldr Nat.add 0%nat (map f l) + foldr Nat.add 0%nat (map g l))%nat.
Proof. induction l as [|b l IH]; simpl; [done|]. rewrite IH. lia. Qed.

Lemma sum_map_zero (l : list nat) :
  foldr Nat.add 0%nat (map (fun _ => 0%nat) l) = 0%nat.
Proof. induction l as [|b l IH]; simpl; [done | exact IH]. Qed.

Lemma sum_bin_indicator bins lo hi v :
  (0 < bins)%nat ->
  foldr Nat.add 0%nat
    (map (fun b => if bool_decide (bin_of bins lo hi v = Some b)
                   then 1%nat else 0%nat) (seq 0 bins))
  = if in_range lo hi v then 1%nat else 0%nat.
Proof.
  intros Hbins. unfold bin_of, in_range.
  destruct (Qle_bool lo v && Qle_bool v hi).
  - rewrite sum_indicator. rewrite bool_decide_eq_true_2; [done | lia].
  - apply sum_map_zero.
Qed.

Lemma sum_count_bin bins lo hi (c : list Q) :
  (0 < bins)%nat ->
  foldr Nat.add 0%nat (map (count_bin bins lo hi c) (seq 0 bins))
  = length (List.filter (in_range lo hi) c).
Proof.
  intros Hbins. induction c as [|v c IH].
  - apply sum_map_zero.
  - rewrite (map_ext _ _ (count_bin_cons bins lo hi v c)).
    rewrite sum_map_plus, IH, sum_bin_indicator by done. simpl.
    by destruct (in_range lo hi v).
Qed.

Lemma Qsum_np_histogram c bins lo hi :
  (0 < bins)%nat ->
  (Qsum (np_histogram c bins lo hi)
   == inject_Z (Z.of_nat (length (List.filter (in_range lo hi) c))))%Q.
Proof.
  intros Hbins. unfold np_histogram.
  rewrite <- (sum_count_bin bins lo hi c Hbins), <- Qsum_map_inject.
  by rewrite map_map.
Qed.

Lemma filter_all_true {A} (f : A -> bool) (l : list A) :
  Forall (fun x => f x = true) l -> List.filter f l = l.
Proof.
  induction 1 as [|x l Hx _ IH]; simpl; [done|]. by rewrite Hx, IH.
Qed.

(** The sum of a histogram whose samples all fall in the range of the
    bins: each of the three channels adds the number of samples. *)
Lemma hist_sum_in_range (img : list pixel3) bins lo hi :
  (0 < bins)%nat -> img <> [] ->
  Forall (fun p => forall c, in_range lo hi (channel c p) = true) img ->
  (Qsum (map (fun h => h / inject_Z (Z.of_nat (length img)))
           (fold_left
              (fun hist colour_channel =>
                 hist ++ np_histogram (map (channel colour_channel) img)
                           bins lo hi)
              [0%nat; 1%nat; 2%nat] []))
   == 3)%Q.
Proof.
  intros Hbins Hne Hall. cbn [fold_left app].
  rewrite Qsum_map_div, !Qsum_app, !Qsum_np_histogram by done.
  assert (Hlen : forall c,
    length (List.filter (in_range lo hi) (map (channel c) img)) = length img).
  { intros c. rewrite filter_all_true; [apply length_map|].
    apply Forall_map. eapply Forall_impl; [exact Hall|]. intros p Hp. apply Hp. }
  rewrite !Hlen.
  assert (Hn : ~ (inject_Z (Z.of_nat (length img)) == 0)%Q).
  { destruct img; [done|]. simpl length.
    unfold Qeq, inject_Z. cbn [Qnum Qden]. lia. }
  field. exact Hn.
Qed.

(** C6, where it holds and where it fails.  Both histograms have the
    stated lengths and are divided by the number of samples, and a histogram
    whose samples all fall in the range of its bins sums to 3, one unit for
    each channel, not to 1: so for the sample made of the one pixel
    (0, 0, 0).  A texture histogram sums to less when values fall outside
    of [0, 1]: to 0 for the one pixel (5, 5, 5). *)
Theorem calc_hist_sums_to_three :
  (forall img,
     length (_calc_colour_hist img) = 75%nat
     /\ length (_calc_texture_hist img) = 30%nat)
  /\ (forall img,
        img <> [] ->
        Forall (fun p => forall c, in_range 0 255 (channel c p) = true) img ->
        (Qsum (_calc_colour_hist img) == 3)%Q)
  /\ (forall img,
        img <> [] ->
        Forall (fun p => forall c, in_range 0 1 (channel c p) = true) img ->
        (Qsum (_calc_texture_hist img) == 3)%Q)
  /\ ~ (Qsum (_calc_colour_hist [(0, 0, 0)%Q]) == 1)%Q
  /\ ~ (Qsum (_calc_texture_hist [(0, 0, 0)%Q]) == 1)%Q
  /\ (Qsum (_calc_texture_hist [(5, 5, 5)%Q]) == 0)%Q.
Proof.
  split; [|split; [|split; [|split; [|split]]]].
  - intros img. split;
      [apply length_calc_colour_hist | apply length_calc_texture_hist].
  - intros img Hne Hall. unfold _calc_colour_hist.
    apply hist_sum_in_range; [lia | done | done].
  - intros img Hne Hall. unfold _calc_texture_hist.
    apply hist_sum_in_range; [lia | done | done].
  - intros H. vm_compute in H. discriminate H.
  - intros H. vm_compute in H. discriminate H.
  - vm_compute. reflexivity.
Qed.

Lemma calc_hist_sums_to_three_witness :
  (Qsum (_calc_colour_hist [(0, 0, 0)%Q; (255, 128, 17 # 2)%Q]) == 3)%Q.
Proof.
  apply (proj1 (proj2 calc_hist_sums_to_three)); [done|].
  repeat constructor; intros [|[|c]]; reflexivity.
Defined.

(** ** Input validation *)

Section Validation.
Variable felzenszwalb : image -> Q -> Q -> Z -> list (list Z).
Variable rgb2hsv : image -> list (list pixel3).
Variable local_binary_pattern : image -> nat -> list (list Q).

Abbreviation prepare' := (prepare felzenszwalb rgb2hsv local_binary_pattern).
Abbreviation selective_search' :=
  (selective_search felzenszwalb rgb2hsv local_binary_pattern).

Lemma prepare_rejects im_orig cfg tr :
  shape im_orig !! 2%nat <> Some 3 ->
  prepare' im_orig cfg tr
  = (tr, inl (match shape im_orig !! 2%nat with
              | Some _ => AssertionError
              | None => IndexError
              end)).
Proof.
  intros Hc. unfold prepare, io_bind, io_lift.
  destruct (shape im_orig !! 2%nat) as [c|]; simpl; [|done].
  rewrite bool_decide_eq_false_2; [done | congruence].
Qed.

Lemma prepare_ok im_orig cfg tr h w :
  shape im_orig = [h; w; 3] ->
  exists p,
    prepare' im_orig cfg tr = (tr ++ collaborator_calls, inr p)
    /\ edges_in_table (pr_state p).
Proof.
  intros Hshape. unfold prepare, io_bind at 1, io_lift at 1.
  rewrite Hshape. simpl of_option. cbv iota beta.
  rewrite bool_decide_eq_true_2 by done.
  unfold _generate_segments, _extract_regions, _calc_texture_gradient,
    io_bind, io_call, io_lift, io_ret.
  rewrite Hshape. simpl.
  eexists. split.
  - rewrite <- !app_assoc. reflexivity.
  - apply initial_state_edges_in_table.
Qed.

Lemma prepare_not_3d im_orig cfg tr :
  shape im_orig !! 2%nat = Some 3 ->
  length (shape im_orig) <> 3%nat ->
  prepare' im_orig cfg tr = (tr ++ [Call_felzenszwalb], inl ValueError).
Proof.
  intros Hc Hlen. unfold prepare, io_bind at 1, io_lift at 1.
  rewrite Hc. simpl of_option. cbv iota beta.
  rewrite bool_decide_eq_true_2 by done.
  unfold _generate_segments, io_bind, io_call, io_raise.
  destruct (shape im_orig) as [|h [|w [|c [|d rest]]]]; done.
Qed.

(** C9. An image whose third dimension is not 3 is rejected, and before
    any collaborator is called: the calls made so far are left as they
    were.  The error is that of the assertion, or that of [shape[2]] when
    the image has no third dimension.  An image whose third dimension is 3
    passes the check and the run proceeds to the segmentation.  When the
    image has its three dimensions and no more, the run goes on through
    the colour conversion and the three texture passes to its end, and
    returns; when it has more, the run ends after the segmentation with the
    [ValueError] of [numpy.append]. *)
Theorem selective_search_validates_channels im_orig cfg tr :
  (shape im_orig !! 2%nat <> Some 3 ->
   selective_search' im_orig cfg tr
   = (tr, inl (match shape im_orig !! 2%nat with
               | Some _ => AssertionError
               | None => IndexError
               end)))
  /\ (shape im_orig !! 2%nat = Some 3 ->
      length (shape im_orig) = 3%nat ->
      exists out,
        selective_search' im_orig cfg tr
        = (tr ++ collaborator_calls, inr out))
  /\ (shape im_orig !! 2%nat = Some 3 ->
      length (shape im_orig) <> 3%nat ->
      selective_search' im_orig cfg tr
      = (tr ++ [Call_felzenszwalb], inl ValueError)).
Proof.
  split; [|split].
  - intros Hc. unfold selective_search, io_bind at 1.
    by rewrite prepare_rejects.
  - intros Hc Hlen.
    destruct (shape im_orig) as [|h [|w [|c [|d rest]]]] eqn:Hshape;
      try done.
    simpl in Hc. injection Hc as ->.
    destruct (prepare_ok im_orig cfg tr h w Hshape) as (p & Hp & Hinv).
    unfold selective_search, io_bind at 1. rewrite Hp.
    unfold io_bind, io_lift, io_ret, run_merge_loop, hierarchical_search.
    destruct (merge_loop_ok (max_region_size cfg) (pr_imsize p)
                (length (st_S (pr_state p))) (pr_state p) Hinv)
      as (stF & Hloop & _ & _); [done|].
    rewrite Hloop. eauto.
  - intros Hc Hlen. unfold selective_search, io_bind at 1.
    by rewrite prepare_not_3d.
Qed.
End Validation.

(** ** Determinism *)

Lemma score_is_proper c1 c2 x : (c1 == c2)%Q -> score_is c1 x = score_is c2 x.
Proof.
  intros Hc. unfold score_is.
  destruct (Qeq_bool x.2 c2) eqn:H2.
  - apply Qeq_bool_iff. apply Qeq_bool_iff in H2. by rewrite Hc.
  - apply not_true_is_false. intros H1%Qeq_bool_iff. rewrite Hc in H1.
    apply Qeq_bool_iff in H1. congruence.
Qed.

Lemma score_is_self x : score_is x.2 x = true.
Proof. unfold score_is. apply Qeq_bool_iff. reflexivity. Qed.

Lemma filter_insert_by_score c x l :
  List.filter (score_is c) (insert_by_score x l)
  = List.filter (score_is c) (x :: l).
Proof.
  induction l as [|y l IH]; [done|].
  cbn [insert_by_score]. destruct (Qle_bool x.2 y.2) eqn:Hle; [done|].
  cbn [List.filter] in *. rewrite IH.
  destruct (score_is c x) eqn:Hx, (score_is c y) eqn:Hy; try done.
  exfalso. unfold score_is in *.
  apply Qeq_bool_iff in Hx, Hy.
  assert (Qle_bool x.2 y.2 = true); [|congruence].
  apply Qle_bool_iff. rewrite Hx, Hy. apply Qle_refl.
Qed.

Lemma insert_by_score_sorted x l :
  StronglySorted score_le l -> StronglySorted score_le (insert_by_score x l).
Proof.
  induction 1 as [|y l Hl IH Hy]; cbn [insert_by_score].
  - repeat constructor.
  - destruct (Qle_bool x.2 y.2) eqn:Hle.
    + apply Qle_bool_iff in Hle.
      constructor; [by constructor|]. constructor; [done|].
      eapply Forall_impl; [exact Hy|]. intros z Hz.
      unfold score_le in *. by eapply Qle_trans.
    + constructor; [done|].
      rewrite insert_by_score_perm.
      constructor; [|done]. unfold score_le.
      destruct (Qlt_le_dec y.2 x.2) as [Hlt|Hge]; [by apply Qlt_le_weak|].
      apply Qle_bool_iff in Hge. congruence.
Qed.

Lemma sorted_by_score_stable_sorted S : stable_sorted S (sorted_by_score S).
Proof.
  split.
  - apply sorted_by_score_perm.
  - induction S as [|x S IH]; simpl; [constructor|].
    by apply insert_by_score_sorted.
  - intros c. induction S as [|x S IH]; simpl; [done|].
    rewrite filter_insert_by_score. simpl. by rewrite IH.
Qed.

Lemma select_edge_selects S e : select_edge S = inr e -> selects S e.
Proof.
  unfold select_edge.
  destruct (last (sorted_by_score S)) as [kv|] eqn:Hl; simpl; [|done].
  intros [= <-]. eapply selects_last; [|exact Hl|done].
  apply sorted_by_score_stable_sorted.
Qed.

Lemma last_filter {A} (f : A -> bool) (l : list A) (x : A) :
  last l = Some x -> f x = true -> last (List.filter f l) = Some x.
Proof.
  intros [l' ->]%last_Some Hx.
  rewrite List.filter_app. simpl. rewrite Hx. apply last_snoc.
Qed.

Lemma StronglySorted_snoc {A} (R : A -> A -> Prop) (l : list A) (a : A) :
  StronglySorted R (l ++ [a]) -> Forall (fun x => R x a) l.
Proof.
  induction l as [|x l IH]; simpl; [constructor|].
  intros [Hs Hx]%StronglySorted_inv. constructor; [|auto].
  rewrite Forall_app in Hx. destruct Hx as [_ Hx]. by inversion Hx.
Qed.

(** The last item of a sorted list has the highest score. *)
Lemma stable_sorted_last_max S out kv x :
  stable_sorted S out -> last out = Some kv -> x ∈ S -> score_le x kv.
Proof.
  intros [Hperm Hsorted _] Hlast Hx.
  rewrite <- Hperm in Hx.
  apply last_Some in Hlast as [l' ->].
  apply StronglySorted_snoc in Hsorted.
  apply elem_of_app in Hx as [Hx|Hx].
  - by apply (proj1 (Forall_forall _ _) Hsorted).
  - apply list_elem_of_singleton in Hx as ->. apply Qle_refl.
Qed.

(** Among the items of its score, the last item of a sorted list is the
    last one of the dictionary. *)
Lemma stable_sorted_last_tie S out kv :
  stable_sorted S out -> last out = Some kv ->
  last (List.filter (score_is kv.2) S) = Some kv.
Proof.
  intros [_ _ Hstable] Hlast. rewrite <- Hstable.
  apply last_filter; [done | apply score_is_self].
Qed.

Lemma selects_unique S e1 e2 : selects S e1 -> selects S e2 -> e1 = e2.
Proof.
  intros [out1 kv1 Hs1 Hl1 <-] [out2 kv2 Hs2 Hl2 <-].
  assert (Hin : forall out kv, stable_sorted S out -> last out = Some kv -> kv ∈ S).
  { intros out kv [Hperm _ _] Hl. rewrite <- Hperm. by apply last_Some_elem_of. }
  assert (Heq : (kv1.2 == kv2.2)%Q).
  { apply Qle_antisym.
    - apply (stable_sorted_last_max S out2 kv2 kv1); eauto.
    - apply (stable_sorted_last_max S out1 kv1 kv2); eauto. }
  pose proof (stable_sorted_last_tie _ _ _ Hs1 Hl1) as H1.
  pose proof (stable_sorted_last_tie _ _ _ Hs2 Hl2) as H2.
  rewrite (List.filter_ext (score_is kv1.2) (score_is kv2.2)) in H1
    by (intros x; by apply score_is_proper).
  congruence.
Qed.

Section Determinism.
Variable max_region_size : Z.
Variable imsize : Z.

Lemma runs_deterministic st m1 r1 m2 r2 :
  runs max_region_size imsize st m1 r1 ->
  runs max_region_size imsize st m2 r2 ->
  m1 = m2 /\ r1 = r2.
Proof.
  intros H1. revert m2 r2.
  induction H1 as [st HS|st i j e HS Hsel Hat|st i j st' ms r HS Hsel Hat _ IH];
    intros m2 r2 H2; inversion H2 as [? HS2|? i2 j2 e2 HS2 Hsel2 Hat2
                                      |? i2 j2 st2 ms2 ? HS2 Hsel2 Hat2 Hr2];
    subst; try done;
    pose proof (selects_unique _ _ _ Hsel Hsel2) as [= <- <-].
  - split; congruence.
  - congruence.
  - congruence.
  - assert (st2 = st') as -> by congruence.
    destruct (IH _ _ Hr2) as [-> ->]. done.
Qed.

Lemma merge_loop_runs fuel st r :
  merge_loop max_region_size imsize fuel st = Some r ->
  exists merges, runs max_region_size imsize st merges r.
Proof.
  revert st. induction fuel as [|fuel IH]; intros st; simpl.
  - destruct (st_S st) eqn:HS; [|done].
    intros [= <-]. exists []. by constructor.
  - destruct (st_S st) as [|kv S] eqn:HS.
    + intros [= <-]. exists []. by constructor.
    + assert (Hne : st_S st <> []) by (by rewrite HS).
      destruct (select_edge_nonempty _ Hne) as [[i j] Hsel].
      pose proof (select_edge_selects _ _ Hsel) as Hsels.
      unfold merge_step. rewrite Hsel. cbn [bind fst snd].
      destruct (merge_at max_region_size imsize i j st) as [e|st'] eqn:Hat.
      * intros [= <-]. exists [(i, j)]. by apply runs_raise.
      * intros [merges Hruns]%IH. exists ((i, j) :: merges).
        by eapply runs_step.
Qed.
End Determinism.

Section SearchDeterminism.
Variable felzenszwalb : image -> Q -> Q -> Z -> list (list Z).
Variable rgb2hsv : image -> list (list pixel3).
Variable local_binary_pattern : image -> nat -> list (list Q).

Abbreviation search_runs' :=
  (search_runs felzenszwalb rgb2hsv local_binary_pattern).

Lemma selective_search_unfold im_orig cfg tr :
  selective_search felzenszwalb rgb2hsv local_binary_pattern im_orig cfg tr
  = match prepare felzenszwalb rgb2hsv local_binary_pattern im_orig cfg tr
    with
    | (tr', inl e) => (tr', inl e)
    | (tr', inr p) =>
        (tr', let* st := run_merge_loop (max_region_size cfg) (pr_imsize p)
                           (pr_state p) in
              ret (finish p st))
    end.
Proof.
  unfold selective_search, io_bind, io_lift, io_ret.
  destruct (prepare _ _ _ _ _ _) as [tr' [e|p]]; [done|].
  by destruct (run_merge_loop _ _ _).
Qed.

(** C10. With the outputs of the collaborators fixed, the image and the
    configuration determine the run: any two runs, whatever sorted list
    [sorted] returns within its contract, make the same calls, merge the
    same pairs in the same order, and end with the same table and the same
    proposals, or with the same exception.  [selective_search] computes
    that run. *)
Theorem selective_search_deterministic im_orig cfg tr :
  (forall c1 m1 r1 c2 m2 r2,
     search_runs' im_orig cfg tr c1 m1 r1 ->
     search_runs' im_orig cfg tr c2 m2 r2 ->
     c1 = c2 /\ m1 = m2 /\ r1 = r2)
  /\ (exists merges r,
        search_runs' im_orig cfg tr
          (selective_search felzenszwalb rgb2hsv local_binary_pattern
             im_orig cfg tr).1 merges r
        /\ (selective_search felzenszwalb rgb2hsv local_binary_pattern
              im_orig cfg tr).2
           = (let* to := r in ret to.2)).
Proof.
  split.
  - intros c1 m1 r1 c2 m2 r2 H1 H2.
    destruct H1 as [tr1 e1 Hp1|tr1 p1 ms1 r1 Hp1 Hr1];
      destruct H2 as [tr2 e2 Hp2|tr2 p2 ms2 r2 Hp2 Hr2];
      rewrite Hp1 in Hp2; simplify_eq; try done.
    destruct (runs_deterministic _ _ _ _ _ _ _ Hr1 Hr2) as [-> ->]. done.
  - rewrite selective_search_unfold.
    destruct (prepare felzenszwalb rgb2hsv local_binary_pattern
                im_orig cfg tr) as [tr' [e|p]] eqn:Hp.
    + exists [], (inl e). split; [by apply search_rejected | reflexivity].
    + destruct (merge_loop_enough_fuel (max_region_size cfg) (pr_imsize p)
                  (length (st_S (pr_state p))) (pr_state p)) as [r Hr];
        [done|].
      destruct (merge_loop_runs _ _ _ _ _ Hr) as [merges Hruns].
      exists merges, (conclude p r).
      unfold run_merge_loop, hierarchical_search. rewrite Hr. split.
      * by eapply search_merged.
      * destruct r; reflexivity.
Qed.
End SearchDeterminism.

(** ** The whole run on a sample image *)

Lemma selective_search_validates_channels_witness :
  (exists out,
     selective_search sample_felzenszwalb sample_rgb2hsv
       sample_local_binary_pattern sample_image sample_config []
     = (collaborator_calls, inr out))
  /\ selective_search sample_felzenszwalb sample_rgb2hsv
       sample_local_binary_pattern grey_image sample_config []
     = ([], inl AssertionError)
  /\ selective_search sample_felzenszwalb sample_rgb2hsv
       sample_local_binary_pattern stacked_image sample_config []
     = ([Call_felzenszwalb], inl ValueError).
Proof.
  split; [|split].
  - apply (proj1 (proj2 (selective_search_validates_channels
                           sample_felzenszwalb sample_rgb2hsv
                           sample_local_binary_pattern sample_image
                           sample_config []))); reflexivity.
  - apply (proj1 (selective_search_validates_channels
                    sample_felzenszwalb sample_rgb2hsv
                    sample_local_binary_pattern grey_image sample_config [])).
    discriminate.
  - apply (proj2 (proj2 (selective_search_validates_channels
                           sample_felzenszwalb sample_rgb2hsv
                           sample_local_binary_pattern stacked_image
                           sample_config []))); [reflexivity | discriminate].
Defined.

Lemma sample_search_runs :
  exists r,
    search_runs sample_felzenszwalb sample_rgb2hsv sample_local_binary_pattern
      sample_image sample_config [] collaborator_calls [(1, 2); (3, 0)] r.
Proof.
  eexists. eapply search_merged.
  - vm_compute. reflexivity.
  - eapply runs_step.
    + discriminate.
    + apply select_edge_selects. vm_compute. reflexivity.
    + vm_compute. reflexivity.
    + eapply runs_step.
      * discriminate.
      * apply select_edge_selects. vm_compute. reflexivity.
      * vm_compute. reflexivity.
      * apply runs_done. reflexivity.
Qed.

Lemma selective_search_deterministic_witness :
  exists r,
    search_runs sample_felzenszwalb sample_rgb2hsv sample_local_binary_pattern
      sample_image sample_config [] collaborator_calls [(1, 2); (3, 0)] r
    /\ forall c m r',
         search_runs sample_felzenszwalb sample_rgb2hsv
           sample_local_binary_pattern sample_image sample_config [] c m r' ->
         c = collaborator_calls /\ m = [(1, 2); (3, 0)] /\ r' = r.
Proof.
  destruct sample_search_runs as [r Hr]. exists r. split; [exact Hr|].
  intros c m r' Hr'.
  exact (proj1 (selective_search_deterministic sample_felzenszwalb
                  sample_rgb2hsv sample_local_binary_pattern
                  sample_image sample_config [])
           c m r' collaborator_calls [(1, 2); (3, 0)] r Hr' Hr).
Defined.

(** * Further properties *)

(** ** Geometry of merged and expanded regions *)

(** X1. The bbox of a merged region, and its original bbox, enclose those of
    both parents; when the parents have well-formed bboxes so has the merged
    region, and its [bbox_size] is at least that of each parent. *)
Theorem merge_regions_encloses r1 r2 :
  let rt := _merge_regions r1 r2 in
  (min_x rt <= min_x r1 /\ min_x rt <= min_x r2
   /\ min_y rt <= min_y r1 /\ min_y rt <= min_y r2
   /\ max_x r1 <= max_x rt /\ max_x r2 <= max_x rt
   /\ max_y r1 <= max_y rt /\ max_y r2 <= max_y rt)
  /\ (og_min_x rt <= og_min_x r1 /\ og_min_x rt <= og_min_x r2
      /\ og_min_y rt <= og_min_y r1 /\ og_min_y rt <= og_min_y r2
      /\ og_max_x r1 <= og_max_x rt /\ og_max_x r2 <= og_max_x rt
      /\ og_max_y r1 <= og_max_y rt /\ og_max_y r2 <= og_max_y rt)
  /\ (well_formed_bbox r1 -> well_formed_bbox r2 ->
      well_formed_bbox rt
      /\ bbox_area r1 <= bbox_size rt /\ bbox_area r2 <= bbox_size rt).
Proof.
  unfold well_formed_bbox, bbox_area. simpl.
  split; [lia|]. split; [lia|].
  intros [Hx1 Hy1] [Hx2 Hy2]. split; [lia|].
  split; apply Z.mul_le_mono_nonneg; lia.
Qed.

Lemma merge_regions_encloses_witness :
  well_formed_bbox (_merge_regions (sample_region 0 0 10 10 50 7)
                                   (sample_region 5 5 15 15 40 8))
  /\ bbox_area (sample_region 0 0 10 10 50 7)
     <= bbox_size (_merge_regions (sample_region 0 0 10 10 50 7)
                                  (sample_region 5 5 15 15 40 8))
  /\ bbox_area (sample_region 5 5 15 15 40 8)
     <= bbox_size (_merge_regions (sample_region 0 0 10 10 50 7)
                                  (sample_region 5 5 15 15 40 8)).
Proof.
  apply (proj2 (proj2 (merge_regions_encloses
                         (sample_region 0 0 10 10 50 7)
                         (sample_region 5 5 15 15 40 8))));
    unfold well_formed_bbox; simpl; lia.
Defined.

(** X2. An expanded bbox never leaves the image: it starts at 0 or later and
    ends at the limits or before, whatever the border.  With a border that
    is not negative and a region that lies within the limits, the expanded
    bbox encloses the bbox of the region and is well formed when that one
    is; the original bbox is kept in the [og_] fields, and the size, the
    labels and the histograms are those of the region. *)
Theorem expand_region_clipped r border x_lim y_lim :
  let r' := expand_region r border x_lim y_lim in
  (0 <= min_x r' /\ 0 <= min_y r' /\ max_x r' <= x_lim /\ max_y r' <= y_lim)
  /\ ((og_min_x r', og_min_y r', og_max_x r', og_max_y r')
      = (raw_min_x r, raw_min_y r, raw_max_x r, raw_max_y r)
      /\ size r' = raw_size r /\ labels r' = raw_labels r
      /\ hist_c r' = raw_hist_c r /\ hist_t r' = raw_hist_t r)
  /\ (0 <= border ->
      0 <= raw_min_x r -> 0 <= raw_min_y r ->
      raw_max_x r <= x_lim -> raw_max_y r <= y_lim ->
      (min_x r' <= raw_min_x r /\ min_y r' <= raw_min_y r
       /\ raw_max_x r <= max_x r' /\ raw_max_y r <= max_y r')
      /\ (raw_min_x r <= raw_max_x r -> raw_min_y r <= raw_max_y r ->
          well_formed_bbox r')).
Proof.
  unfold well_formed_bbox. simpl. split; [lia|]. split; [done|].
  intros. split; [lia|]. lia.
Qed.

Lemma expand_region_clipped_witness :
  min_x (expand_region sample_raw 10 100 100) <= raw_min_x sample_raw
  /\ raw_max_x sample_raw <= max_x (expand_region sample_raw 10 100 100)
  /\ well_formed_bbox (expand_region sample_raw 10 100 100).
Proof.
  destruct (proj2 (proj2 (expand_region_clipped sample_raw 10 100 100)))
    as [(H1 & _ & H2 & _) H3]; try (simpl; lia).
  split; [exact H1|]. split; [exact H2|]. apply H3; simpl; lia.
Defined.

(** X3. The corner test never holds of a region against itself, nor
    against a region of the same bbox.  When it holds of [a] against [b],
    [a] has a positive width and height, and the two bboxes share a point
    when [b] is well formed. *)
Theorem intersect_overlap a b :
  intersect a a = false
  /\ ((min_x a, min_y a, max_x a, max_y a)
      = (min_x b, min_y b, max_x b, max_y b) -> intersect a b = false)
  /\ (intersect a b = true ->
      min_x a < max_x a /\ min_y a < max_y a
      /\ (well_formed_bbox b ->
          Z.max (min_x a) (min_x b) <= Z.min (max_x a) (max_x b)
          /\ Z.max (min_y a) (min_y b) <= Z.min (max_y a) (max_y b))).
Proof.
  split; [|split].
  - apply not_true_is_false. rewrite intersect_spec. lia.
  - intros [= Hx0 Hy0 Hx1 Hy1]. apply not_true_is_false.
    rewrite intersect_spec. lia.
  - rewrite intersect_spec. unfold well_formed_bbox. lia.
Qed.

Lemma intersect_overlap_witness :
  intersect (sample_region 0 0 10 10 50 7) (sample_region 5 5 15 15 40 8)
  = true
  /\ Z.max 0 5 <= Z.min 10 15.
Proof.
  assert (H : intersect (sample_region 0 0 10 10 50 7)
                (sample_region 5 5 15 15 40 8) = true) by reflexivity.
  split; [exact H|].
  destruct (proj2 (proj2 (intersect_overlap
                            (sample_region 0 0 10 10 50 7)
                            (sample_region 5 5 15 15 40 8))) H)
    as (_ & _ & Hwf).
  apply Hwf. unfold well_formed_bbox. simpl. lia.
Defined.

(** ** The similarity model *)

Lemma Qsum_Forall2_eq (l1 l2 : list Q) :
  Forall2 Qeq l1 l2 -> (Qsum l1 == Qsum l2)%Q.
Proof.
  induction 1 as [|x y l1 l2 Hxy _ IH]; [reflexivity|].
  rewrite !Qsum_cons, Hxy, IH. reflexivity.
Qed.

Lemma Qsum_nonneg (l : list Q) :
  Forall (fun x => 0 <= x)%Q l -> (0 <= Qsum l)%Q.
Proof.
  induction 1 as [|x l Hx _ IH]; [apply Qle_refl|].
  rewrite Qsum_cons. replace 0%Q with (0 + 0)%Q by reflexivity.
  by apply Qplus_le_compat.
Qed.

Lemma hist_intersection_comm h1 h2 :
  (hist_intersection h1 h2 == hist_intersection h2 h1)%Q.
Proof.
  unfold hist_intersection. apply Qsum_Forall2_eq.
  revert h2. induction h1 as [|a h1 IH]; intros [|b h2]; simpl.
  - constructor.
  - constructor.
  - constructor.
  - constructor; [apply Q.min_comm | apply IH].
Qed.

Lemma hist_intersection_bounds h1 h2 :
  Forall (fun x => 0 <= x)%Q h1 -> Forall (fun x => 0 <= x)%Q h2 ->
  (0 <= hist_intersection h1 h2 <= Qsum h1)%Q.
Proof.
  unfold hist_intersection. intros H1. revert h2.
  induction H1 as [|a h1 Ha H1 IH]; intros h2 H2.
  - simpl. split; apply Qle_refl.
  - destruct H2 as [|b h2 Hb H2]; simpl.
    + split; [apply Qle_refl|]. apply Qsum_nonneg. by constructor.
    + destruct (IH _ H2) as [IHl IHu]. rewrite !Qsum_cons. split.
      * replace 0%Q with (0 + 0)%Q by reflexivity.
        apply Qplus_le_compat; [by apply Q.min_glb | done].
      * apply Qplus_le_compat; [apply Q.le_min_l | done].
Qed.

(** X4. The similarity of two regions does not depend on their order, and
    so for each of its four terms. *)
Theorem calc_sim_symmetric r1 r2 imsize :
  (_sim_colour r1 r2 == _sim_colour r2 r1)%Q
  /\ (_sim_texture r1 r2 == _sim_texture r2 r1)%Q
  /\ (_sim_size r1 r2 imsize == _sim_size r2 r1 imsize)%Q
  /\ (_sim_fill r1 r2 imsize == _sim_fill r2 r1 imsize)%Q
  /\ (_calc_sim r1 r2 imsize == _calc_sim r2 r1 imsize)%Q.
Proof.
  assert (Hc : (_sim_colour r1 r2 == _sim_colour r2 r1)%Q)
    by apply hist_intersection_comm.
  assert (Ht : (_sim_texture r1 r2 == _sim_texture r2 r1)%Q)
    by apply hist_intersection_comm.
  assert (Hs : (_sim_size r1 r2 imsize == _sim_size r2 r1 imsize)%Q).
  { unfold _sim_size. by rewrite (Z.add_comm (size r1)). }
  assert (Hf : (_sim_fill r1 r2 imsize == _sim_fill r2 r1 imsize)%Q).
  { unfold _sim_fill.
    rewrite (Z.max_comm (max_x r1)), (Z.max_comm (max_y r1)),
      (Z.min_comm (min_x r1)), (Z.min_comm (min_y r1)).
    match goal with
    | |- (1 - inject_Z ?a / _ == 1 - inject_Z ?b / _)%Q =>
        replace a with b by lia
    end.
    reflexivity. }
  repeat split; try done.
  unfold _calc_sim. by rewrite Hc, Ht, Hs, Hf.
Qed.

(** X5. On histograms without negative entries the colour and the texture
    similarities are not negative and are at most the sum of either
    histogram. *)
Theorem sim_colour_texture_bounds r1 r2 :
  Forall (fun x => 0 <= x)%Q (hist_c r1) ->
  Forall (fun x => 0 <= x)%Q (hist_c r2) ->
  Forall (fun x => 0 <= x)%Q (hist_t r1) ->
  Forall (fun x => 0 <= x)%Q (hist_t r2) ->
  (0 <= _sim_colour r1 r2)%Q
  /\ (_sim_colour r1 r2 <= Qsum (hist_c r1))%Q
  /\ (_sim_colour r1 r2 <= Qsum (hist_c r2))%Q
  /\ (0 <= _sim_texture r1 r2)%Q
  /\ (_sim_texture r1 r2 <= Qsum (hist_t r1))%Q
  /\ (_sim_texture r1 r2 <= Qsum (hist_t r2))%Q.
Proof.
  intros Hc1 Hc2 Ht1 Ht2. unfold _sim_colour, _sim_texture.
  destruct (hist_intersection_bounds _ _ Hc1 Hc2) as [? ?].
  destruct (hist_intersection_bounds _ _ Hc2 Hc1) as [_ ?].
  destruct (hist_intersection_bounds _ _ Ht1 Ht2) as [? ?].
  destruct (hist_intersection_bounds _ _ Ht2 Ht1) as [_ ?].
  repeat split; try done.
  - by rewrite hist_intersection_comm.
  - by rewrite hist_intersection_comm.
Qed.

Lemma sim_colour_texture_bounds_witness :
  (0 <= _sim_colour (sample_region 0 0 10 10 50 7)
          (sample_region 5 5 15 15 40 8))%Q
  /\ (_sim_colour (sample_region 0 0 10 10 50 7)
        (sample_region 5 5 15 15 40 8) <= 1)%Q.
Proof.
  assert (Hpos : Forall (fun x => 0 <= x)%Q [1%Q])
    by (repeat constructor; discriminate).
  destruct (sim_colour_texture_bounds
              (sample_region 0 0 10 10 50 7) (sample_region 5 5 15 15 40 8)
              Hpos Hpos Hpos Hpos)
    as (H0 & H1 & _).
  split; [exact H0 | exact H1].
Defined.




(** ** The greedy choice and the errors of an iteration *)

(** X7. The pair that an iteration selects has the highest similarity of
    the dictionary, and is the last entry of the dictionary among those of
    that similarity; there is nothing to select in an empty dictionary, where
    the index [-1] is out of range. *)
Theorem select_edge_maximal S :
  (S = [] -> select_edge S = inl IndexError)
  /\ (forall e,
        select_edge S = inr e ->
        exists v,
          (e, v) ∈ S
          /\ (forall kv, kv ∈ S -> (kv.2 <= v)%Q)
          /\ last (List.filter (score_is v) S) = Some (e, v)).
Proof.
  split; [by intros ->|].
  intros e. unfold select_edge.
  destruct (last (sorted_by_score S)) as [[e' v]|] eqn:Hl; simpl; [|done].
  intros [= ->]. exists v.
  pose proof (sorted_by_score_stable_sorted S) as Hs.
  split; [|split].
  - rewrite <- (sorted_by_score_perm S). by apply last_Some_elem_of.
  - intros kv Hkv. apply (stable_sorted_last_max _ _ _ _ Hs Hl Hkv).
  - apply (stable_sorted_last_tie _ _ _ Hs Hl).
Qed.

Lemma select_edge_maximal_witness :
  exists v,
    ((1, 2), v) ∈ st_S sample_state
    /\ (forall kv, kv ∈ st_S sample_state -> (kv.2 <= v)%Q)
    /\ last (List.filter (score_is v) (st_S sample_state)) = Some ((1, 2), v).
Proof.
  exact (proj2 (select_edge_maximal (st_S sample_state)) (1, 2) sample_select).
Defined.

Section StepErrors.
Variable max_region_size : Z.
Variable imsize : Z.

Lemma merge_loop_raise st e :
  st_S st <> [] ->
  merge_step max_region_size imsize st = inl e ->
  hierarchical_search max_region_size imsize st = Some (inl e).
Proof.
  intros HS Hstep. unfold hierarchical_search.
  destruct (st_S st) as [|kv S] eqn:HSeq; [done|].
  cbn [length merge_loop]. by rewrite HSeq, Hstep.
Qed.

(** X8. An iteration raises when the table cannot serve it: [ValueError]
    from [max] on an empty table, and [KeyError] when the selected pair names
    a region that the table does not hold.  The loop then ends with that
    exception. *)
Theorem merge_step_errors st i j :
  select_edge (st_S st) = inr (i, j) ->
  (st_R st = [] ->
   merge_step max_region_size imsize st = inl ValueError
   /\ hierarchical_search max_region_size imsize st = Some (inl ValueError))
  /\ (st_R st <> [] ->
      i ∉ dict_keys (st_R st) \/ j ∉ dict_keys (st_R st) ->
      merge_step max_region_size imsize st = inl KeyError
      /\ hierarchical_search max_region_size imsize st = Some (inl KeyError)).
Proof.
  intros Hsel. pose proof (select_edge_inv _ _ Hsel) as HS.
  assert (Hraise : forall e,
    merge_step max_region_size imsize st = inl e ->
    merge_step max_region_size imsize st = inl e
    /\ hierarchical_search max_region_size imsize st = Some (inl e)).
  { intros e He. split; [done | by apply merge_loop_raise]. }
  split.
  - intros HR. apply Hraise. unfold merge_step. rewrite Hsel.
    cbn [bind fst snd]. unfold merge_at. by rewrite HR.
  - intros HR Hmiss. apply Hraise. unfold merge_step. rewrite Hsel.
    cbn [bind fst snd]. unfold merge_at.
    destruct (max_key_nonempty _ HR) as [m ->]. cbn [bind].
    destruct (dict_get (st_R st) i) as [ri|] eqn:Hi; [|done].
    destruct (dict_get (st_R st) j) as [rj|] eqn:Hj; [|done].
    destruct Hmiss as [Hmiss|Hmiss]; exfalso; apply Hmiss;
      apply dict_get_is_Some; eauto.
Qed.
End StepErrors.

Lemma merge_step_errors_witness :
  merge_step 3000 400 dangling_state = inl KeyError
  /\ hierarchical_search 3000 400 dangling_state = Some (inl KeyError).
Proof.
  apply (proj2 (merge_step_errors 3000 400 dangling_state 0 5 eq_refl)).
  - discriminate.
  - right. apply (bool_decide_unpack _). vm_compute. exact I.
Defined.

(** ** The neighbour graph *)

Lemma elem_of_combine_seq {A} (l : list A) (n i : nat) (x : A) :
  (i, x) ∈ combine (seq n (length l)) l
  <-> (n <= i)%nat /\ l !! (i - n)%nat = Some x.
Proof.
  revert n. induction l as [|y l IH]; intros n; simpl.
  - rewrite elem_of_nil. split; [done | by intros [_ ?]].
  - rewrite elem_of_cons, IH. split.
    + intros [[= -> ->]|[Hle Hl]].
      * split; [lia|]. by rewrite Nat.sub_diag.
      * split; [lia|]. by replace (i - n)%nat with (S (i - S n)) by lia.
    + intros [Hle Hl]. destruct (decide (i = n)) as [->|Hne].
      * left. rewrite Nat.sub_diag in Hl. simpl in Hl. congruence.
      * right. split; [lia|].
        by replace (i - n)%nat with (S (i - S n)) in Hl by lia.
Qed.

Lemma elem_of_enumerate_lookup {A} (l : list A) (i : nat) (x : A) :
  (i, x) ∈ enumerate l <-> l !! i = Some x.
Proof.
  unfold enumerate. rewrite elem_of_combine_seq, Nat.sub_0_r.
  split; [by intros [_ ?] | intros ?; split; [lia | done]].
Qed.

Lemma map_snd_combine_seq {A} (l : list A) (n : nat) :
  map snd (combine (seq n (length l)) l) = l.
Proof.
  revert n. induction l as [|y l IH]; intros n; simpl; [done|].
  by rewrite IH.
Qed.

Lemma lookup_removelast {A} (l : list A) (i : nat) :
  removelast l !! i = if decide (S i < length l)%nat then l !! i else None.
Proof.
  rewrite removelast_firstn_len.
  destruct (decide (S i < length l)%nat) as [Hlt|Hge].
  - apply lookup_take_lt. lia.
  - apply lookup_ge_None. rewrite length_take. lia.
Qed.

(** The pairs that the position [ca.1], of item [ca.2], contributes. *)
Lemma extract_neighbours_inner (a : item) (cur : nat)
    (l : list (nat * item)) (nm : list (item * item) * list bool) :
  (fold_left
     (fun nm cb =>
        if intersect a.2 cb.2.2 then
          (nm.1 ++ [(a, cb.2)],
           <[(cur + cb.1 + 1)%nat := true]> (<[cur := true]> nm.2))
        else nm)
     l nm).1
  = nm.1 ++ map (fun b => (a, b))
              (List.filter (fun b => intersect a.2 b.2) (map snd l)).
Proof.
  revert nm. induction l as [|[cur2 b] l IH]; intros nm; simpl.
  - by rewrite app_nil_r.
  - rewrite IH. destruct (intersect a.2 b.2); simpl; [|done].
    by rewrite <- app_assoc.
Qed.

Lemma extract_neighbours_fst (R : dict Z region) :
  (_extract_neighbours R).1
  = flat_map
      (fun ca => map (fun b => (ca.2, b))
                   (List.filter (fun b => intersect ca.2.2 b.2)
                                (drop (ca.1 + 1) R)))
      (enumerate (removelast R)).
Proof.
  unfold _extract_neighbours.
  assert (Hgen : forall (l : list (nat * item))
                        (acc : list (item * item) * list bool),
    (fold_left
       (fun acc ca =>
          fold_left
            (fun nm cb =>
               if intersect ca.2.2 cb.2.2 then
                 (nm.1 ++ [(ca.2, cb.2)],
                  <[(ca.1 + cb.1 + 1)%nat := true]> (<[ca.1 := true]> nm.2))
               else nm)
            (enumerate (drop (ca.1 + 1) R)) acc)
       l acc).1
    = acc.1 ++ flat_map
        (fun ca => map (fun b => (ca.2, b))
                     (List.filter (fun b => intersect ca.2.2 b.2)
                                  (drop (ca.1 + 1) R))) l).
  { induction l as [|ca l IH]; intros acc; simpl.
    - by rewrite app_nil_r.
    - rewrite IH, extract_neighbours_inner. unfold enumerate.
      rewrite map_snd_combine_seq. by rewrite <- app_assoc. }
  by rewrite Hgen.
Qed.

Lemma extract_neighbours_elem_iff (R : dict Z region) (a b : item) :
  (a, b) ∈ (_extract_neighbours R).1
  <-> exists i j,
        (i < j)%nat /\ R !! i = Some a /\ R !! j = Some b
        /\ intersect a.2 b.2 = true.
Proof.
  rewrite extract_neighbours_fst, list_elem_of_In, in_flat_map. split.
  - intros ([cur a'] & Hca & Hin). simpl in Hin.
    apply in_map_iff in Hin as (b' & [= <- <-] & Hb).
    apply filter_In in Hb as [Hb Hint].
    apply list_elem_of_In, elem_of_enumerate_lookup in Hca.
    rewrite lookup_removelast in Hca. case_decide; [|done].
    apply list_elem_of_In, list_elem_of_lookup in Hb as [k Hk].
    rewrite lookup_drop in Hk.
    exists cur, (cur + 1 + k)%nat. split; [lia|]. done.
  - intros (i & j & Hij & Hi & Hj & Hint).
    exists (i, a). split.
    + apply list_elem_of_In, elem_of_enumerate_lookup.
      rewrite lookup_removelast, decide_True; [done|].
      apply lookup_lt_Some in Hj. unfold item, dict in *. lia.
    + simpl. apply in_map_iff. exists b. split; [done|].
      apply filter_In. split; [|done].
      apply list_elem_of_In, list_elem_of_lookup.
      exists (j - (i + 1))%nat. rewrite lookup_drop.
      by replace (i + 1 + (j - (i + 1)))%nat with j by lia.
Qed.

Lemma insert_true_lookup (l : list bool) (k i : nat) :
  l !! i = Some true -> <[k := true]> l !! i = Some true.
Proof.
  intros Hi. destruct (decide (k = i)) as [->|Hne].
  - apply list_lookup_insert_eq. by eapply lookup_lt_Some.
  - by rewrite list_lookup_insert_ne.
Qed.

(** The flags of the two positions of every pair found are set. *)
Lemma extract_neighbours_mask (R : dict Z region) :
  length (_extract_neighbours R).2 = length R
  /\ forall a b,
       (a, b) ∈ (_extract_neighbours R).1 ->
       exists i j,
         R !! i = Some a /\ R !! j = Some b
         /\ (_extract_neighbours R).2 !! i = Some true
         /\ (_extract_neighbours R).2 !! j = Some true.
Proof.
  unfold _extract_neighbours.
  set (P := fun nm : list (item * item) * list bool =>
    length nm.2 = length R
    /\ forall a b, (a, b) ∈ nm.1 ->
         exists i j, R !! i = Some a /\ R !! j = Some b
                     /\ nm.2 !! i = Some true /\ nm.2 !! j = Some true).
  match goal with |- length (fold_left ?f ?l ?a).2 = _ /\ _ =>
    change (P (fold_left f l a)) end.
  apply fold_left_invariant.
  - intros acc [cur a] Ha Hacc. cbn [fst snd].
    apply elem_of_enumerate_lookup in Ha.
    rewrite lookup_removelast in Ha. case_decide as Hcur; [|done].
    apply fold_left_invariant; [|done].
    intros nm [cur2 b] Hb [Hlen Hnm]. cbn [fst snd].
    apply elem_of_enumerate_lookup in Hb. rewrite lookup_drop in Hb.
    destruct (intersect a.2 b.2); [|done].
    assert (Hj : (cur + cur2 + 1 < length R)%nat).
    { apply lookup_lt_Some in Hb. unfold item, dict in *. lia. }
    split; cbn [fst snd].
    + by rewrite !length_insert.
    + intros a' b'. rewrite elem_of_app, list_elem_of_singleton.
      intros [Hin|[= -> ->]].
      * destruct (Hnm _ _ Hin) as (i & j & Hi & Hj' & Hmi & Hmj).
        exists i, j. split; [done|]. split; [done|].
        split; by do 2 apply insert_true_lookup.
      * exists cur, (cur + cur2 + 1)%nat. split; [done|].
        split; [by replace (cur + cur2 + 1)%nat with (cur + 1 + cur2)%nat by lia|].
        split.
        -- apply insert_true_lookup, list_lookup_insert_eq.
           unfold item, dict in *. lia.
        -- apply list_lookup_insert_eq. rewrite length_insert.
           unfold item, dict in *. lia.
  - split; cbn [fst snd]; [apply length_replicate|].
    by intros a b ?%elem_of_nil.
Qed.

Lemma foldM_unit {B} (f : unit -> B -> result unit) (l : list B) :
  (forall x, x ∈ l -> f tt x = inr tt) -> foldM f l tt = inr tt.
Proof.
  induction l as [|x l IH]; intros Hf; simpl; [done|].
  rewrite Hf by left. cbn [bind]. apply IH. intros y Hy. apply Hf. by right.
Qed.

(** X10. On a table of distinct keys the self-check that ends
    [_extract_neighbours] never fails: the mask has a flag for every entry,
    the flags of both entries of every pair found are set, and no entry whose
    flag is unset is the second of a pair. *)
Theorem neighbours_self_check_passes (R : dict Z region) :
  NoDup (dict_keys R) ->
  neighbours_self_check R = inr tt
  /\ length (_extract_neighbours R).2 = length R
  /\ (forall a b,
        (a, b) ∈ (_extract_neighbours R).1 ->
        exists i j,
          R !! i = Some a /\ R !! j = Some b
          /\ (_extract_neighbours R).2 !! i = Some true
          /\ (_extract_neighbours R).2 !! j = Some true).
Proof.
  intros Hnd. destruct (extract_neighbours_mask R) as [Hlen Hmask].
  split; [|done].
  unfold neighbours_self_check, check_neighbours_mask.
  apply foldM_unit. intros [i flag] Hi. cbn [fst snd].
  destruct flag; [done|].
  apply elem_of_enumerate_lookup in Hi.
  destruct (lookup_lt_is_Some_2 R i) as [x Hx].
  { apply lookup_lt_Some in Hi. unfold item, dict in *. lia. }
  unfold item in *. rewrite Hx.
  cbn [of_option bind]. rewrite bool_decide_eq_false_2; [done|].
  intros Hin. apply list_elem_of_fmap in Hin as ([a b] & Hkey & Hab).
  simpl in Hkey.
  destruct (Hmask _ _ Hab) as (i' & j & _ & Hj & _ & Hmj).
  assert (i = j); [|congruence].
  apply (NoDup_lookup (dict_keys R) i j x.1); [done|..];
    unfold dict_keys; rewrite list_lookup_fmap.
  - exact (f_equal (fmap fst) Hx).
  - rewrite Hkey. exact (f_equal (fmap fst) Hj).
Qed.

Lemma neighbours_self_check_passes_witness :
  neighbours_self_check sample_table = inr tt.
Proof.
  apply (neighbours_self_check_passes sample_table).
  apply (bool_decide_unpack _). vm_compute. exact I.
Defined.

(** ** The expanded table *)

Lemma expand_regions_fold (border x_lim y_lim : Z)
    (l : list (Z * raw_region)) (n : nat) (acc : dict Z region) :
  (forall k, k ∈ dict_keys acc -> k < Z.of_nat n) ->
  fold_left
    (fun R_new ir =>
       dict_set R_new (Z.of_nat ir.1) (expand_region ir.2.2 border x_lim y_lim))
    (combine (seq n (length l)) l) acc
  = acc ++ map (fun ir => (Z.of_nat ir.1,
                           expand_region ir.2.2 border x_lim y_lim))
             (combine (seq n (length l)) l).
Proof.
  revert n acc. induction l as [|kr l IH]; intros n acc Hacc; simpl.
  - by rewrite app_nil_r.
  - rewrite dict_set_fresh.
    2:{ intros Hin%Hacc. lia. }
    rewrite IH.
    + by rewrite <- app_assoc.
    + intros k. rewrite dict_keys_app, elem_of_app. simpl.
      intros [Hk%Hacc|Hk%list_elem_of_singleton]; lia.
Qed.

Lemma expand_regions_eq (regions : dict Z raw_region) border x_lim y_lim :
  _expand_regions regions border x_lim y_lim
  = map (fun ir => (Z.of_nat ir.1, expand_region ir.2.2 border x_lim y_lim))
        (enumerate regions).
Proof.
  unfold _expand_regions, enumerate.
  rewrite expand_regions_fold; [done|]. by intros k ?%elem_of_nil.
Qed.

Lemma lookup_enumerate {A} (l : list A) (i : nat) :
  enumerate l !! i = (fun x => (i, x)) <$> l !! i.
Proof.
  unfold enumerate.
  assert (Hgen : forall n, combine (seq n (length l)) l !! i
                           = (fun x => ((n + i)%nat, x)) <$> l !! i).
  { revert i. induction l as [|y l IH]; intros i n; simpl; [done|].
    destruct i as [|i]; simpl.
    - by rewrite Nat.add_0_r.
    - rewrite IH. by replace (S n + i)%nat with (n + S i)%nat by lia. }
  by rewrite Hgen.
Qed.

(** X11. The expanded table is keyed by position: its keys are 0, 1, ...
    in order, whatever the labels that keyed the regions, and the entry of
    key [i] is the expansion of the [i]-th region; there is no entry beyond
    the last position or before 0. *)
Theorem expand_regions_by_position (regions : dict Z raw_region)
    border x_lim y_lim :
  let R := _expand_regions regions border x_lim y_lim in
  dict_keys R = map Z.of_nat (seq 0 (length regions))
  /\ NoDup (dict_keys R)
  /\ (forall i : nat,
        dict_get R (Z.of_nat i)
        = (fun kr => expand_region kr.2 border x_lim y_lim) <$> regions !! i)
  /\ (forall k, k < 0 \/ Z.of_nat (length regions) <= k -> dict_get R k = None).
Proof.
  cbv zeta.
  assert (Hkeys : dict_keys (_expand_regions regions border x_lim y_lim)
                  = map Z.of_nat (seq 0 (length regions))).
  { rewrite expand_regions_eq. unfold dict_keys, enumerate.
    rewrite map_map. simpl.
    rewrite <- (map_map fst Z.of_nat). f_equal.
    generalize 0%nat. induction regions as [|kr l IH]; intros n; simpl; [done|].
    by rewrite IH. }
  assert (Hnd : NoDup (dict_keys (_expand_regions regions border x_lim y_lim))).
  { rewrite Hkeys. apply NoDup_fmap_2; [|apply NoDup_seq].
    intros a b. lia. }
  split; [done|]. split; [done|]. split.
  - intros i. destruct (regions !! i) as [kr|] eqn:Hi; simpl.
    + apply dict_get_elem_NoDup; [done|].
      rewrite expand_regions_eq. apply list_elem_of_lookup. exists i.
      rewrite list_lookup_fmap, lookup_enumerate.
      by rewrite (f_equal (fmap (fun x => (i, x))) Hi).
    + apply dict_get_None. rewrite Hkeys.
      intros (j & Hj & Hin)%list_elem_of_fmap.
      apply elem_of_seq in Hin. apply lookup_ge_None in Hi. lia.
  - intros k Hk. apply dict_get_None. rewrite Hkeys.
    intros (j & Hj & Hin)%list_elem_of_fmap.
    apply elem_of_seq in Hin. lia.
Qed.

(** ** Consumed regions *)

Lemma initial_state_no_reverse (R : dict Z region) imsize cfg :
  NoDup (dict_keys R) -> no_reverse (st_S (initial_state R imsize cfg).1).
Proof.
  intros Hnd k Hk. unfold initial_state in *. cbn [fst st_S] in *.
  assert (Hpos : forall k',
    k' ∈ dict_keys (apply_region_pop (region_pop cfg) R
                      (initial_similarities (_extract_neighbours R).1 imsize)
                      (max_region_size cfg)).1 ->
    exists i j, (i < j)%nat /\ dict_keys R !! i = Some k'.1
                /\ dict_keys R !! j = Some k'.2).
  { intros k' Hk'%apply_region_pop_keys.
    apply initial_similarities_keys in Hk' as ([a b] & Hab & ->).
    apply extract_neighbours_elem_iff in Hab as (i & j & Hij & Hi & Hj & _).
    exists i, j. split; [done|]. unfold dict_keys.
    rewrite !list_lookup_fmap. simpl.
    split; [exact (f_equal (fmap fst) Hi) | exact (f_equal (fmap fst) Hj)]. }
  destruct (Hpos _ Hk) as (i & j & Hij & Hi & Hj). split.
  - intros Heq. rewrite Heq in Hi.
    pose proof (NoDup_lookup _ _ _ _ Hnd Hi Hj). lia.
  - intros Hrev. destruct (Hpos _ Hrev) as (i' & j' & Hij' & Hi' & Hj').
    simpl in Hi', Hj'.
    pose proof (NoDup_lookup _ _ _ _ Hnd Hi Hj').
    pose proof (NoDup_lookup _ _ _ _ Hnd Hj Hi'). lia.
Qed.

Section Consumed.
Variable max_region_size : Z.
Variable imsize : Z.

(** The similarities right after the iteration that merges [i] and [j]
    have neither at an end. *)
Lemma step_consumes st st1 i j :
  edges_in_table st -> no_reverse (st_S st) ->
  select_edge (st_S st) = inr (i, j) ->
  merge_step max_region_size imsize st = inr st1 ->
  untouched i (st_S st1) /\ untouched j (st_S st1).
Proof.
  intros Hinv Hrev Hsel Hstep.
  destruct (merge_step_inv _ _ _ _ Hstep)
    as [i' j' m ri rj Hsel' Hmax Hi Hj HR HS].
  assert (i' = i /\ j' = j) as [-> ->] by (split; congruence).
  assert (Hold : forall k,
    k ∈ dict_keys (fold_left dict_del (stale_keys i j (st_S st)) (st_S st)) ->
    touches i k = false /\ touches j k = false).
  { intros k Hk. rewrite fold_del_stale in Hk.
    unfold dict_keys in Hk. apply list_elem_of_fmap in Hk as (kv & -> & Hkv).
    apply list_elem_of_In, filter_In in Hkv as [_ Hkv].
    by apply negb_true_iff, orb_false_iff in Hkv. }
  assert (Hall : forall k, k ∈ dict_keys (st_S st1) ->
                           touches i k = false /\ touches j k = false);
    [|split; intros k Hk; by apply Hall].
  destruct (max_region_size <? bbox_size (_merge_regions ri rj)).
  - rewrite HS. exact Hold.
  - intros k Hk.
    destruct (foldM_add_similarity_keys _ _ _ _ _ _ _ _ _ HS Hk)
      as [Hin|(k0 & Hk0 & ->)]; [by apply Hold|].
    apply elem_of_carried_keys in Hk0 as Hstale.
    apply elem_of_stale_keys in Hstale as [Htouch Hk0S].
    assert (Hne : k0 <> (i, j)).
    { unfold carried_keys in Hk0.
      apply list_elem_of_In, filter_In in Hk0 as [_ Hk0].
      by apply negb_true_iff, bool_decide_eq_false in Hk0. }
    destruct (Hrev _ Hk0S) as [Hirr Hnorev].
    destruct (Hrev _ (select_edge_elem _ _ Hsel)) as [Hij Hji]. simpl in Hij, Hji.
    pose proof (max_key_fresh _ _ Hmax) as Hfresh.
    assert (Hi' : i ∈ dict_keys (st_R st)) by (apply dict_get_is_Some; eauto).
    assert (Hj' : j ∈ dict_keys (st_R st)) by (apply dict_get_is_Some; eauto).
    assert (Hother : other_end i j k0 <> i /\ other_end i j k0 <> j).
    { destruct k0 as [a b]. unfold other_end, touches in *. simpl in *.
      repeat case_bool_decide; simpl in *; subst; try done;
        split; try congruence; intros ->; try done;
        try (by apply Hne); try (by apply Hji). }
    rewrite !touches_false. simpl.
    repeat split; try (intros ->; done); intros Heq; by destruct Hother.
Qed.

Lemma step_no_reverse st st' :
  edges_in_table st -> no_reverse (st_S st) ->
  merge_step max_region_size imsize st = inr st' ->
  no_reverse (st_S st').
Proof.
  intros Hinv Hrev Hstep.
  assert (Hnew : forall k, k ∈ dict_keys (st_S st') ->
    k ∈ dict_keys (st_S st)
    \/ ((k.1 ∉ dict_keys (st_R st)) /\ (k.2 ∈ dict_keys (st_R st)))).
  { intros k Hk.
    destruct (step_keys _ _ _ _ _ Hstep Hk)
      as [Hin|(m & k0 & Hm & Hk0 & H1 & H2)]; [by left|].
    right. destruct (Hinv _ Hk0) as [? ?]. split.
    - rewrite H1. by apply max_key_fresh.
    - by destruct H2 as [-> | ->]. }
  intros k Hk. destruct (Hnew _ Hk) as [Hold|[Hfresh Hin]].
  - destruct (Hrev _ Hold) as [Hirr Hnorev]. split; [done|].
    intros Hr. destruct (Hnew _ Hr) as [Hold'|[Hfresh' _]]; [done|].
    simpl in Hfresh'. by destruct (Hinv _ Hold) as [_ ?].
  - split; [by intros Heq; rewrite Heq in Hfresh|].
    intros Hr. destruct (Hnew _ Hr) as [Hold'|[Hfresh' _]].
    + destruct (Hinv _ Hold') as [_ ?]. done.
    + done.
Qed.

(** X12. A region that a merge has consumed never merges again: in a run
    from a state whose similarities join distinct regions of the table, one
    way only, no similarity of any later state has a merged region at an
    end, and no later iteration selects it. *)
Theorem consumed_region_never_selected st st1 st2 i j :
  edges_in_table st -> no_reverse (st_S st) ->
  select_edge (st_S st) = inr (i, j) ->
  merge_step max_region_size imsize st = inr st1 ->
  reaches max_region_size imsize st1 st2 ->
  untouched i (st_S st2) /\ untouched j (st_S st2)
  /\ (forall e, select_edge (st_S st2) = inr e ->
                e.1 <> i /\ e.2 <> i /\ e.1 <> j /\ e.2 <> j)
  /\ edges_in_table st2 /\ no_reverse (st_S st2).
Proof.
  intros Hinv Hrev Hsel Hstep Hreach.
  destruct (step_consumes _ _ _ _ Hinv Hrev Hsel Hstep) as [Hi1 Hj1].
  destruct (merge_step_inv _ _ _ _ Hstep)
    as [i' j' m ri rj Hsel' _ Hi Hj HR _].
  assert (i' = i /\ j' = j) as [-> ->] by (split; congruence).
  assert (Hin : forall k r, dict_get (st_R st) k = Some r ->
                            k ∈ dict_keys (st_R st1)).
  { intros k r Hk. rewrite HR, dict_keys_app, elem_of_app. left.
    apply dict_get_is_Some. eauto. }
  assert (Hi2 : untouched i (st_S st2)).
  { eapply reach_untouched; [exact (Hin _ _ Hi) | exact Hi1 | exact Hreach]. }
  assert (Hj2 : untouched j (st_S st2)).
  { eapply reach_untouched; [exact (Hin _ _ Hj) | exact Hj1 | exact Hreach]. }
  split; [done|]. split; [done|]. split; [|split].
  - intros e He%select_edge_elem.
    pose proof (Hi2 _ He) as [? ?]%touches_false.
    pose proof (Hj2 _ He) as [? ?]%touches_false. by repeat split.
  - eapply reach_edges_in_table; [|exact Hreach].
    by eapply step_edges_in_table.
  - clear Hi2 Hj2 Hi1 Hj1.
    assert (Hinv1 : edges_in_table st1) by (by eapply step_edges_in_table).
    assert (Hrev1 : no_reverse (st_S st1)).
    { eapply step_no_reverse; [exact Hinv | exact Hrev | exact Hstep]. }
    clear -Hinv1 Hrev1 Hreach.
    induction Hreach as [|sa sb sc [_ Hab] _ IH]; [done|].
    apply IH; [by eapply step_edges_in_table|].
    eapply step_no_reverse; [exact Hinv1 | exact Hrev1 | exact Hab].
Qed.
End Consumed.

Lemma consumed_region_never_selected_witness :
  untouched 1 (st_S sample_state_2) /\ untouched 2 (st_S sample_state_2).
Proof.
  destruct (consumed_region_never_selected 3000 400
              sample_state sample_state_1 sample_state_2 1 2)
    as (H1 & H2 & _).
  - apply initial_state_edges_in_table.
  - apply initial_state_no_reverse.
    apply (bool_decide_unpack _). vm_compute. exact I.
  - exact sample_select.
  - exact sample_step.
  - exact sample_reaches.
  - split; [exact H1 | exact H2].
Defined.

(** ** Runs of the loop that raise nothing *)

Section Completes.
Variable max_region_size : Z.
Variable imsize : Z.

Lemma merge_loop_table fuel st st' :
  merge_loop max_region_size imsize fuel st = Some (inr st') ->
  exists ext,
    st_R st' = st_R st ++ ext /\ (length ext <= length (st_S st))%nat.
Proof.
  revert st. induction fuel as [|fuel IH]; intros st; simpl.
  - destruct (st_S st) eqn:HS; [|done].
    intros [= <-]. exists []. by rewrite app_nil_r.
  - destruct (st_S st) as [|kv S] eqn:HS.
    + intros [= <-]. exists []. by rewrite app_nil_r.
    + destruct (merge_step max_region_size imsize st) as [e|st1] eqn:Hstep;
        [done|].
      intros (ext & Hext & Hlen)%IH.
      destruct (step_table _ _ _ _ Hstep) as (m & r & _ & HR).
      pose proof (merge_step_length _ _ _ _ Hstep) as Hlt.
      exists ((m + 1, r) :: ext). split.
      * rewrite Hext, HR. by rewrite <- app_assoc.
      * rewrite HS in Hlt. simpl in *. lia.
Qed.

(** X13. From a state whose similarities all join regions of the table the
    loop raises nothing: it ends without similarities, having added at most
    one region per similarity it started with at the end of the table, and
    having changed no entry that was there. *)
Theorem merge_loop_completes st :
  edges_in_table st ->
  exists st' ext,
    hierarchical_search max_region_size imsize st = Some (inr st')
    /\ st_S st' = []
    /\ st_R st' = st_R st ++ ext
    /\ (length ext <= length (st_S st))%nat
    /\ (forall k r, dict_get (st_R st) k = Some r ->
                    dict_get (st_R st') k = Some r).
Proof.
  intros Hinv.
  destruct (merge_loop_ok max_region_size imsize (length (st_S st)) st Hinv)
    as (st' & Hloop & Hreach & Hnil); [done|].
  destruct (merge_loop_table _ _ _ Hloop) as (ext & Hext & Hlen).
  exists st', ext. split; [exact Hloop|]. split; [done|]. split; [done|].
  split; [done|]. intros k r Hk. rewrite Hext. by apply dict_get_app_l.
Qed.
End Completes.

Lemma merge_loop_completes_witness :
  exists st' ext,
    hierarchical_search 3000 400 sample_state = Some (inr st')
    /\ st_S st' = []
    /\ st_R st' = st_R sample_state ++ ext
    /\ (length ext <= length (st_S sample_state))%nat
    /\ (forall k r, dict_get (st_R sample_state) k = Some r ->
                    dict_get (st_R st') k = Some r).
Proof.
  exact (merge_loop_completes 3000 400 sample_state
           (initial_state_edges_in_table sample_table 400 default_config)).
Defined.

(** ** The [region_pop] pass *)

Lemma pop_scan_inner (t : Z) (ks ktd : list edge) (k' : edge) :
  k' ∈ fold_left
         (fun key_to_delete k =>
            if touches t k then
              if bool_decide (k ∈ key_to_delete) then key_to_delete
              else key_to_delete ++ [k]
            else key_to_delete)
         ks ktd
  <-> k' ∈ ktd \/ (k' ∈ ks /\ touches t k' = true).
Proof.
  revert ktd. induction ks as [|k ks IH]; intros ktd; simpl.
  - rewrite elem_of_nil. tauto.
  - rewrite IH, elem_of_cons. destruct (touches t k) eqn:Ht.
    + case_bool_decide as Hin.
      * split; [tauto|]. intros [?|[[->|?] ?]]; tauto.
      * rewrite elem_of_app, list_elem_of_singleton.
        split; [intros [[? | ->] | ?]; tauto|]. intros [?|[[->|?] ?]]; tauto.
    + split; [tauto|]. intros [?|[[->|?] ?]]; [tauto|congruence|tauto].
Qed.

Lemma pop_scan_spec (R : dict Z region) (S : dict edge Q) (cap : Z) :
  (pop_scan R S cap).2
  = (List.filter (fun tr => cap <? bbox_size tr.2) R).*1
  /\ forall k,
       k ∈ (pop_scan R S cap).1
       <-> k ∈ dict_keys S
           /\ exists t, t ∈ (pop_scan R S cap).2 /\ touches t k = true.
Proof.
  unfold pop_scan.
  assert (Hgen : forall (l : dict Z region) (acc : list edge * list Z),
    let res :=
      fold_left
        (fun acc tr =>
           if cap <? bbox_size tr.2 then
             (fold_left
                (fun key_to_delete k =>
                   if touches tr.1 k then
                     if bool_decide (k ∈ key_to_delete) then key_to_delete
                     else key_to_delete ++ [k]
                   else key_to_delete)
                (dict_keys S) acc.1,
              acc.2 ++ [tr.1])
           else acc)
        l acc in
    res.2 = acc.2 ++ (List.filter (fun tr => cap <? bbox_size tr.2) l).*1
    /\ forall k,
         k ∈ res.1
         <-> k ∈ acc.1
             \/ (k ∈ dict_keys S
                 /\ exists t,
                      t ∈ (List.filter (fun tr => cap <? bbox_size tr.2) l).*1
                      /\ touches t k = true)).
  { induction l as [|[t r] l IH]; intros acc; cbv zeta; simpl.
    - rewrite app_nil_r. split; [done|]. intros k. split; [tauto|].
      intros [?|[_ (t & Ht & _)]]; [done|]. by apply elem_of_nil in Ht.
    - destruct (cap <? bbox_size r) eqn:Hcap; simpl.
      + destruct (IH (fold_left
                        (fun key_to_delete k =>
                           if touches t k then
                             if bool_decide (k ∈ key_to_delete)
                             then key_to_delete else key_to_delete ++ [k]
                           else key_to_delete)
                        (dict_keys S) acc.1, acc.2 ++ [t])) as [IH2 IH1].
        cbn [fst snd] in IH1, IH2. split.
        * rewrite IH2. by rewrite <- app_assoc.
        * intros k. rewrite IH1, pop_scan_inner. split.
          -- intros [[?|[? ?]]|[? (t' & Ht' & ?)]]; [tauto|..].
             ++ right. split; [done|]. exists t. split; [left|done].
             ++ right. split; [done|]. exists t'. split; [by right|done].
          -- intros [?|[? (t' & Ht' & ?)]]; [tauto|].
             apply elem_of_cons in Ht' as [->|Ht'].
             ++ left. right. done.
             ++ right. split; [done|]. by exists t'.
      + apply IH. }
  destruct (Hgen R ([], [])) as [H2 H1]. cbv zeta in *. cbn [fst snd] in *.
  split; [exact H2|].
  intros k. rewrite H1, H2. simpl. rewrite elem_of_nil. tauto.
Qed.

Lemma apply_region_pop_spec (R : dict Z region) (S : dict edge Q) (cap : Z) :
  let sp := apply_region_pop true R S cap in
  sp.2 = (List.filter (fun tr => cap <? bbox_size tr.2) R).*1
  /\ sp.1 = List.filter
              (fun kv => negb (existsb (fun t => touches t kv.1) sp.2)) S
  /\ (forall t, t ∈ sp.2 -> untouched t sp.1)
  /\ apply_region_pop false R S cap = (S, []).
Proof.
  cbv zeta. unfold apply_region_pop. cbn [fst snd].
  destruct (pop_scan_spec R S cap) as [H2 H1].
  assert (Hfilter :
    fold_left dict_del (pop_scan R S cap).1 S
    = List.filter
        (fun kv => negb (existsb (fun t => touches t kv.1) (pop_scan R S cap).2))
        S).
  { rewrite fold_del_filter. apply List.filter_ext_in. intros kv Hkv.
    f_equal. destruct (existsb _ _) eqn:Hex.
    - apply bool_decide_eq_true_2, H1. split.
      + unfold dict_keys. by apply list_elem_of_fmap_2, list_elem_of_In.
      + apply existsb_exists in Hex as (t & Ht & Htouch).
        exists t. split; [by apply list_elem_of_In | done].
    - apply bool_decide_eq_false_2. intros [_ (t & Ht & Htouch)]%H1.
      apply not_true_iff_false in Hex. apply Hex, existsb_exists.
      exists t. split; [by apply list_elem_of_In | done]. }
  split; [exact H2|]. split; [exact Hfilter|]. split; [|done].
  intros t Ht k Hk. rewrite Hfilter in Hk.
  unfold dict_keys in Hk. apply list_elem_of_fmap in Hk as (kv & -> & Hkv).
  apply list_elem_of_In, filter_In in Hkv as [_ Hkv].
  apply negb_true_iff in Hkv. apply not_true_is_false. intros Htouch.
  apply not_true_iff_false in Hkv. apply Hkv, existsb_exists.
  exists t. split; [by apply list_elem_of_In | done].
Qed.

(** X15. A region that [region_pop] flags takes no part in the run: from
    the state [selective_search] enters the loop with, no similarity of any
    state has a flagged region at an end, no iteration selects it, and the
    final loop emits no record for its key. *)
Theorem flagged_region_left_out (R : dict Z region) imsize cfg st' t r :
  region_pop cfg = true ->
  (t, r) ∈ R ->
  max_region_size cfg < bbox_size r ->
  reaches (max_region_size cfg) imsize (initial_state R imsize cfg).1 st' ->
  t ∈ (initial_state R imsize cfg).2
  /\ untouched t (st_S st')
  /\ (forall e, select_edge (st_S st') = inr e -> e.1 <> t /\ e.2 <> t)
  /\ t ∉ (emitted (st_R st') (initial_state R imsize cfg).2).*1.
Proof.
  intros Hpop Hin Hcap Hreach.
  unfold initial_state in *. cbn [fst snd] in *. rewrite Hpop in *.
  destruct (apply_region_pop_spec R
              (initial_similarities (_extract_neighbours R).1 imsize)
              (max_region_size cfg)) as (H2 & _ & Hun & _).
  cbv zeta in H2, Hun.
  assert (Ht : t ∈ (apply_region_pop true R
                      (initial_similarities (_extract_neighbours R).1 imsize)
                      (max_region_size cfg)).2).
  { rewrite H2. apply (list_elem_of_fmap_2 fst _ (t, r)).
    apply list_elem_of_In, filter_In. split; [by apply list_elem_of_In|].
    by apply Z.ltb_lt. }
  assert (Hun' : untouched t (st_S st')).
  { eapply reach_untouched; [| |exact Hreach]; cbn [st_R st_S].
    - unfold dict_keys. by apply (list_elem_of_fmap_2 fst _ (t, r)).
    - by apply Hun. }
  split; [done|]. split; [done|]. split.
  - intros e He%select_edge_elem.
    pose proof (Hun' _ He) as [? ?]%touches_false. by split.
  - intros ([k' r'] & -> & Hem)%list_elem_of_fmap.
    apply elem_of_emitted in Hem as [_ Hno]. done.
Qed.

Lemma flagged_region_left_out_witness :
  2 ∈ (initial_state sample_table 400 pop_config).2
  /\ untouched 2 (st_S (initial_state sample_table 400 pop_config).1)
  /\ 2 ∉ (emitted (st_R (initial_state sample_table 400 pop_config).1)
            (initial_state sample_table 400 pop_config).2).*1.
Proof.
  destruct (flagged_region_left_out sample_table 400 pop_config
              (initial_state sample_table 400 pop_config).1
              2 (sample_region 8 8 20 20 30 9))
    as (H1 & H2 & _ & H3).
  - reflexivity.
  - right. right. left.
  - simpl. lia.
  - apply rtc_refl.
  - split; [exact H1|]. split; [exact H2 | exact H3].
Defined.

(** ** The first pass of the extraction *)

Lemma fold_left_fmap {A B C} (f : A -> B -> A) (h : C -> B) (l : list C) a :
  fold_left f (map h l) a = fold_left (fun a x => f a (h x)) l a.
Proof. revert a. induction l as [|x l IH]; intros a; simpl; [done | apply IH]. Qed.

Lemma count_pixel_positions_pixels (mask : list (list Z)) :
  count_pixel_positions mask
  = fold_left (fun R p => visit_pixel R p.1.1 p.1.2 p.2) (mask_pixels mask) [].
Proof.
  unfold count_pixel_positions, mask_pixels.
  generalize (@nil (Z * bbox_rec)). generalize (enumerate mask).
  induction l as [|yi rows IH]; intros acc; simpl; [done|].
  rewrite fold_left_app, fold_left_fmap. simpl. apply IH.
Qed.

Lemma elem_of_mask_pixels (mask : list (list Z)) (x y l : Z) :
  (x, y, l) ∈ mask_pixels mask
  <-> exists (yi xi : nat) row,
        mask !! yi = Some row /\ row !! xi = Some l
        /\ x = Z.of_nat xi /\ y = Z.of_nat yi.
Proof.
  unfold mask_pixels. rewrite list_elem_of_In, in_flat_map. split.
  - intros ([yi row] & Hrow & Hin). simpl in Hin.
    apply in_map_iff in Hin as ([xi l'] & [= <- <- <-] & Hxl).
    apply list_elem_of_In, elem_of_enumerate_lookup in Hrow.
    apply list_elem_of_In, elem_of_enumerate_lookup in Hxl.
    by exists yi, xi, row.
  - intros (yi & xi & row & Hrow & Hxl & -> & ->).
    exists (yi, row). split.
    + by apply list_elem_of_In, elem_of_enumerate_lookup.
    + simpl. apply in_map_iff. exists (xi, l). split; [done|].
      by apply list_elem_of_In, elem_of_enumerate_lookup.
Qed.

Lemma dict_set_NoDup {K V} `{EqDecision K} (d : dict K V) k v :
  NoDup (dict_keys d) -> NoDup (dict_keys (dict_set d k v)).
Proof.
  intros Hnd. rewrite dict_keys_set. case_decide as Hin; [done|].
  apply NoDup_app. split; [done|]. split; [|apply NoDup_singleton].
  intros k' Hk' ->%list_elem_of_singleton. done.
Qed.

Lemma visit_pixel_NoDup R x y l :
  NoDup (dict_keys R) -> NoDup (dict_keys (visit_pixel R x y l)).
Proof.
  intros Hnd. unfold visit_pixel.
  set (R1 := if dict_mem R l then R else dict_set R l _).
  assert (Hnd1 : NoDup (dict_keys R1)).
  { unfold R1. destruct (dict_mem R l); [done | by apply dict_set_NoDup]. }
  destruct (dict_get R1 l); [by apply dict_set_NoDup | done].
Qed.

Lemma visit_pixel_other R x y l l' :
  l' <> l -> dict_get (visit_pixel R x y l) l' = dict_get R l'.
Proof.
  intros Hne. unfold visit_pixel.
  set (R1 := if dict_mem R l then R else dict_set R l _).
  assert (H1 : dict_get R1 l' = dict_get R l').
  { unfold R1. destruct (dict_mem R l); [done|].
    by rewrite dict_get_set_ne. }
  destruct (dict_get R1 l); [|done].
  by rewrite dict_get_set_ne.
Qed.

Lemma visit_pixel_same R x y l :
  dict_get (visit_pixel R x y l) l
  = Some
      (let r := default {| b_min_x := 65535; b_min_y := 65535;
                           b_max_x := 0; b_max_y := 0;
                           b_labels := [l]; b_bbox_size := 0 |}
                        (dict_get R l) in
       {| b_min_x := Z.min (b_min_x r) x; b_min_y := Z.min (b_min_y r) y;
          b_max_x := Z.max (b_max_x r) x; b_max_y := Z.max (b_max_y r) y;
          b_labels := b_labels r;
          b_bbox_size := (Z.max (b_max_x r) x - Z.min (b_min_x r) x)
                         * (Z.max (b_max_y r) y - Z.min (b_min_y r) y) |}).
Proof.
  unfold visit_pixel.
  set (init := {| b_min_x := 65535; b_min_y := 65535; b_max_x := 0;
                  b_max_y := 0; b_labels := [l]; b_bbox_size := 0 |}).
  set (R1 := if dict_mem R l then R else dict_set R l init).
  assert (H1 : dict_get R1 l = Some (default init (dict_get R l))).
  { unfold R1, dict_mem. case_bool_decide as Hin.
    - apply dict_get_is_Some in Hin as [r Hr]. by rewrite Hr.
    - apply dict_get_None in Hin. rewrite Hin. simpl.
      apply dict_get_set_eq. }
  rewrite H1, dict_get_set_eq. cbv zeta. f_equal.
  assert (Hmin : forall a b, (if b <? a then b else a) = Z.min a b).
  { intros a b. destruct (Z.ltb_spec b a); lia. }
  assert (Hmax : forall a b, (if a <? b then b else a) = Z.max a b).
  { intros a b. destruct (Z.ltb_spec a b); lia. }
  by rewrite !Hmin, !Hmax.
Qed.

Lemma foldr_min_snoc (a x : Z) (l : list Z) :
  foldr Z.min a (l ++ [x]) = Z.min (foldr Z.min a l) x.
Proof. induction l as [|y l IH]; simpl; [lia | rewrite IH; lia]. Qed.

Lemma foldr_max_snoc (a x : Z) (l : list Z) :
  foldr Z.max a (l ++ [x]) = Z.max (foldr Z.max a l) x.
Proof. induction l as [|y l IH]; simpl; [lia | rewrite IH; lia]. Qed.

Lemma foldr_min_le (a x : Z) (l : list Z) : x ∈ l -> foldr Z.min a l <= x.
Proof.
  induction l as [|y l IH]; simpl; [by intros ?%elem_of_nil|].
  intros [->|Hin]%elem_of_cons; [lia|]. specialize (IH Hin). lia.
Qed.

Lemma foldr_max_ge (a x : Z) (l : list Z) : x ∈ l -> x <= foldr Z.max a l.
Proof.
  induction l as [|y l IH]; simpl; [by intros ?%elem_of_nil|].
  intros [->|Hin]%elem_of_cons; [lia|]. specialize (IH Hin). lia.
Qed.

Lemma xs_of_snoc l ps p :
  xs_of l (ps ++ [p])
  = xs_of l ps ++ (if bool_decide (p.2 = l) then [p.1.1] else []).
Proof.
  unfold xs_of. rewrite List.filter_app, map_app. simpl.
  by destruct (bool_decide (p.2 = l)).
Qed.

Lemma ys_of_snoc l ps p :
  ys_of l (ps ++ [p])
  = ys_of l ps ++ (if bool_decide (p.2 = l) then [p.1.2] else []).
Proof.
  unfold ys_of. rewrite List.filter_app, map_app. simpl.
  by destruct (bool_decide (p.2 = l)).
Qed.

Lemma xs_ys_of_absent l ps : l ∉ ps.*2 -> xs_of l ps = [] /\ ys_of l ps = [].
Proof.
  intros Hl. unfold xs_of, ys_of.
  assert (Hf : List.filter (fun p : Z * Z * Z => bool_decide (p.2 = l)) ps = []).
  { induction ps as [|p ps IH]; simpl; [done|].
    rewrite fmap_cons, not_elem_of_cons in Hl. destruct Hl as [Hne Hl].
    rewrite bool_decide_eq_false_2 by done. by apply IH. }
  by rewrite Hf.
Qed.

Lemma visited_pixels_get (ps : list (Z * Z * Z)) (l : Z) :
  dict_get (fold_left (fun R p => visit_pixel R p.1.1 p.1.2 p.2) ps []) l
  = if bool_decide (l ∈ ps.*2) then Some (label_bbox l ps) else None.
Proof.
  induction ps as [|[[x y] lp] ps IH] using rev_ind.
  - done.
  - rewrite fold_left_app. cbn [fold_left fst snd].
    destruct (decide (l = lp)) as [->|Hne].
    + rewrite visit_pixel_same, IH.
      assert (Hlast : lp ∈ (ps ++ [(x, y, lp)]).*2).
      { rewrite fmap_app, elem_of_app. right. left. }
      rewrite (bool_decide_eq_true_2 _ Hlast).
      f_equal. unfold label_bbox. rewrite xs_of_snoc, ys_of_snoc.
      cbn [fst snd]. rewrite (bool_decide_eq_true_2 (lp = lp)) by done.
      rewrite !foldr_min_snoc, !foldr_max_snoc.
      case_bool_decide as Hin; cbn [default]; cbv zeta; cbn [b_min_x b_min_y
        b_max_x b_max_y b_labels]; [done|].
      destruct (xs_ys_of_absent _ _ Hin) as [-> ->]. done.
    + rewrite visit_pixel_other, IH by done.
      rewrite (bool_decide_ext (l ∈ (ps ++ [(x, y, lp)]).*2) (l ∈ ps.*2)).
      2:{ rewrite fmap_app, elem_of_app. simpl.
          rewrite list_elem_of_singleton. tauto. }
      case_bool_decide; [|done]. f_equal.
      unfold label_bbox. rewrite xs_of_snoc, ys_of_snoc. simpl.
      rewrite bool_decide_eq_false_2 by done. by rewrite !app_nil_r.
Qed.

Lemma count_pixel_positions_spec (mask : list (list Z)) :
  let R := count_pixel_positions mask in
  NoDup (dict_keys R)
  /\ (forall l,
        dict_get R l
        = if bool_decide (l ∈ (mask_pixels mask).*2)
          then Some (label_bbox l (mask_pixels mask)) else None)
  /\ (forall (yi xi : nat) row l,
        mask !! yi = Some row -> row !! xi = Some l ->
        exists r,
          dict_get R l = Some r
          /\ b_labels r = [l]
          /\ b_min_x r <= Z.of_nat xi <= b_max_x r
          /\ b_min_y r <= Z.of_nat yi <= b_max_y r
          /\ b_bbox_size r
             = (b_max_x r - b_min_x r) * (b_max_y r - b_min_y r)).
Proof.
  cbv zeta. rewrite count_pixel_positions_pixels. split; [|split].
  - apply (fold_left_invariant (fun R => NoDup (dict_keys R))).
    + intros acc p _. apply visit_pixel_NoDup.
    + constructor.
  - apply visited_pixels_get.
  - intros yi xi row l Hrow Hl.
    assert (Hin : (Z.of_nat xi, Z.of_nat yi, l) ∈ mask_pixels mask).
    { apply elem_of_mask_pixels. by exists yi, xi, row. }
    rewrite visited_pixels_get, bool_decide_eq_true_2.
    2:{ by apply (list_elem_of_fmap_2 snd _ (Z.of_nat xi, Z.of_nat yi, l)). }
    eexists. split; [done|].
    assert (Hx : Z.of_nat xi ∈ xs_of l (mask_pixels mask)).
    { unfold xs_of.
      apply (list_elem_of_fmap_2 (fun p : Z * Z * Z => p.1.1) _
               (Z.of_nat xi, Z.of_nat yi, l)).
      apply list_elem_of_In, filter_In. split; [by apply list_elem_of_In|].
      by apply bool_decide_eq_true_2. }
    assert (Hy : Z.of_nat yi ∈ ys_of l (mask_pixels mask)).
    { unfold ys_of.
      apply (list_elem_of_fmap_2 (fun p : Z * Z * Z => p.1.2) _
               (Z.of_nat xi, Z.of_nat yi, l)).
      apply list_elem_of_In, filter_In. split; [by apply list_elem_of_In|].
      by apply bool_decide_eq_true_2. }
    unfold label_bbox. simpl.
    split; [done|].
    pose proof (foldr_min_le 65535 _ _ Hx). pose proof (foldr_max_ge 0 _ _ Hx).
    pose proof (foldr_min_le 65535 _ _ Hy). pose proof (foldr_max_ge 0 _ _ Hy).
    repeat split; done.
Qed.

(** ** The sizes of the extracted regions *)

Lemma mask_pixels_labels (mask : list (list Z)) :
  (mask_pixels mask).*2 = concat mask.
Proof.
  unfold mask_pixels. unfold enumerate at 1.
  assert (Hgen : forall n,
    (flat_map
       (fun yi : nat * list Z =>
          map (fun xl : nat * Z => (Z.of_nat xl.1, Z.of_nat yi.1, xl.2))
              (enumerate yi.2))
       (combine (seq n (length mask)) mask)).*2 = concat mask);
    [|apply Hgen].
  induction mask as [|row mask IH]; intros n; simpl; [done|].
  rewrite fmap_app, IH. f_equal.
  change (fmap (M := list) ?f ?l) with (map f l). rewrite map_map. simpl.
  apply map_snd_combine_seq.
Qed.

Lemma length_masked_row {A} (row : list A) (mrow : list Z) (k : Z) :
  length row = length mrow ->
  length (map fst (List.filter (fun al : A * Z => bool_decide (al.2 = k))
                               (combine row mrow)))
  = length (List.filter (fun l => bool_decide (l = k)) mrow).
Proof.
  rewrite length_map. revert mrow.
  induction row as [|a row IH]; intros [|l mrow] Hlen; simpl in *; try done.
  destruct (bool_decide (l = k)); simpl; rewrite IH by lia; done.
Qed.

Lemma length_masked {A} (arr : list (list A)) (mask : list (list Z)) (k : Z) :
  Forall2 (fun row mrow => length row = length mrow) arr mask ->
  length (masked arr mask k)
  = length (List.filter (fun l => bool_decide (l = k)) (concat mask)).
Proof.
  unfold masked. induction 1 as [|row mrow arr mask Hrow _ IH]; simpl; [done|].
  rewrite length_app, List.filter_app, length_app, IH.
  by rewrite length_masked_row.
Qed.

Lemma sum_key_indicator (ks : list Z) (x : Z) :
  NoDup ks -> x ∈ ks ->
  foldr Nat.add 0%nat
    (map (fun k => if bool_decide (x = k) then 1%nat else 0%nat) ks) = 1%nat.
Proof.
  induction 1 as [|k ks Hk Hnd IH]; simpl; [by intros ?%elem_of_nil|].
  intros [->|Hin]%elem_of_cons.
  - rewrite bool_decide_eq_true_2 by done.
    assert (Hz : foldr Nat.add 0%nat
              (map (fun k' => if bool_decide (k = k') then 1%nat else 0%nat) ks)
            = 0%nat); [|by rewrite Hz].
    clear IH Hnd. induction ks as [|k' ks IH]; simpl; [done|].
    rewrite not_elem_of_cons in Hk. destruct Hk as [Hne Hk].
    rewrite bool_decide_eq_false_2 by done. by apply IH.
  - rewrite bool_decide_eq_false_2 by (intros ->; done). by apply IH.
Qed.

Lemma sum_label_counts (ks L : list Z) :
  NoDup ks -> (forall x, x ∈ L -> x ∈ ks) ->
  foldr Nat.add 0%nat
    (map (fun k => length (List.filter (fun l => bool_decide (l = k)) L)) ks)
  = length L.
Proof.
  intros Hnd. induction L as [|x L IH]; intros Hin; simpl.
  - clear. induction ks as [|k ks IHk]; simpl; [done | exact IHk].
  - assert (Hsplit :
      foldr Nat.add 0%nat
        (map (fun k => length (List.filter (fun l => bool_decide (l = k))
                                 (x :: L))) ks)
      = (foldr Nat.add 0%nat
           (map (fun k => if bool_decide (x = k) then 1%nat else 0%nat) ks)
         + foldr Nat.add 0%nat
             (map (fun k => length (List.filter
                                      (fun l => bool_decide (l = k)) L)) ks))%nat).
    { clear. induction ks as [|k ks IHk]; simpl; [done|].
      simpl in IHk. rewrite IHk.
      destruct (bool_decide (x = k)); simpl; lia. }
    simpl in Hsplit. rewrite Hsplit.
    rewrite (sum_key_indicator ks x Hnd) by (apply Hin; left).
    rewrite IH by (intros y Hy; apply Hin; by right). done.
Qed.

Section ExtractSizes.
Variable rgb2hsv : image -> list (list pixel3).
Variable local_binary_pattern : image -> nat -> list (list Q).

(** What [_extract_regions] returns, entry by entry. *)
Lemma extract_regions_spec (img : labelled) (tr : list call) :
  let mask := lab_mask img in
  let pixels := mask_pixels mask in
  let hsv := rgb2hsv (lab_orig img) in
  let tex_grad :=
    stack_channels (local_binary_pattern (lab_orig img) 0)
                   (local_binary_pattern (lab_orig img) 1)
                   (local_binary_pattern (lab_orig img) 2) in
  exists raw,
    _extract_regions rgb2hsv local_binary_pattern img tr
    = (tr ++ [Call_rgb2hsv; Call_local_binary_pattern 0;
              Call_local_binary_pattern 1; Call_local_binary_pattern 2],
       inr raw)
    /\ dict_keys raw = dict_keys (count_pixel_positions mask)
    /\ NoDup (dict_keys raw)
    /\ (forall k, k ∈ dict_keys raw <-> k ∈ concat mask)
    /\ (forall k r,
          (k, r) ∈ raw ->
          k ∈ concat mask
          /\ raw_labels r = [k]
          /\ raw_min_x r = foldr Z.min 65535 (xs_of k pixels)
          /\ raw_min_y r = foldr Z.min 65535 (ys_of k pixels)
          /\ raw_max_x r = foldr Z.max 0 (xs_of k pixels)
          /\ raw_max_y r = foldr Z.max 0 (ys_of k pixels)
          /\ raw_bbox_size r
             = (raw_max_x r - raw_min_x r) * (raw_max_y r - raw_min_y r)
          /\ raw_size r = Z.of_nat (length (masked hsv mask k))
          /\ raw_hist_c r = _calc_colour_hist (masked hsv mask k)
          /\ raw_hist_t r = _calc_texture_hist (masked tex_grad mask k)
          /\ length (raw_hist_c r) = 75%nat
          /\ length (raw_hist_t r) = 30%nat)
    /\ (forall (yi xi : nat) row l,
          mask !! yi = Some row -> row !! xi = Some l ->
          exists r,
            (l, r) ∈ raw
            /\ raw_min_x r <= Z.of_nat xi <= raw_max_x r
            /\ raw_min_y r <= Z.of_nat yi <= raw_max_y r)
    /\ (Forall2 (fun row mrow => length row = length mrow) hsv mask ->
        (forall k r,
           (k, r) ∈ raw ->
           raw_size r
           = Z.of_nat (length (List.filter (fun l => bool_decide (l = k))
                                 (concat mask)))
           /\ 0 < raw_size r)
        /\ foldr Z.add 0 (map (fun kr => raw_size kr.2) raw)
           = Z.of_nat (length (concat mask))).
Proof.
  cbv zeta.
  unfold _extract_regions, _calc_texture_gradient, io_bind, io_call, io_ret.
  rewrite <- !app_assoc. cbn [app]. eexists. split; [reflexivity|].
  destruct (count_pixel_positions_spec (lab_mask img)) as (Hnd & Hget & Hpix).
  cbv zeta in Hnd, Hget, Hpix.
  set (R := count_pixel_positions (lab_mask img)) in *.
  assert (Hkeys : forall (f : Z * bbox_rec -> Z * raw_region),
             (forall kv, (f kv).1 = kv.1) -> dict_keys (map f R) = dict_keys R).
  { intros f Hf. unfold dict_keys. rewrite map_map. by apply map_ext. }
  assert (Hlab : forall k, k ∈ dict_keys R <-> k ∈ concat (lab_mask img)).
  { intros k. rewrite <- dict_get_is_Some, Hget, <- mask_pixels_labels.
    case_bool_decide as Hin; [by split; eauto|].
    split; [by intros [? ?] | done]. }
  assert (Hentry : forall k b, (k, b) ∈ R ->
             b = label_bbox k (mask_pixels (lab_mask img))).
  { intros k b Hkb. apply dict_get_elem_NoDup in Hkb; [|done].
    rewrite Hget in Hkb. case_bool_decide; congruence. }
  split; [by apply Hkeys|]. split; [by rewrite Hkeys|].
  split; [|split; [|split]].
  - intros k. rewrite Hkeys by done. apply Hlab.
  - intros k r ([k' b] & [= -> ->] & Hin)%list_elem_of_fmap. cbn [fst snd].
    split. { apply Hlab. unfold dict_keys.
             by apply (list_elem_of_fmap_2 fst _ (k', b)). }
    cbn [raw_labels raw_bbox_size raw_max_x raw_min_x raw_max_y raw_min_y
         raw_size raw_hist_c raw_hist_t].
    rewrite length_calc_colour_hist, length_calc_texture_hist.
    by rewrite (Hentry _ _ Hin).
  - intros yi xi row l Hrow Hl.
    destruct (Hpix yi xi row l Hrow Hl) as (b & Hb & _ & Hx & Hy & _).
    eexists. split.
    + apply list_elem_of_fmap. exists (l, b).
      split; [reflexivity | by apply dict_get_Some_elem].
    + cbn [fst snd raw_min_x raw_max_x raw_min_y raw_max_y]. done.
  - intros Hal. split.
    + intros k r ([k' b] & [= -> ->] & Hin)%list_elem_of_fmap. cbn [fst snd].
      cbn [raw_size]. rewrite length_masked by done. split; [done|].
      assert (Hk : k' ∈ concat (lab_mask img)).
      { apply Hlab. unfold dict_keys.
        by apply (list_elem_of_fmap_2 fst _ (k', b)). }
      apply list_elem_of_In in Hk.
      assert (Hf : In k' (List.filter (fun l => bool_decide (l = k'))
                            (concat (lab_mask img)))).
      { apply filter_In. split; [done | by apply bool_decide_eq_true_2]. }
      destruct (List.filter _ _); [done | simpl; lia].
    + rewrite map_map. cbn [fst snd raw_size].
      rewrite (map_ext _ (fun kv : Z * bbox_rec =>
                 Z.of_nat (length (List.filter (fun l => bool_decide (l = kv.1))
                                     (concat (lab_mask img))))))
        by (intros kv; by rewrite length_masked).
      rewrite <- (sum_label_counts (dict_keys R) (concat (lab_mask img)) Hnd).
      * unfold dict_keys.
        generalize R. induction R0 as [|kv R0 IH]; simpl; [done|].
        rewrite IH. lia.
      * intros x Hx. by apply Hlab.
Qed.
End ExtractSizes.

(** ** What [selective_search] returns *)

Section Returns.
Variable felzenszwalb : image -> Q -> Q -> Z -> list (list Z).
Variable rgb2hsv : image -> list (list pixel3).
Variable local_binary_pattern : image -> nat -> list (list Q).

Lemma prepare_inv im_orig cfg tr tr' p :
  prepare felzenszwalb rgb2hsv local_binary_pattern im_orig cfg tr
  = (tr', inr p) ->
  exists h w raw,
    shape im_orig = [h; w; 3]
    /\ tr' = tr ++ collaborator_calls
    /\ pr_img p = {| lab_shape := [h; w; 4];
                     lab_orig := im_orig;
                     lab_mask := felzenszwalb im_orig (scale cfg) (sigma cfg)
                                   (min_size cfg) |}
    /\ _extract_regions rgb2hsv local_binary_pattern (pr_img p)
         (tr ++ [Call_felzenszwalb]) = (tr', inr raw)
    /\ pr_imsize p = h * w
    /\ pr_state p
       = (initial_state (_expand_regions raw (border cfg) w h) (h * w) cfg).1
    /\ pr_pop p
       = (initial_state (_expand_regions raw (border cfg) w h) (h * w) cfg).2.
Proof.
  unfold prepare, io_bind at 1, io_lift at 1.
  destruct (shape im_orig !! 2%nat) as [c|] eqn:Hc; simpl of_option;
    cbv iota beta; [|done].
  case_bool_decide as Hc3; [subst c|done].
  destruct (shape im_orig) as [|h [|w [|c [|d rest]]]] eqn:Hshape; try done.
  - simpl in Hc. injection Hc as ->.
    unfold _generate_segments, _extract_regions, _calc_texture_gradient,
      io_bind, io_call, io_lift, io_ret.
    rewrite Hshape. simpl. intros [= <- <-]. simpl.
    eexists h, w, _. rewrite <- !app_assoc. repeat split.
  - unfold _generate_segments, io_bind, io_call, io_raise.
    rewrite Hshape. done.
Qed.

Lemma run_merge_loop_reaches max_region_size imsize st st' :
  run_merge_loop max_region_size imsize st = inr st' ->
  reaches max_region_size imsize st st' /\ st_S st' = [].
Proof.
  unfold run_merge_loop, hierarchical_search.
  destruct (merge_loop_enough_fuel max_region_size imsize
              (length (st_S st)) st) as [r Hr]; [done|].
  rewrite Hr. intros ->. by eapply merge_loop_reaches.
Qed.

Lemma reach_within max_region_size imsize x_lim y_lim st st' :
  Forall (fun kr => within_image x_lim y_lim kr.2) (st_R st) ->
  reaches max_region_size imsize st st' ->
  Forall (fun kr => within_image x_lim y_lim kr.2) (st_R st').
Proof.
  intros Hall Hreach.
  induction Hreach as [|st st1 st2 [_ Hstep] _ IH]; [done|].
  apply IH.
  destruct (merge_step_inv _ _ _ _ Hstep) as [i j m ri rj _ _ Hi Hj -> _].
  apply Forall_app. split; [done|]. apply Forall_singleton.
  rewrite Forall_forall in Hall.
  pose proof (Hall _ (dict_get_Some_elem _ _ _ Hi)) as (? & ? & ? & ?).
  pose proof (Hall _ (dict_get_Some_elem _ _ _ Hj)) as (? & ? & ? & ?).
  unfold within_image in *. simpl in *. lia.
Qed.

Lemma expand_regions_within raw border x_lim y_lim :
  Forall (fun kr => within_image x_lim y_lim kr.2)
         (_expand_regions raw border x_lim y_lim).
Proof.
  rewrite expand_regions_eq. apply Forall_map, Forall_forall.
  intros ir _. unfold within_image. simpl. lia.
Qed.

(** X16. When [selective_search] returns, the input has the shape
    (h, w, 3) and the image returned has the shape (h, w, 4): it is the
    input with the mask of the segmentation as its label channel.  The list
    of original regions is empty, the five calls to the collaborators have
    been made, and every proposal lies within the image: its rect starts at
    0 or later and ends at the width and the height or before.  Without
    [region_pop], every label of the mask has a proposal of its own among
    those returned. *)
Theorem selective_search_returns im_orig cfg tr tr' img regions og_regions :
  selective_search felzenszwalb rgb2hsv local_binary_pattern im_orig cfg tr
  = (tr', inr (img, regions, og_regions)) ->
  exists h w,
    shape im_orig = [h; w; 3]
    /\ lab_shape img = [h; w; 4]
    /\ lab_orig img = im_orig
    /\ lab_mask img
       = felzenszwalb im_orig (scale cfg) (sigma cfg) (min_size cfg)
    /\ og_regions = []
    /\ tr' = tr ++ collaborator_calls
    /\ (forall p, p ∈ regions ->
          0 <= (rect p).1.1.1 /\ 0 <= (rect p).1.1.2
          /\ (rect p).1.1.1 + (rect p).1.2 <= w
          /\ (rect p).1.1.2 + (rect p).2 <= h)
    /\ (region_pop cfg = false ->
        forall l, l ∈ concat (lab_mask img) ->
          exists p, p ∈ regions /\ prop_labels p = [l]).
Proof.
  rewrite selective_search_unfold.
  destruct (prepare _ _ _ _ _ _) as [tr1 [e|p]] eqn:Hp; [done|].
  destruct (run_merge_loop _ _ _) as [e|st] eqn:Hloop; [done|].
  cbn [bind ret]. unfold finish. intros [= -> <- <- <-].
  destruct (prepare_inv _ _ _ _ _ Hp)
    as (h & w & raw & Hshape & Htr & Himg & Hext & Hsz & Hst & Hpop).
  apply run_merge_loop_reaches in Hloop as [Hreach _].
  rewrite Hst, Hsz in Hreach.
  exists h, w. rewrite Himg in *. cbn [lab_shape lab_orig lab_mask] in *.
  do 6 (split; [done|]). split.
  - intros p0 Hp0.
    assert (Hall : Forall (fun kr => within_image w h kr.2) (st_R st)).
    { eapply reach_within; [|exact Hreach].
      apply expand_regions_within. }
    unfold assemble in Hp0.
    apply list_elem_of_fmap in Hp0 as ([k r] & -> & Hin).
    apply elem_of_emitted in Hin as [Hin _].
    rewrite Forall_forall in Hall. destruct (Hall _ Hin) as (? & ? & ? & ?).
    simpl in *. lia.
  - intros Hnopop l Hl.
    destruct (extract_regions_spec rgb2hsv local_binary_pattern
                {| lab_shape := [h; w; 4]; lab_orig := im_orig;
                   lab_mask := felzenszwalb im_orig (scale cfg) (sigma cfg)
                                 (min_size cfg) |}
                (tr ++ [Call_felzenszwalb]))
      as (raw' & Heq & _ & _ & Hkeys & Hent & _).
    cbv zeta in Hkeys, Hent. cbn [lab_mask lab_orig] in Hkeys, Hent.
    rewrite Hext in Heq. injection Heq as _ <-.
    apply Hkeys in Hl. unfold dict_keys in Hl.
    apply list_elem_of_fmap in Hl as ([l' r] & -> & Hin). cbn [fst].
    destruct (Hent _ _ Hin) as (_ & Hlabels & _).
    apply list_elem_of_lookup in Hin as [n Hn].
    apply elem_of_enumerate_lookup in Hn.
    assert (Hin0 : (Z.of_nat n, expand_region r (border cfg) w h)
                   ∈ _expand_regions raw (border cfg) w h).
    { rewrite expand_regions_eq.
      apply (list_elem_of_fmap_2
               (fun ir : nat * (Z * raw_region) =>
                  (Z.of_nat ir.1, expand_region ir.2.2 (border cfg) w h))
               _ (n, (l', r))).
      exact Hn. }
    apply reach_table in Hreach as [ext HR].
    unfold initial_state in HR, Hpop. cbn [fst snd st_R] in HR, Hpop.
    unfold apply_region_pop in Hpop. rewrite Hnopop in Hpop.
    cbn [snd] in Hpop.
    exists (proposal_of (expand_region r (border cfg) w h)).
    split; [|exact Hlabels].
    unfold assemble.
    apply (list_elem_of_fmap_2 (fun kr : item => proposal_of kr.2) _
             (Z.of_nat n, expand_region r (border cfg) w h)).
    apply elem_of_emitted. split.
    + rewrite HR, elem_of_app. by left.
    + rewrite Hpop. by intros ?%elem_of_nil.
Qed.
End Returns.

(** ** The similarities after an iteration *)

Lemma dict_get_filter_key {K V} `{EqDecision K} (f : K -> bool)
    (d : dict K V) (k : K) :
  dict_get (List.filter (fun kv => f kv.1) d) k
  = if f k then dict_get d k else None.
Proof.
  induction d as [|[k' v] d IH]; simpl; [by destruct (f k)|].
  destruct (f k') eqn:Hk'; simpl.
  - case_decide as Heq; [subst; by rewrite Hk' | exact IH].
  - rewrite IH. case_decide as Heq; [subst; by rewrite Hk' | done].
Qed.

Section Rebuild.
Variable imsize : Z.
Variables (R : dict Z region) (t i j : Z).

Lemma foldM_add_similarity_get ks S S' rt k :
  dict_get R t = Some rt ->
  foldM (add_similarity imsize R t i j) ks S = inr S' ->
  dict_get S' k
  = if bool_decide (k ∈ map (fun k0 => (t, other_end i j k0)) ks)
    then (fun rn => _calc_sim rt rn imsize) <$> dict_get R k.2
    else dict_get S k.
Proof.
  intros Hrt. revert S. induction ks as [|k0 ks IH]; intros S; simpl.
  - by intros [= <-].
  - unfold add_similarity at 1. rewrite Hrt. cbn [bind of_option].
    destruct (dict_get R (other_end i j k0)) as [rn|] eqn:Hrn;
      cbn [bind of_option ret]; [|done].
    intros HS'. rewrite (IH _ HS').
    destruct (decide (k = (t, other_end i j k0))) as [->|Hne].
    + rewrite (bool_decide_eq_true_2
                 ((t, other_end i j k0)
                  ∈ (t, other_end i j k0)
                    :: map (fun k1 => (t, other_end i j k1)) ks)) by left.
      cbn [snd]. rewrite Hrn.
      case_bool_decide; [done|]. by rewrite dict_get_set_eq.
    + rewrite dict_get_set_ne by done.
      apply (f_equal (fun c : bool => if c then _ else _)).
      apply bool_decide_ext. rewrite elem_of_cons.
      split; [by right | by intros [?|?]].
Qed.
End Rebuild.

Section Maintained.
Variable max_region_size : Z.
Variable imsize : Z.

(** X19. An iteration that merges [i] and [j] into a region [t] whose
    [bbox_size] is within the cap rebuilds the similarities of [t]: every
    region that had a similarity with [i] or with [j] gets one with [t],
    scored against the merged region, and the similarities that touch
    neither [i] nor [j] keep their scores.  Whatever the cap, the
    similarities that touched [i] or [j] are gone. *)
Theorem merge_step_rebuilds st st' i j m ri rj :
  edges_in_table st ->
  select_edge (st_S st) = inr (i, j) ->
  max_key (st_R st) = inr m ->
  dict_get (st_R st) i = Some ri ->
  dict_get (st_R st) j = Some rj ->
  merge_step max_region_size imsize st = inr st' ->
  (forall k, k ∈ dict_keys (st_S st) ->
             touches i k || touches j k = true ->
             dict_get (st_S st') k = None)
  /\ (forall k, touches i k || touches j k = false -> k.1 <> m + 1 ->
                dict_get (st_S st') k = dict_get (st_S st) k)
  /\ (bbox_size (_merge_regions ri rj) <= max_region_size ->
      forall k0,
        k0 ∈ dict_keys (st_S st) ->
        touches i k0 || touches j k0 = true -> k0 <> (i, j) ->
        exists rn,
          dict_get (st_R st) (other_end i j k0) = Some rn
          /\ dict_get (st_S st') (m + 1, other_end i j k0)
             = Some (_calc_sim (_merge_regions ri rj) rn imsize)).
Proof.
  intros Hinv Hsel Hmax Hi Hj Hstep.
  destruct (merge_step_inv _ _ _ _ Hstep)
    as [i' j' m' ri' rj' Hsel' Hmax' Hi' Hj' HR HS].
  assert (i' = i /\ j' = j) as [-> ->] by (split; congruence).
  assert (m' = m) as -> by congruence.
  assert (ri' = ri) as -> by congruence.
  assert (rj' = rj) as -> by congruence.
  pose proof (max_key_fresh _ _ Hmax) as Hfresh.
  assert (Hdel : forall k,
    dict_get (fold_left dict_del (stale_keys i j (st_S st)) (st_S st)) k
    = if negb (touches i k || touches j k) then dict_get (st_S st) k else None).
  { intros k. rewrite fold_del_stale.
    apply (dict_get_filter_key (fun k => negb (touches i k || touches j k))). }
  assert (Hrt : dict_get (st_R st') (m + 1) = Some (_merge_regions ri rj)).
  { rewrite HR, dict_get_app_r by done. simpl. by rewrite decide_True. }
  assert (Hold : forall k, k ∈ dict_keys (st_S st) -> k.1 <> m + 1).
  { intros k Hk Heq. destruct (Hinv _ Hk) as [H1 _]. by rewrite Heq in H1. }
  destruct (max_region_size <? bbox_size (_merge_regions ri rj)) eqn:Hcap.
  - rewrite HS. split; [|split].
    + intros k _ Ht. by rewrite Hdel, Ht.
    + intros k Ht _. by rewrite Hdel, Ht.
    + intros Hle. apply Z.ltb_lt in Hcap. lia.
  - assert (Hget := fun k =>
      foldM_add_similarity_get imsize (st_R st') (m + 1) i j _ _ _ _ k Hrt HS).
    assert (Hnotnew : forall k, k.1 <> m + 1 ->
      k ∉ map (fun k0 => (m + 1, other_end i j k0))
            (carried_keys i j (stale_keys i j (st_S st)))).
    { intros k Hk (k0 & -> & _)%list_elem_of_fmap. done. }
    split; [|split].
    + intros k Hk Ht. rewrite Hget, bool_decide_eq_false_2
        by (apply Hnotnew; by apply Hold).
      by rewrite Hdel, Ht.
    + intros k Ht Hk. rewrite Hget, bool_decide_eq_false_2 by by apply Hnotnew.
      by rewrite Hdel, Ht.
    + intros _ k0 Hk0 Ht Hne.
      assert (Hn : other_end i j k0 ∈ dict_keys (st_R st)).
      { destruct (Hinv _ Hk0) as [? ?].
        by destruct (other_end_cases i j k0) as [-> | ->]. }
      apply dict_get_is_Some in Hn as [rn Hrn]. exists rn. split; [done|].
      rewrite Hget, bool_decide_eq_true_2.
      * cbn [snd]. rewrite HR, (dict_get_app_l _ _ _ _ Hrn). done.
      * apply (list_elem_of_fmap_2 (fun k1 => (m + 1, other_end i j k1))).
        unfold carried_keys. apply list_elem_of_In, filter_In. split.
        -- apply list_elem_of_In, elem_of_stale_keys. done.
        -- by apply negb_true_iff, bool_decide_eq_false_2.
Qed.
End Maintained.

(** ** The similarities the loop starts with *)

Lemma initial_similarities_get (neighbours : list (item * item)) imsize a b :
  (a, b) ∈ neighbours ->
  exists a' b',
    (a', b') ∈ neighbours /\ a'.1 = a.1 /\ b'.1 = b.1
    /\ dict_get (initial_similarities neighbours imsize) (a.1, b.1)
       = Some (_calc_sim a'.2 b'.2 imsize).
Proof.
  unfold initial_similarities.
  induction neighbours as [|[c d] neighbours IH] using rev_ind.
  - by intros ?%elem_of_nil.
  - intros Hin. rewrite fold_left_app. cbn [fold_left fst snd].
    destruct (decide ((c.1, d.1) = (a.1, b.1))) as [Heq|Hne].
    + exists c, d. injection Heq as Hc Hd.
      split; [rewrite elem_of_app; right; left|].
      split; [done|]. split; [done|].
      rewrite <- Hc, <- Hd. apply dict_get_set_eq.
    + apply elem_of_app in Hin as [Hin|Hin].
      * destruct (IH Hin) as (a' & b' & Hin' & Ha & Hb & Hget).
        exists a', b'. split; [rewrite elem_of_app; by left|].
        split; [done|]. split; [done|]. by rewrite dict_get_set_ne.
      * apply list_elem_of_singleton in Hin as [= -> ->]. done.
Qed.

Lemma NoDup_keys_item {V} (R : dict Z V) (a a' : Z * V) :
  NoDup (dict_keys R) -> a ∈ R -> a' ∈ R -> a.1 = a'.1 -> a = a'.
Proof.
  intros Hnd Ha Ha' Heq. destruct a as [k v], a' as [k' v']. simpl in Heq.
  subst k'. apply dict_get_elem_NoDup in Ha, Ha'; [|done..]. congruence.
Qed.

(** X20. On a table of distinct keys the loop starts, without
    [region_pop], with one similarity for every pair of neighbours, keyed by
    the ids of the pair, the earlier region first, and scored by
    [_calc_sim] on the two regions; it starts with no other similarity. *)
Theorem initial_state_similarities (R : dict Z region) imsize cfg :
  NoDup (dict_keys R) ->
  region_pop cfg = false ->
  (initial_state R imsize cfg).2 = []
  /\ st_R (initial_state R imsize cfg).1 = R
  /\ (forall a b,
        (a, b) ∈ (_extract_neighbours R).1 ->
        dict_get (st_S (initial_state R imsize cfg).1) (a.1, b.1)
        = Some (_calc_sim a.2 b.2 imsize))
  /\ (forall k,
        k ∈ dict_keys (st_S (initial_state R imsize cfg).1) ->
        exists a b, (a, b) ∈ (_extract_neighbours R).1 /\ k = (a.1, b.1)).
Proof.
  intros Hnd Hpop. unfold initial_state, apply_region_pop.
  rewrite Hpop. cbn [fst snd st_R st_S].
  split; [done|]. split; [done|]. split.
  - intros a b Hab.
    destruct (initial_similarities_get _ imsize _ _ Hab)
      as (a' & b' & Hab' & Ha & Hb & Hget).
    apply extract_neighbours_elem in Hab as [HaR HbR].
    apply extract_neighbours_elem in Hab' as [HaR' HbR'].
    assert (a' = a) as -> by (by apply (NoDup_keys_item R)).
    assert (b' = b) as -> by (by apply (NoDup_keys_item R)).
    done.
  - intros k Hk. apply initial_similarities_keys in Hk as ([a b] & Hab & ->).
    by exists a, b.
Qed.

Lemma initial_state_similarities_witness :
  dict_get (st_S sample_state) (0, 1)
  = Some (_calc_sim (sample_region 0 0 10 10 50 7)
                    (sample_region 5 5 15 15 40 8) 400).
Proof.
  assert (Hnd : NoDup (dict_keys sample_table))
    by (apply (bool_decide_unpack _); vm_compute; exact I).
  destruct (initial_state_similarities sample_table 400 default_config
              Hnd eq_refl) as (_ & _ & Hget & _).
  apply (Hget (0, sample_region 0 0 10 10 50 7)
              (1, sample_region 5 5 15 15 40 8)).
  apply extract_neighbours_elem_iff.
  exists 0%nat, 1%nat. repeat split. lia.
Defined.

(** ** Statements of the properties of the neighbours, of [region_pop] and of the first pass *)

(** X9. The neighbours are the pairs of an entry of the table and a later
    entry such that a corner of the later one lies strictly inside the bbox
    of the earlier one: every such pair of positions is found, and nothing
    else is. *)
Theorem extract_neighbours_pairs (R : dict Z region) (a b : item) :
  (a, b) ∈ (_extract_neighbours R).1
  <-> exists i j,
        (i < j)%nat /\ R !! i = Some a /\ R !! j = Some b
        /\ intersect a.2 b.2 = true.
Proof. exact (extract_neighbours_elem_iff R a b). Qed.

Lemma extract_neighbours_pairs_witness :
  ((0, sample_region 0 0 10 10 50 7), (1, sample_region 5 5 15 15 40 8))
  ∈ (_extract_neighbours sample_table).1.
Proof.
  apply (proj2 (extract_neighbours_pairs sample_table _ _)).
  exists 0%nat, 1%nat. repeat split. lia.
Defined.

(** X14. With [region_pop] the regions that are flagged are those of the
    table whose [bbox_size] exceeds [max_region_size], in the order of the
    table; the similarities that are left are those that have no flagged
    region at an end, with their scores and in their order.  Without
    [region_pop] nothing is flagged and no similarity is removed. *)
Theorem region_pop_prunes (R : dict Z region) (S : dict edge Q) (cap : Z) :
  let sp := apply_region_pop true R S cap in
  sp.2 = (List.filter (fun tr => cap <? bbox_size tr.2) R).*1
  /\ sp.1 = List.filter
              (fun kv => negb (existsb (fun t => touches t kv.1) sp.2)) S
  /\ (forall t, t ∈ sp.2 -> untouched t sp.1)
  /\ apply_region_pop false R S cap = (S, []).
Proof. exact (apply_region_pop_spec R S cap). Qed.

(** X17. The first pass of [_extract_regions] holds one entry for every
    label of the mask and for nothing else.  The entry of a label has that
    label alone as its labels; its bbox runs from the least to the greatest
    coordinates of the pixels of the label, the minima capped at 65535 and
    the maxima not below 0, so it encloses every pixel of the label; and its
    [bbox_size] is the area of that bbox. *)
Theorem count_pixel_positions_bbox (mask : list (list Z)) :
  let R := count_pixel_positions mask in
  NoDup (dict_keys R)
  /\ (forall l,
        dict_get R l
        = if bool_decide (l ∈ (mask_pixels mask).*2)
          then Some (label_bbox l (mask_pixels mask)) else None)
  /\ (forall (yi xi : nat) row l,
        mask !! yi = Some row -> row !! xi = Some l ->
        exists r,
          dict_get R l = Some r
          /\ b_labels r = [l]
          /\ b_min_x r <= Z.of_nat xi <= b_max_x r
          /\ b_min_y r <= Z.of_nat yi <= b_max_y r
          /\ b_bbox_size r
             = (b_max_x r - b_min_x r) * (b_max_y r - b_min_y r)).
Proof. exact (count_pixel_positions_spec mask). Qed.

Section ExtractedRegions.
Variable rgb2hsv : image -> list (list pixel3).
Variable local_binary_pattern : image -> nat -> list (list Q).

(** X18. [_extract_regions] raises nothing and makes the colour
    conversion and the three texture calls.  It returns one region for every
    label of the mask and no other, under the key of the first pass.  The
    region of the label [k] has the labels [[k]]; its bbox is that of the
    first pass, the least and the greatest coordinates of the pixels of the
    label (the least ones capped at 65535), so it encloses every pixel of
    the label, and its [bbox_size] is the area of that bbox; its size is
    the number of samples under the label, and its histograms are the
    colour histogram of the samples of the colour array under the label
    and the texture histogram of those of the texture array, of 75 and 30
    entries.  When the colour array is aligned with the mask, the size of
    a region is the number of pixels of its label, which is positive, and
    the sizes of all the regions add up to the number of pixels of the
    mask. *)
Theorem extract_regions_sizes (img : labelled) (tr : list call) :
  let mask := lab_mask img in
  let pixels := mask_pixels mask in
  let hsv := rgb2hsv (lab_orig img) in
  let tex_grad :=
    stack_channels (local_binary_pattern (lab_orig img) 0)
                   (local_binary_pattern (lab_orig img) 1)
                   (local_binary_pattern (lab_orig img) 2) in
  exists raw,
    _extract_regions rgb2hsv local_binary_pattern img tr
    = (tr ++ [Call_rgb2hsv; Call_local_binary_pattern 0;
              Call_local_binary_pattern 1; Call_local_binary_pattern 2],
       inr raw)
    /\ dict_keys raw = dict_keys (count_pixel_positions mask)
    /\ NoDup (dict_keys raw)
    /\ (forall k, k ∈ dict_keys raw <-> k ∈ concat mask)
    /\ (forall k r,
          (k, r) ∈ raw ->
          k ∈ concat mask
          /\ raw_labels r = [k]
          /\ raw_min_x r = foldr Z.min 65535 (xs_of k pixels)
          /\ raw_min_y r = foldr Z.min 65535 (ys_of k pixels)
          /\ raw_max_x r = foldr Z.max 0 (xs_of k pixels)
          /\ raw_max_y r = foldr Z.max 0 (ys_of k pixels)
          /\ raw_bbox_size r
             = (raw_max_x r - raw_min_x r) * (raw_max_y r - raw_min_y r)
          /\ raw_size r = Z.of_nat (length (masked hsv mask k))
          /\ raw_hist_c r = _calc_colour_hist (masked hsv mask k)
          /\ raw_hist_t r = _calc_texture_hist (masked tex_grad mask k)
          /\ length (raw_hist_c r) = 75%nat
          /\ length (raw_hist_t r) = 30%nat)
    /\ (forall (yi xi : nat) row l,
          mask !! yi = Some row -> row !! xi = Some l ->
          exists r,
            (l, r) ∈ raw
            /\ raw_min_x r <= Z.of_nat xi <= raw_max_x r
            /\ raw_min_y r <= Z.of_nat yi <= raw_max_y r)
    /\ (Forall2 (fun row mrow => length row = length mrow) hsv mask ->
        (forall k r,
           (k, r) ∈ raw ->
           raw_size r
           = Z.of_nat (length (List.filter (fun l => bool_decide (l = k))
                                 (concat mask)))
           /\ 0 < raw_size r)
        /\ foldr Z.add 0 (map (fun kr => raw_size kr.2) raw)
           = Z.of_nat (length (concat mask))).
Proof. exact (extract_regions_spec rgb2hsv local_binary_pattern img tr). Qed.
End ExtractedRegions.

(** ** Instances on the samples *)

Lemma selective_search_returns_witness :
  shape sample_image = [4; 4; 3]
  /\ lab_shape sample_output.1.1 = [4; 4; 4]
  /\ sample_output.2 = []
  /\ lab_mask sample_output.1.1 = sample_mask
  /\ Forall (fun p => 0 <= (rect p).1.1.1 /\ 0 <= (rect p).1.1.2
                      /\ (rect p).1.1.1 + (rect p).1.2 <= 4
                      /\ (rect p).1.1.2 + (rect p).2 <= 4)
            sample_output.1.2
  /\ (exists p, p ∈ sample_output.1.2 /\ prop_labels p = [1]).
Proof.
  destruct (selective_search_returns sample_felzenszwalb sample_rgb2hsv
              sample_local_binary_pattern sample_image sample_config []
              collaborator_calls sample_output.1.1 sample_output.1.2
              sample_output.2)
    as (h & w & Hshape & Hlab & _ & Hmask & Hog & _ & Hrect & Hlabels).
  - vm_compute. reflexivity.
  - pose proof Hshape as Hshape'. injection Hshape' as <- <-.
    split; [exact Hshape|]. split; [exact Hlab|].
    split; [exact Hog|]. split; [exact Hmask|]. split.
    + apply Forall_forall. exact Hrect.
    + apply Hlabels; [reflexivity|].
      rewrite Hmask. apply (bool_decide_unpack _). vm_compute. exact I.
Defined.

Lemma merge_step_rebuilds_witness :
  exists rn,
    dict_get (st_R sample_state) 0 = Some rn
    /\ dict_get (st_S sample_state_1) (3, 0)
       = Some (_calc_sim (_merge_regions (sample_region 5 5 15 15 40 8)
                                         (sample_region 8 8 20 20 30 9))
                         rn 400).
Proof.
  destruct (merge_step_rebuilds 3000 400 sample_state sample_state_1 1 2 2
              (sample_region 5 5 15 15 40 8) (sample_region 8 8 20 20 30 9))
    as (_ & _ & Hnew).
  - apply initial_state_edges_in_table.
  - exact sample_select.
  - reflexivity.
  - reflexivity.
  - reflexivity.
  - exact sample_step.
  - apply (Hnew ltac:(simpl; lia) (0, 1)).
    + apply (bool_decide_unpack _). vm_compute. exact I.
    + reflexivity.
    + discriminate.
Defined.

(** ** Entries of the histograms *)






